(** * invest-tax: trade ledger, corporate actions and position checks

    A shallow embedding of [matchmaker/trade.py], of [State] in
    [matchmaker/data.py] and of the corporate-action text parser, the
    statement sections and the option names of [matchmaker/ibkr.py], with
    the properties the specification states about them and further
    properties of the code.  [matchmaker/pairing.py] is missing: the pairings and the
    lot-matching engine are modelled from the specification, in the modules
    [Pairing] and [LotMatching].

    Conventions of the embedding.
    - A pandas frame is the list of its rows, in frame order.  A frame with
      an index (the trades, indexed by [Hash]; the symbols, indexed by
      [Symbol]) is a list of pairs (index value, row); duplicated index
      values are possible, as they are in pandas.
    - A [float64] cell is an exact rational, and [NaN] (as well as a cell of
      a column that does not exist yet) is [None].  Rounding, overflow and
      infinities (a float divided by a zero cell) are outside the model.
    - A timestamp is a number of seconds, in [Z].
    - A call that can raise returns a [result]. *)

From stdpp Require Import gmap strings list sorting.
From Stdlib Require Import Ascii QArith Qminmax Qabs Lqa.

Set Default Proof Using "Type".
Set Warnings "-clear-no-such-hyp".
Local Open Scope Z_scope.

(** ** Numeric cells *)

Abbreviation num := (option Q).

#[global] Instance Qlt_decision (x y : Q) : Decision (x < y)%Q.
Proof. destruct (Qlt_le_dec x y); [left | right]; [done | by apply Qle_not_lt]. Defined.

#[global] Instance Qle_decision (x y : Q) : Decision (x <= y)%Q.
Proof. destruct (Qlt_le_dec y x); [right | left]; [by apply Qlt_not_le | done]. Defined.

#[global] Instance Qeq_decision (x y : Q) : Decision (x == y)%Q.
Proof. apply Qeq_dec. Defined.

#[global] Instance Q_eq_dec : EqDecision Q.
Proof. solve_decision. Defined.

(** [a * b] and [a / b] on cells: a missing operand gives a missing result.
    The operations are exact: a statement that a cell is [num_mul] or
    [num_div] of two others says which operation the code performs on which
    cells, not that the float it stores is that rational.  A quotient by a
    zero cell, [inf] or [NaN] in pandas, is outside the model ([x / 0] is [0]
    in [Q]). *)
Definition num_mul (a b : num) : num :=
  match a, b with Some x, Some y => Some (x * y)%Q | _, _ => None end.

Definition num_div (a b : num) : num :=
  match a, b with Some x, Some y => Some (x / y)%Q | _, _ => None end.

(** [Series.fillna(v)]. *)
Definition fillna (v : Q) (a : num) : num :=
  match a with Some x => Some x | None => Some v end.

(** Comparisons of a cell with a constant: [NaN] compares false. *)
Definition num_lt0 (a : num) : bool :=
  match a with Some x => bool_decide (x < 0)%Q | None => false end.

Definition num_gt0 (a : num) : bool :=
  match a with Some x => bool_decide (0 < x)%Q | None => false end.

Definition num_eq0 (a : num) : bool :=
  match a with Some x => bool_decide (x == 0)%Q | None => false end.

(** The value pandas hashes when it looks for duplicated rows: numerically
    equal cells are the same value. *)
Definition canon (a : num) : num := Qred <$> a.

(** ** Frames: duplicates and sorting *)

Section Duplicated.
Context {A K : Type} `{EqDecision K} (key : A → K).

(** Rows of [l] whose key is not in [seen] and has not occurred before:
    the rows a [duplicated(keep='first')] mask lets through. *)
Fixpoint drop_duplicated (seen : list K) (l : list A) : list A :=
  match l with
  | [] => []
  | x :: l' =>
      if decide (key x ∈ seen) then drop_duplicated seen l'
      else x :: drop_duplicated (key x :: seen) l'
  end.

Definition keep_first (l : list A) : list A := drop_duplicated [] l.
End Duplicated.

(** ** The ledger tables *)

Abbreviation Hash := string (only parsing).
Abbreviation Timestamp := Z (only parsing).

(** A row of the trades frame.  [Type_] is the [Type] column; [Ticker],
    [Display_Name], [Split_Ratio], the accumulated quantities, [Manual] and
    [Target] are filled in after the import and are missing before. *)
Record Trade := {
  Category : option string;
  Symbol : string;
  Currency : string;
  Date_Time : Timestamp;
  Year : option Z;
  Quantity : num;
  T_Price : num;
  C_Price : num;
  Proceeds : num;
  Comm_Fee : num;
  Basis : num;
  Realized_PL : num;
  MTM_PL : num;
  Action : option string;
  Type_ : option string;
  Display_Suffix : string;
  Account : option string;
  Target : option string;
  Orig_Quantity : num;
  Orig_T_Price : num;
  Split_Ratio : num;
  Ticker : option string;
  Display_Name : option string;
  Accumulated_Quantity : num;
  Account_Accumulated_Quantity : num;
  Manual : option bool
}.

(** The trades frame: [Hash] index and row. *)
Abbreviation Trades := (list (Hash * Trade)).

(** A row of the corporate actions frame. *)
Record CorporateAction := {
  ca_Symbol : option string;
  ca_Date_Time : Timestamp;
  ca_Action : string;
  ca_Ratio : num;
  ca_Target : option string;
  ca_Quantity : num;
  ca_Proceeds : num;
  ca_Value : num
}.

(** A row of the open positions frame. *)
Record Position := {
  pos_Symbol : string;
  pos_Date : Timestamp;
  pos_Quantity : num;
  pos_Account : option string;
  pos_Ticker : option string;
  pos_Split_Ratio : num
}.

(** A row of the dividends frame. *)
Record Dividend := {
  div_Symbol : string;
  div_Date : Timestamp;
  div_Amount : num;
  div_Currency : string;
  div_Action : option string;
  div_Ratio : num;
  div_Country : option string;
  div_Tax : num;
  div_Tax_Percent : num;
  div_Ticker : option string
}.

(** A row of the symbols frame; its index is the raw symbol. *)
Record SymbolRename := {
  sym_Ticker : string;
  sym_Change_Date : option Timestamp;
  sym_Currency : option string;
  sym_Manual : option bool
}.

Abbreviation Symbols := (list (string * SymbolRename)).

(** A row of the imports frame. *)
Record Import := {
  imp_Account : string;
  imp_From : Timestamp;
  imp_To : Timestamp;
  imp_Trade_Count : Z
}.

#[global] Instance Trade_eq_dec : EqDecision Trade.
Proof. solve_decision. Defined.
#[global] Instance CorporateAction_eq_dec : EqDecision CorporateAction.
Proof. solve_decision. Defined.
#[global] Instance Position_eq_dec : EqDecision Position.
Proof. solve_decision. Defined.
#[global] Instance Dividend_eq_dec : EqDecision Dividend.
Proof. solve_decision. Defined.
#[global] Instance SymbolRename_eq_dec : EqDecision SymbolRename.
Proof. solve_decision. Defined.
#[global] Instance Import_eq_dec : EqDecision Import.
Proof. solve_decision. Defined.

(** [DataFrame.drop_duplicates()] compares the values of all columns (the
    index does not take part); float cells are compared as numbers. *)
Definition Dividend_values (d : Dividend) : Dividend :=
  {| div_Symbol := div_Symbol d; div_Date := div_Date d;
     div_Amount := canon (div_Amount d); div_Currency := div_Currency d;
     div_Action := div_Action d; div_Ratio := canon (div_Ratio d);
     div_Country := div_Country d; div_Tax := canon (div_Tax d);
     div_Tax_Percent := canon (div_Tax_Percent d);
     div_Ticker := div_Ticker d |}.

(** ** Pairings *)

Module Pairing.
(** Modelled from the spec: [matchmaker/pairing.py] ([Pairings] and its
    [invalidate_pairs]) is missing.  A Pair is one matched lot between an
    opening and a closing trade; the pairing output lists its buy and its
    sell time. *)
Record Pair := {
  openTradeRef : Hash;
  closeTradeRef : Hash;
  matchedQuantity : Q;
  openPrice : Q;
  closePrice : Q;
  buyTime : Timestamp;
  sellTime : Timestamp
}.

Abbreviation Pairings := (list Pair).

(** Modelled from the spec: [invalidate_pairs(ts)] discards all Pairs
    dated at or after [ts]; the others are kept as they are.  The spec
    does not say which of a Pair's two times dates it, so the date is a
    parameter.  With no timestamp ([NaT]) nothing is at or after it. *)
Definition invalidate_pairs (dated : Pair → Timestamp)
    (ts : option Timestamp) (ps : Pairings) : Pairings :=
  match ts with
  | Some ts => filter (λ p, dated p < ts) ps
  | None => ps
  end.
End Pairing.

(** ** State *)

Record State := {
  trades : Trades;
  actions : list CorporateAction;
  positions : list Position;
  dividends : list Dividend;
  symbols : Symbols;
  imports : list Import;
  pairings : Pairing.Pairings
}.

(** [State.reset]. *)
Definition reset : State :=
  {| trades := []; actions := []; positions := []; dividends := [];
     symbols := []; imports := []; pairings := [] |}.

(** ** trade.merge_trades *)

(** [merged[~merged.index.duplicated(keep='first')]] *)
Definition drop_duplicated_index (t : Trades) : Trades := keep_first fst t.

Definition merge_trades (existing : option Trades) (new : Trades) : Trades :=
  match existing with
  | None => new
  | Some existing =>
      if decide (length new = 0%nat) then existing
      else drop_duplicated_index (existing ++ new)
  end.

(** [Series.min()] of a column of timestamps; [NaT] on an empty column. *)
Definition min_timestamp (l : list Timestamp) : option Timestamp :=
  match l with
  | [] => None
  | x :: l' => Some (foldr Z.min x l')
  end.

(** ** State.merge_with *)

Section MergeWith.
(** The date of a Pair, for [Pairing.invalidate_pairs]. *)
Variable dated : Pairing.Pair → Timestamp.

(** The result is the state [self] is left in and the returned count. *)

Definition merge_with (self other : State) (drop_pairings : bool) : State * Z :=
  let imports' := keep_first id (imports self ++ imports other) in
  let actions' :=
    if decide (0 < length (actions other))%nat
    then actions other ++ actions self else actions self in
  let positions' :=
    keep_first (λ p, (pos_Symbol p, pos_Date p)) (positions other ++ positions self) in
  let before := length (trades self) in
  let trades' := merge_trades (Some (trades other)) (trades self) in
  let dividends' := keep_first Dividend_values (dividends self ++ dividends other) in
  let symbols' := symbols self ++ symbols other in
  let imported_count := Z.of_nat (length trades') - Z.of_nat before in
  let pairings' :=
    if bool_decide (imported_count > 0) && drop_pairings
    then Pairing.invalidate_pairs dated
           (min_timestamp (Date_Time ∘ snd <$> trades other)) (pairings self)
    else if negb drop_pairings then pairings other
    else pairings self in
  ({| trades := trades'; actions := actions'; positions := positions';
      dividends := dividends'; symbols := symbols'; imports := imports';
      pairings := pairings' |}, imported_count).
End MergeWith.

(** ** Column assignment on a trade row *)

Definition set_Quantity (v : num) (t : Trade) : Trade :=
  {| Category := Category t; Symbol := Symbol t; Currency := Currency t;
     Date_Time := Date_Time t; Year := Year t; Quantity := v; T_Price :=
     T_Price t; C_Price := C_Price t; Proceeds := Proceeds t; Comm_Fee :=
     Comm_Fee t; Basis := Basis t; Realized_PL := Realized_PL t; MTM_PL :=
     MTM_PL t; Action := Action t; Type_ := Type_ t; Display_Suffix :=
     Display_Suffix t; Account := Account t; Target := Target t;
     Orig_Quantity := Orig_Quantity t; Orig_T_Price := Orig_T_Price t;
     Split_Ratio := Split_Ratio t; Ticker := Ticker t; Display_Name :=
     Display_Name t; Accumulated_Quantity := Accumulated_Quantity t;
     Account_Accumulated_Quantity := Account_Accumulated_Quantity t; Manual
     := Manual t |}.

Definition set_T_Price (v : num) (t : Trade) : Trade :=
  {| Category := Category t; Symbol := Symbol t; Currency := Currency t;
     Date_Time := Date_Time t; Year := Year t; Quantity := Quantity t;
     T_Price := v; C_Price := C_Price t; Proceeds := Proceeds t; Comm_Fee :=
     Comm_Fee t; Basis := Basis t; Realized_PL := Realized_PL t; MTM_PL :=
     MTM_PL t; Action := Action t; Type_ := Type_ t; Display_Suffix :=
     Display_Suffix t; Account := Account t; Target := Target t;
     Orig_Quantity := Orig_Quantity t; Orig_T_Price := Orig_T_Price t;
     Split_Ratio := Split_Ratio t; Ticker := Ticker t; Display_Name :=
     Display_Name t; Accumulated_Quantity := Accumulated_Quantity t;
     Account_Accumulated_Quantity := Account_Accumulated_Quantity t; Manual
     := Manual t |}.

Definition set_Split_Ratio (v : num) (t : Trade) : Trade :=
  {| Category := Category t; Symbol := Symbol t; Currency := Currency t;
     Date_Time := Date_Time t; Year := Year t; Quantity := Quantity t;
     T_Price := T_Price t; C_Price := C_Price t; Proceeds := Proceeds t;
     Comm_Fee := Comm_Fee t; Basis := Basis t; Realized_PL := Realized_PL t;
     MTM_PL := MTM_PL t; Action := Action t; Type_ := Type_ t; Display_Suffix
     := Display_Suffix t; Account := Account t; Target := Target t;
     Orig_Quantity := Orig_Quantity t; Orig_T_Price := Orig_T_Price t;
     Split_Ratio := v; Ticker := Ticker t; Display_Name := Display_Name t;
     Accumulated_Quantity := Accumulated_Quantity t;
     Account_Accumulated_Quantity := Account_Accumulated_Quantity t; Manual
     := Manual t |}.

Definition set_Ticker (v : option string) (t : Trade) : Trade :=
  {| Category := Category t; Symbol := Symbol t; Currency := Currency t;
     Date_Time := Date_Time t; Year := Year t; Quantity := Quantity t;
     T_Price := T_Price t; C_Price := C_Price t; Proceeds := Proceeds t;
     Comm_Fee := Comm_Fee t; Basis := Basis t; Realized_PL := Realized_PL t;
     MTM_PL := MTM_PL t; Action := Action t; Type_ := Type_ t; Display_Suffix
     := Display_Suffix t; Account := Account t; Target := Target t;
     Orig_Quantity := Orig_Quantity t; Orig_T_Price := Orig_T_Price t;
     Split_Ratio := Split_Ratio t; Ticker := v; Display_Name := Display_Name
     t; Accumulated_Quantity := Accumulated_Quantity t;
     Account_Accumulated_Quantity := Account_Accumulated_Quantity t; Manual
     := Manual t |}.

Definition set_Accumulated_Quantity (v : num) (t : Trade) : Trade :=
  {| Category := Category t; Symbol := Symbol t; Currency := Currency t;
     Date_Time := Date_Time t; Year := Year t; Quantity := Quantity t;
     T_Price := T_Price t; C_Price := C_Price t; Proceeds := Proceeds t;
     Comm_Fee := Comm_Fee t; Basis := Basis t; Realized_PL := Realized_PL t;
     MTM_PL := MTM_PL t; Action := Action t; Type_ := Type_ t; Display_Suffix
     := Display_Suffix t; Account := Account t; Target := Target t;
     Orig_Quantity := Orig_Quantity t; Orig_T_Price := Orig_T_Price t;
     Split_Ratio := Split_Ratio t; Ticker := Ticker t; Display_Name :=
     Display_Name t; Accumulated_Quantity := v; Account_Accumulated_Quantity
     := Account_Accumulated_Quantity t; Manual := Manual t |}.

Definition set_Account_Accumulated_Quantity (v : num) (t : Trade) : Trade :=
  {| Category := Category t; Symbol := Symbol t; Currency := Currency t;
     Date_Time := Date_Time t; Year := Year t; Quantity := Quantity t;
     T_Price := T_Price t; C_Price := C_Price t; Proceeds := Proceeds t;
     Comm_Fee := Comm_Fee t; Basis := Basis t; Realized_PL := Realized_PL t;
     MTM_PL := MTM_PL t; Action := Action t; Type_ := Type_ t; Display_Suffix
     := Display_Suffix t; Account := Account t; Target := Target t;
     Orig_Quantity := Orig_Quantity t; Orig_T_Price := Orig_T_Price t;
     Split_Ratio := Split_Ratio t; Ticker := Ticker t; Display_Name :=
     Display_Name t; Accumulated_Quantity := Accumulated_Quantity t;
     Account_Accumulated_Quantity := v; Manual := Manual t |}.

Definition set_Display_Name (v : option string) (t : Trade) : Trade :=
  {| Category := Category t; Symbol := Symbol t; Currency := Currency t;
     Date_Time := Date_Time t; Year := Year t; Quantity := Quantity t;
     T_Price := T_Price t; C_Price := C_Price t; Proceeds := Proceeds t;
     Comm_Fee := Comm_Fee t; Basis := Basis t; Realized_PL := Realized_PL t;
     MTM_PL := MTM_PL t; Action := Action t; Type_ := Type_ t; Display_Suffix
     := Display_Suffix t; Account := Account t; Target := Target t;
     Orig_Quantity := Orig_Quantity t; Orig_T_Price := Orig_T_Price t;
     Split_Ratio := Split_Ratio t; Ticker := Ticker t; Display_Name := v;
     Accumulated_Quantity := Accumulated_Quantity t;
     Account_Accumulated_Quantity := Account_Accumulated_Quantity t; Manual
     := Manual t |}.

Definition set_Manual (v : option bool) (t : Trade) : Trade :=
  {| Category := Category t; Symbol := Symbol t; Currency := Currency t;
     Date_Time := Date_Time t; Year := Year t; Quantity := Quantity t;
     T_Price := T_Price t; C_Price := C_Price t; Proceeds := Proceeds t;
     Comm_Fee := Comm_Fee t; Basis := Basis t; Realized_PL := Realized_PL t;
     MTM_PL := MTM_PL t; Action := Action t; Type_ := Type_ t; Display_Suffix
     := Display_Suffix t; Account := Account t; Target := Target t;
     Orig_Quantity := Orig_Quantity t; Orig_T_Price := Orig_T_Price t;
     Split_Ratio := Split_Ratio t; Ticker := Ticker t; Display_Name :=
     Display_Name t; Accumulated_Quantity := Accumulated_Quantity t;
     Account_Accumulated_Quantity := Account_Accumulated_Quantity t; Manual
     := v |}.

(** [df[col] = f(row)] on the trades frame: every row gets the cell
    computed from it; the index stays. *)
Definition assign (f : Trade → Trade) (t : Trades) : Trades :=
  prod_map id f <$> t.

(** ** Sorting a frame *)

Section SortValues.
Context {A : Type} (le : A → A → bool).

(** [x], a row that came before the rows of [l], goes in front of the first
    row that is not smaller. *)
Fixpoint sort_insert (x : A) (l : list A) : list A :=
  match l with
  | [] => [x]
  | y :: l' => if le x y then x :: l else y :: sort_insert x l'
  end.

(** [DataFrame.sort_values].  Rows with equal keys stay in frame order
    here; pandas promises no order among them. *)
Definition sort_values (l : list A) : list A := foldr sort_insert [] l.
End SortValues.

(** ** trade.add_split_data and trade.adjust_for_splits *)

(** [split_actions['Action'] == 'Split'] *)
Definition is_Split (a : CorporateAction) : Prop := ca_Action a = "Split".

#[global] Instance is_Split_dec a : Decision (is_Split a).
Proof. unfold is_Split. apply _. Defined.

(** [sort_values(by='Date/Time', ascending=True)] *)
Definition by_Date_Time (a b : CorporateAction) : bool :=
  bool_decide (ca_Date_Time a ≤ ca_Date_Time b).

(** [groupby('Symbol')['Ratio'].cumprod()]: each row gets the product of the
    ratios of its group up to and including itself; [acc] holds the running
    product of every group met so far.  A missing ratio leaves a missing cell
    and does not enter the product; a row with no symbol is in no group. *)
Fixpoint groupby_cumprod (acc : gmap string Q) (l : list CorporateAction) : list num :=
  match l with
  | [] => []
  | a :: l' =>
      match ca_Symbol a, ca_Ratio a with
      | Some s, Some r =>
          let p := match acc !! s with Some p => (p * r)%Q | None => r end in
          Some p :: groupby_cumprod (<[s := p]> acc) l'
      | _, _ => None :: groupby_cumprod acc l'
      end
  end.

(** [Series.min()]: missing cells are skipped, an empty column gives a
    missing value. *)
Definition series_min (l : list num) : num :=
  foldr (λ x m, match x, m with
                | Some a, Some b => Some (Qmin a b)
                | Some a, None => Some a
                | None, _ => m
                end) None l.

(** The cumulative ratios of the rows of [split_actions] with the symbol of
    the trade row and a date after it. *)
Definition later_cumulative_ratios (split_actions : list (CorporateAction * num))
    (row : Trade) : list num :=
  snd <$> filter (λ ac, ca_Symbol ac.1 = Some (Symbol row) ∧
                        Date_Time row < ca_Date_Time ac.1) split_actions.

Definition add_split_data (target : Trades)
    (split_actions : option (list CorporateAction)) : Trades :=
  let target := assign (set_Split_Ratio (Some 1%Q)) target in
  match split_actions with
  | None => target
  | Some split_actions =>
      if bool_decide (split_actions = []) then target
      else
        let split_actions := filter is_Split split_actions in
        if bool_decide (split_actions ≠ []) then
          let split_actions := sort_values by_Date_Time split_actions in
          let cumulative := zip split_actions (groupby_cumprod ∅ split_actions) in
          let target :=
            assign (λ row, set_Split_Ratio
                      (num_div (Some 1%Q)
                         (series_min (later_cumulative_ratios cumulative row))) row)
              target in
          assign (λ row, set_Split_Ratio (fillna 1 (Split_Ratio row)) row) target
        else target
  end.

Definition adjust_for_splits (trades : Trades)
    (split_actions : option (list CorporateAction)) : Trades :=
  match split_actions with
  | Some (_ :: _) =>
      let trades := add_split_data trades split_actions in
      let trades :=
        assign (λ row, set_Quantity
                  (num_mul (Orig_Quantity row) (Split_Ratio row)) row) trades in
      assign (λ row, set_T_Price
                (num_div (Orig_T_Price row) (Split_Ratio row)) row) trades
  | _ => trades
  end.

(** *** The split ratio in the words of the specification *)

(** [Series.cumprod()]: the running product of a column, missing cells
    skipped. *)
Fixpoint running_product (p : option Q) (l : list num) : list num :=
  match l with
  | [] => []
  | Some r :: l' =>
      let q := match p with Some p => (p * r)%Q | None => r end in
      Some q :: running_product (Some q) l'
  | None :: l' => None :: running_product p l'
  end.

(** The Split actions of one symbol in ascending time order, each with the
    running product of the ratios up to it. *)
Definition cumulativeRatio (actions : list CorporateAction) (symbol : string)
    : list (CorporateAction * num) :=
  let splits :=
    filter (λ a, ca_Symbol a = Some symbol)
      (sort_values by_Date_Time (filter is_Split actions)) in
  zip splits (running_product None (ca_Ratio <$> splits)).

(** 1 over the minimum cumulative ratio among the splits of the symbol dated
    strictly after [t]; 1 if there is none. *)
Definition splitRatio (actions : list CorporateAction) (symbol : string)
    (t : Timestamp) : Q :=
  match series_min (snd <$> filter (λ ac, t < ca_Date_Time ac.1)
                              (cumulativeRatio actions symbol)) with
  | Some m => (1 / m)%Q
  | None => 1%Q
  end.

(** A trade row re-expressed with split ratio [r]. *)
Definition split_adjusted (r : Q) (row : Trade) : Trade :=
  set_T_Price (num_div (Orig_T_Price row) (Some r))
    (set_Quantity (num_mul (Orig_Quantity row) (Some r))
       (set_Split_Ratio (Some r) row)).

(** ** Results of calls that can raise *)

Inductive exception :=
  ZeroDivisionError | IndexError | ValueError | KeyError | TypeError.

Inductive result (A : Type) :=
| Returns (a : A)
| Raises (e : exception).
Arguments Returns {A} a.
Arguments Raises {A} e.

(** Sequencing: the first call that raises ends the run.  This gives the
    [x ← r; k] notation for results. *)
#[global] Instance result_bind : MBind result := λ A B k r,
  match r with
  | Returns a => k a
  | Raises e => Raises e
  end.

(** ** Corporate action descriptions: ibkr.parse_action_text

    The text is ASCII.  Every quantified class of the patterns is followed
    by a character outside the class (or ends the pattern), so a greedy
    match takes the longest run and never has to give characters back. *)

Abbreviation text := (list ascii) (only parsing).

Definition code (c : ascii) : nat := nat_of_ascii c.

Definition between (lo hi : nat) (c : ascii) : bool :=
  (lo <=? code c)%nat && (code c <=? hi)%nat.

(** [\d] *)
Definition is_digit (c : ascii) : bool := between 48 57 c.

(** [\w] *)
Definition is_word (c : ascii) : bool :=
  between 97 122 c || between 65 90 c || is_digit c || (code c =? 95)%nat.

(** [[\w\.]] *)
Definition is_word_or_dot (c : ascii) : bool := is_word c || (code c =? 46)%nat.

(** [\s] *)
Definition is_space (c : ascii) : bool :=
  between 9 13 c || between 28 32 c.

(** [.]: anything but a newline. *)
Definition is_dot (c : ascii) : bool := negb (code c =? 10)%nat.

Definition lower (c : ascii) : ascii :=
  if between 65 90 c then ascii_of_nat (code c + 32) else c.

(** The longest prefix in a class, and the rest. *)
Fixpoint span (p : ascii → bool) (l : text) : text * text :=
  match l with
  | c :: l' => if p c then let '(a, r) := span p l' in (c :: a, r) else ([], l)
  | [] => ([], [])
  end.

(** [cls+] *)
Definition many1 (p : ascii → bool) (l : text) : option (text * text) :=
  match span p l with
  | ([], _) => None
  | (a, r) => Some (a, r)
  end.

(** Literal characters; with [ignorecase], letters match in both cases. *)
Fixpoint literal (ignorecase : bool) (pat l : text) : option text :=
  match pat, l with
  | [], _ => Some l
  | p :: pat', c :: l' =>
      if bool_decide ((if ignorecase then lower p else p) =
                      (if ignorecase then lower c else c))
      then literal ignorecase pat' l' else None
  | _ :: _, [] => None
  end.

Definition lit (ignorecase : bool) (pat : string) (l : text) : option text :=
  literal ignorecase (String.list_ascii_of_string pat) l.

(** [re.search]: the match at the leftmost position that has one. *)
Fixpoint re_search {G} (pattern : text → option G) (l : text) : option G :=
  match pattern l with
  | Some g => Some g
  | None => match l with [] => None | _ :: l' => re_search pattern l' end
  end.

(** [pat in text] *)
Definition contains (pat : string) (l : text) : bool :=
  bool_decide (is_Some (re_search (lit false pat) l)).

(** [float(digits)].  The value is exact, as [float] is on a number of at
    most 15 digits; above [2^53] Python rounds, and beyond 308 digits it
    gives [inf]: both are outside the model. *)
Definition digits_value (l : text) : Z :=
  foldl (λ n c, 10 * n + Z.of_nat (code c - 48)) 0 l.

Definition float_of_digits (l : text) : Q := inject_Z (digits_value l).

(** [float("int.frac")] *)
Definition float_of_decimal (int frac : text) : Q :=
  (inject_Z (digits_value (int ++ frac)) / inject_Z (10 ^ Z.of_nat (length frac)))%Q.

(** Float division: a zero divisor raises. *)
Definition float_div (a b : Q) : result Q :=
  if decide (b == 0)%Q then Raises ZeroDivisionError else Returns (a / b)%Q.

(** [(action, symbol, ratio, target)] *)
Abbreviation parsed := (option string * option string * num * option string)%type.

Definition no_match : parsed := (None, None, None, None).

Definition str (l : text) : string := String.string_of_list_ascii l.

(** [([\w\.]+)\(\w+\) Split (\d+) for (\d+)], ignoring case. *)
Definition split_pattern (l : text) : option (text * text * text) :=
  '(g1, l) ← many1 is_word_or_dot l;
  l ← lit true "(" l;
  '(_, l) ← many1 is_word l;
  l ← lit true ") Split " l;
  '(g2, l) ← many1 is_digit l;
  l ← lit true " for " l;
  '(g3, _) ← many1 is_digit l;
  Some (g1, g2, g3).

Definition parse_split_text (t : string) : result parsed :=
  match re_search split_pattern (String.list_ascii_of_string t) with
  | Some (g1, g2, g3) =>
      ratio ← float_div (float_of_digits g3) (float_of_digits g2);
      Returns (Some "Split"%string, Some (str g1), Some ratio, None)
  | None => Returns no_match
  end.

(** [.+\)]: a closing parenthesis after at least one character, on the
    same line. *)
Definition rest_then_paren (l : text) : option unit :=
  match span is_dot l with
  | (_ :: line, _) => if bool_decide (")"%char ∈ line) then Some () else None
  | _ => None
  end.

(** [^(\w+)\(\w+\) Spinoff\s+(\d+) for (\d+) \((\w+),.+\)], ignoring case. *)
Definition spinoff_pattern (l : text) : option (text * text * text) :=
  '(_, l) ← many1 is_word l;
  l ← lit true "(" l;
  '(_, l) ← many1 is_word l;
  l ← lit true ") Spinoff" l;
  '(_, l) ← many1 is_space l;
  '(g2, l) ← many1 is_digit l;
  l ← lit true " for " l;
  '(g3, l) ← many1 is_digit l;
  l ← lit true " (" l;
  '(g4, l) ← many1 is_word l;
  l ← lit true "," l;
  _ ← rest_then_paren l;
  Some (g2, g3, g4).

Definition parse_spinoff_text (t : string) : result parsed :=
  match spinoff_pattern (String.list_ascii_of_string t) with
  | Some (g2, g3, g4) =>
      ratio ← float_div (float_of_digits g2) (float_of_digits g3);
      Returns (Some "Spinoff"%string, Some (str g4), Some ratio, None)
  | None => Returns no_match
  end.

(** [^(\w+)\(\w+\) Merged\(Acquisition\) FOR (\w+) (\d+\.\d+) PER SHARE] *)
Definition acquisition_for_pattern (l : text) : option (text * text * text) :=
  '(g1, l) ← many1 is_word l;
  l ← lit true "(" l;
  '(_, l) ← many1 is_word l;
  l ← lit true ") Merged(Acquisition) FOR " l;
  '(_, l) ← many1 is_word l;
  l ← lit true " " l;
  '(int, l) ← many1 is_digit l;
  l ← lit true "." l;
  '(frac, l) ← many1 is_digit l;
  _ ← lit true " PER SHARE" l;
  Some (g1, int, frac).

(** [^(\w+)\(\w+\) Merged\(Acquisition\) WITH (\w+) (\d+) for (\d+) \((\w+),] *)
Definition acquisition_with_pattern (l : text) : option (text * text * text * text) :=
  '(g1, l) ← many1 is_word l;
  l ← lit true "(" l;
  '(_, l) ← many1 is_word l;
  l ← lit true ") Merged(Acquisition) WITH " l;
  '(_, l) ← many1 is_word l;
  l ← lit true " " l;
  '(g3, l) ← many1 is_digit l;
  l ← lit true " for " l;
  '(g4, l) ← many1 is_digit l;
  l ← lit true " (" l;
  '(g5, l) ← many1 is_word l;
  _ ← lit true "," l;
  Some (g1, g3, g4, g5).

Definition parse_acquisition_text (t : string) : result parsed :=
  match acquisition_for_pattern (String.list_ascii_of_string t) with
  | Some (g1, int, frac) =>
      Returns (Some "Acquisition"%string, Some (str g1),
               Some (float_of_decimal int frac), None)
  | None =>
      match acquisition_with_pattern (String.list_ascii_of_string t) with
      | Some (g1, g3, g4, g5) =>
          ratio ← float_div (float_of_digits g4) (float_of_digits g3);
          Returns (Some "Acquisition"%string, Some (str g5), Some ratio, Some (str g1))
      | None => Returns no_match
      end
  end.

(** [^(\w+)\(\w+\)] *)
Definition header_pattern (l : text) : option text :=
  '(g1, l) ← many1 is_word l;
  l ← lit false "(" l;
  '(_, l) ← many1 is_word l;
  _ ← lit false ")" l;
  Some g1.

(** [not action] *)
Definition no_action (p : parsed) : bool :=
  match p.1.1.1 with
  | None | Some ""%string => true
  | Some _ => false
  end.

Definition parse_action_text (t : string) : result parsed :=
  p ← parse_split_text t;
  p ← (if no_action p then parse_spinoff_text t else Returns p);
  p ← (if no_action p then parse_acquisition_text t else Returns p);
  let p :=
    if no_action p then
      match header_pattern (String.list_ascii_of_string t) with
      | Some g1 => (Some "Unknown"%string, Some (str g1), Some 0%Q, None)
      | None => p
      end
    else p in
  let p :=
    if no_action p && contains "Dividend" (String.list_ascii_of_string t)
    then (Some "Dividend"%string, None, None, None) else p in
  let p :=
    if no_action p then (Some "Unknown"%string, None, None, None) else p in
  Returns p.

(** The row [import_corporate_actions] makes of a description dated [t]. *)
Definition corporate_action_of (t : Timestamp) (description : string)
    (quantity proceeds value : num) : result CorporateAction :=
  p ← parse_action_text description;
  let '(action, symbol, ratio, target) := p in
  Returns {| ca_Symbol := symbol; ca_Date_Time := t;
             ca_Action := default ""%string action; ca_Ratio := ratio;
             ca_Target := target; ca_Quantity := quantity;
             ca_Proceeds := proceeds; ca_Value := value |}.

(** The characters of a string. *)
Definition chars (s : string) : list ascii := String.list_ascii_of_string s.

(** The description IBKR gives a 2-for-1 split of [sym] (security id [id]),
    followed by [rest]. *)
Definition split_2_for_1_text (sym id rest : string) : string :=
  sym +:+ "(" +:+ id +:+ ") Split 2 for 1" +:+ rest.

(** [rest] does not go on with a digit. *)
Definition no_leading_digit (rest : string) : Prop :=
  match chars rest with
  | c :: _ => is_digit c = false
  | [] => True
  end.

(** ** trade.convert_trade_columns and trade.normalize_trades *)

(** A cell of a frame as an import adapter hands it over: text still to be
    converted, a number, or nothing. *)
Inductive cell := Text (s : string) | Number (q : Q) | Missing.

Record RawTrade := {
  raw_Symbol : string;
  raw_Currency : string;
  raw_Date_Time : string;
  raw_Quantity : cell;
  raw_Proceeds : cell;
  raw_Comm_Fee : cell;
  raw_Basis : cell;
  raw_Realized_PL : cell;
  raw_MTM_PL : cell;
  raw_T_Price : cell;
  raw_C_Price : cell;
  raw_Display_Suffix : option string;
  raw_Action : option string;
  raw_Code : option string;
  raw_Type : option string;
  raw_Account : option string;
  raw_Target : option string
}.

(** The optional columns of the frame. *)
Record Columns := {
  has_Display_Suffix : bool;
  has_Action : bool;
  has_Code : bool;
  has_Type : bool
}.

Fixpoint mapM {A B} (f : A → result B) (l : list A) : result (list B) :=
  match l with
  | [] => Returns []
  | x :: l' => y ← f x; ys ← mapM f l'; Returns (y :: ys)
  end.

(** ['Open' if ('O' in x or 'Ca' in x) else 'Close' if 'C' in x else
    'Unknown'] *)
Definition action_of_code (x : string) : string :=
  let x := String.list_ascii_of_string x in
  if contains "O" x || contains "Ca" x then "Open"
  else if contains "C" x then "Close" else "Unknown".

(** [get_type(row)]; [row['Action']] raises when the frame has no such
    column. *)
Definition get_type (action_column : bool) (quantity : num) (action : option string)
    : result (option string) :=
  if num_eq0 quantity then Returns None
  else if negb action_column then Raises KeyError
  else if bool_decide (action = Some "Transfer"%string) then
    Returns (Some (if num_gt0 quantity then "In" else "Out")%string)
  else if (bool_decide (action = Some "Close"%string) && num_lt0 quantity)
          || (bool_decide (action = Some "Open"%string) && num_gt0 quantity) then
    Returns (Some "Long"%string)
  else Returns (Some "Short"%string).

Section Normalize.
(** Library and absent code: the number parser behind [pd.to_numeric], the
    date parser [pd.to_datetime] reads the cells of the column with ([None]
    where it raises; pandas settles the format of a column on its first
    cell and reads every cell with it, so the parser is that of the column
    at hand, not of a cell on its own), the year of a timestamp, and
    [matchmaker.hash.hash_row]. *)
Variable parse_float : string → option Q.
Variable parse_datetime : string → option Timestamp.
Variable year : Timestamp → Z.
Variable hash_row : Trade → Hash.

(** [pd.to_numeric(errors='coerce')] on one cell. *)
Definition to_numeric (c : cell) : num :=
  match c with
  | Text s => parse_float s
  | Number q => Some q
  | Missing => None
  end.

(** [pd.to_datetime] on one cell of the column. *)
Definition to_datetime (s : string) : result Timestamp :=
  match parse_datetime s with
  | Some t => Returns t
  | None => Raises ValueError
  end.

Definition convert_trade_columns (cols : Columns) (df : list RawTrade)
    : result (list Trade) :=
  dates ← mapM (to_datetime ∘ raw_Date_Time) df;
  actions ←
    (if negb (has_Action cols) && has_Code cols then
       mapM (λ r, match raw_Code r with
                  | Some x => Returns (Some (action_of_code x))
                  | None => Raises TypeError
                  end) df
     else Returns (raw_Action <$> df));
  let action_column := has_Action cols || has_Code cols in
  types ← mapM (λ ra, get_type action_column (to_numeric (raw_Quantity ra.1)) ra.2)
            (zip df actions);
  Returns
    (zip_with (λ r dat,
       let '(d, a, ty) := dat in
       {| Category := None; Symbol := raw_Symbol r; Currency := raw_Currency r;
          Date_Time := d; Year := None;
          Quantity := to_numeric (raw_Quantity r);
          T_Price := to_numeric (raw_T_Price r);
          C_Price := to_numeric (raw_C_Price r);
          Proceeds := to_numeric (raw_Proceeds r);
          Comm_Fee := to_numeric (raw_Comm_Fee r);
          Basis := to_numeric (raw_Basis r);
          Realized_PL := to_numeric (raw_Realized_PL r);
          MTM_PL := to_numeric (raw_MTM_PL r);
          Action := a;
          Type_ := match (if has_Type cols then raw_Type r else None) with
                   | Some t => Some t
                   | None => ty
                   end;
          Display_Suffix :=
            default ""%string
              (if has_Display_Suffix cols then raw_Display_Suffix r else None);
          Account := raw_Account r; Target := raw_Target r;
          Orig_Quantity := None; Orig_T_Price := None; Split_Ratio := None;
          Ticker := None; Display_Name := None; Accumulated_Quantity := None;
          Account_Accumulated_Quantity := None; Manual := None |})
       df (zip (zip dates actions) types)).

Definition normalize_row (t : Trade) : Trade :=
  {| Category := Some "Trades"%string; Symbol := Symbol t; Currency := Currency t;
     Date_Time := Date_Time t; Year := Some (year (Date_Time t));
     Quantity := Quantity t; T_Price := T_Price t; C_Price := C_Price t;
     Proceeds := Proceeds t; Comm_Fee := Comm_Fee t; Basis := Basis t;
     Realized_PL := Realized_PL t; MTM_PL := MTM_PL t; Action := Action t;
     Type_ := Type_ t; Display_Suffix := Display_Suffix t; Account := Account t;
     Target := Target t; Orig_Quantity := Quantity t; Orig_T_Price := T_Price t;
     Split_Ratio := Split_Ratio t; Ticker := Ticker t;
     Display_Name := Display_Name t;
     Accumulated_Quantity := Accumulated_Quantity t;
     Account_Accumulated_Quantity := Account_Accumulated_Quantity t;
     Manual := Manual t |}.

Definition normalize_trades (cols : Columns) (df : list RawTrade) : result Trades :=
  match df with
  | [] => Returns []
  | _ =>
      rows ← convert_trade_columns cols df;
      Returns ((λ t, let t := normalize_row t in (hash_row t, t)) <$> (rows : list Trade))
  end.
End Normalize.

(** ** trade.compute_accumulated_positions *)

(** [sort_values(by=['Date/Time'])] on the trades frame. *)
Definition by_trade_time (a b : Hash * Trade) : bool :=
  bool_decide (Date_Time a.2 ≤ Date_Time b.2).

Section Cumsum.
Context {K : Type} `{Countable K} (key : Trade → option K).

(** [groupby(key)['Quantity'].cumsum()]: each row gets the sum of the
    quantities of its group up to and including itself.  A missing quantity
    leaves a missing cell and does not enter the sum; a row with a missing
    key is in no group. *)
Fixpoint groupby_cumsum (acc : gmap K Q) (l : Trades) : list num :=
  match l with
  | [] => []
  | r :: l' =>
      match key r.2, Quantity r.2 with
      | Some k, Some q =>
          let s := match acc !! k with Some s => (s + q)%Q | None => q end in
          Some s :: groupby_cumsum (<[k := s]> acc) l'
      | _, _ => None :: groupby_cumsum acc l'
      end
  end.
End Cumsum.

(** [['Ticker', 'Display Suffix']] *)
Definition instrument (t : Trade) : option (string * string) :=
  tk ← Ticker t; Some (tk, Display_Suffix t).

(** [['Account', 'Ticker', 'Display Suffix']] *)
Definition account_instrument (t : Trade) : option (string * string * string) :=
  a ← Account t; tk ← Ticker t; Some (a, tk, Display_Suffix t).

Definition compute_accumulated_positions (trades : Trades) (symbols : Symbols) : Trades :=
  let trades := sort_values by_trade_time trades in
  let trades :=
    zip_with (λ r a, (r.1, set_Accumulated_Quantity a r.2)) trades
      (groupby_cumsum instrument ∅ trades) in
  zip_with (λ r a, (r.1, set_Account_Accumulated_Quantity a r.2)) trades
    (groupby_cumsum account_instrument ∅ trades).

(** ** trade.positions_with_missing_transactions *)

Definition positions_with_missing_transactions (trades : Trades) : Trades :=
  filter (λ r : Hash * Trade,
            num_lt0 (Accumulated_Quantity r.2)
              && bool_decide (Type_ r.2 = Some "Long"%string)
              && bool_decide (Action r.2 = Some "Close"%string)
            || num_gt0 (Accumulated_Quantity r.2)
              && bool_decide (Type_ r.2 = Some "Short"%string)
              && bool_decide (Action r.2 = Some "Close"%string))
    trades.

(** An impossible close: a long position closed below zero or a short one
    closed above zero. *)
Definition impossible_close (t : Trade) : Prop :=
  Action t = Some "Close"%string ∧
  ((Type_ t = Some "Long"%string ∧ ∃ q, Accumulated_Quantity t = Some q ∧ (q < 0)%Q) ∨
   (Type_ t = Some "Short"%string ∧ ∃ q, Accumulated_Quantity t = Some q ∧ (0 < q)%Q)).

(** ** trade.transfers_with_missing_transactions *)

(** [groupby(key)['Quantity'].sum()]: a series indexed by the group key.
    Missing quantities count as nothing; a row with a missing key is in no
    group. *)
Definition groupby_sum (key : Trade → option (string * string)) (l : Trades)
    : gmap (string * string) Q :=
  foldl (λ m r,
           match key r.2 with
           | Some k => <[k := (default 0 (m !! k) + default 0 (Quantity r.2))%Q]> m
           | None => m
           end) ∅ l.

(** [a.add(b, fill_value=0)]: the sum on the keys of both, the one value
    there is on the others. *)
Definition series_add (a b : gmap (string * string) Q) : gmap (string * string) Q :=
  union_with (λ x y, Some (x + y)%Q) a b.

(** [['Display Name', 'Account']] and [['Display Name', 'Target']] *)
Definition by_name_and_account (t : Trade) : option (string * string) :=
  n ← Display_Name t; a ← Account t; Some (n, a).

Definition by_name_and_target (t : Trade) : option (string * string) :=
  n ← Display_Name t; a ← Target t; Some (n, a).

(** What the query returns: an empty frame, or the pair
    [(unmatched_incoming, unmatched_outgoing)]. *)
Inductive transfers_report :=
| EmptyFrame
| Unmatched (unmatched_incoming unmatched_outgoing : gmap (string * string) Q).

(** [target_column] is ['Target' in trades.columns]. *)
Definition transfers_with_missing_transactions (target_column : bool)
    (trades : Trades) : transfers_report :=
  let transfers :=
    filter (λ r : Hash * Trade,
              Action r.2 = Some "Transfer"%string ∧ Type_ r.2 ≠ Some "Spinoff"%string)
      trades in
  let outgoing := filter (λ r : Hash * Trade, Type_ r.2 = Some "Out"%string) transfers in
  if target_column then
    let incoming := filter (λ r : Hash * Trade, Type_ r.2 = Some "In"%string) transfers in
    let incoming_grouped := groupby_sum by_name_and_account incoming in
    let outgoing_grouped := groupby_sum by_name_and_target outgoing in
    let unmatched_outgoing := series_add outgoing_grouped incoming_grouped in
    let unmatched_outgoing := filter (λ kv, (kv.2 < 0)%Q) unmatched_outgoing in
    let incoming_grouped := groupby_sum by_name_and_target incoming in
    let outgoing_grouped := groupby_sum by_name_and_account outgoing in
    let unmatched_incoming := series_add incoming_grouped outgoing_grouped in
    let unmatched_incoming := filter (λ kv, (0 < kv.2)%Q) unmatched_incoming in
    Unmatched unmatched_incoming unmatched_outgoing
  else EmptyFrame.

(** ** State.apply_renames *)

(** [Change Date] is null or not before [d]. *)
Definition covers (change_date : option Timestamp) (d : Timestamp) : Prop :=
  match change_date with
  | None => True
  | Some c => d ≤ c
  end.

#[global] Instance covers_dec c d : Decision (covers c d).
Proof. destruct c; simpl; apply _. Defined.

(** [sort_values(by='Change Date', na_position='last')] *)
Definition by_Change_Date (a b : string * SymbolRename) : bool :=
  match sym_Change_Date a.2, sym_Change_Date b.2 with
  | Some x, Some y => bool_decide (x ≤ y)
  | Some _, None => true
  | None, Some _ => false
  | None, None => true
  end.

(** The rows of the symbols table for a raw symbol and a date. *)
Definition matching_renames (symbols : Symbols) (symbol : string) (d : Timestamp)
    : Symbols :=
  filter (λ e : string * SymbolRename, e.1 = symbol ∧ covers (sym_Change_Date e.2) d)
    symbols.

(** The lambda of [rename_symbols]: [.iloc[0]['Ticker']] of the matching
    rows sorted by change date; [iloc[0]] raises when there is none. *)
Definition lookup_ticker (symbols : Symbols) (symbol : string) (d : Timestamp)
    : result string :=
  match sort_values by_Change_Date (matching_renames symbols symbol d) with
  | e :: _ => Returns (sym_Ticker e.2)
  | [] => Raises IndexError
  end.

Section RenameSymbols.
Context {R : Type} (symbol_of : R → string) (date_of : R → Timestamp)
  (set_ticker : option string → R → R).

(** [rename_symbols(df, date_column)] *)
Definition rename_symbols (symbols : Symbols) (df : list R) : result (list R) :=
  mapM (λ row, ticker ← lookup_ticker symbols (symbol_of row) (date_of row);
               Returns (set_ticker (Some ticker) row)) df.
End RenameSymbols.

Definition set_pos_Ticker (v : option string) (p : Position) : Position :=
  {| pos_Symbol := pos_Symbol p; pos_Date := pos_Date p;
     pos_Quantity := pos_Quantity p; pos_Account := pos_Account p;
     pos_Ticker := v; pos_Split_Ratio := pos_Split_Ratio p |}.

Definition set_div_Ticker (v : option string) (d : Dividend) : Dividend :=
  {| div_Symbol := div_Symbol d; div_Date := div_Date d;
     div_Amount := div_Amount d; div_Currency := div_Currency d;
     div_Action := div_Action d; div_Ratio := div_Ratio d;
     div_Country := div_Country d; div_Tax := div_Tax d;
     div_Tax_Percent := div_Tax_Percent d; div_Ticker := v |}.

(** A trade whose [Manual] cell is missing is neither manual nor imported
    and is in neither part.  A trades frame without a [Manual] column (that
    of a fresh [State()]), on which [self.trades['Manual']] raises KeyError,
    is not told apart from a frame whose [Manual] cells are all missing:
    what is stated about a call that returns or raises is stated for a
    frame with a filled [Manual] cell, or under the assumption of a
    return. *)
Definition apply_renames (s : State) : result State :=
  let manual_trades :=
    filter (λ r : Hash * Trade, Manual r.2 = Some true) (trades s) in
  imported_trades ←
    rename_symbols (λ r : Hash * Trade, Symbol r.2) (λ r, Date_Time r.2)
      (λ v r, (r.1, set_Ticker v r.2)) (symbols s)
      (filter (λ r : Hash * Trade, Manual r.2 = Some false) (trades s));
  positions' ←
    rename_symbols pos_Symbol pos_Date set_pos_Ticker (symbols s) (positions s);
  dividends' ←
    rename_symbols div_Symbol div_Date set_div_Ticker (symbols s) (dividends s);
  Returns {| trades := imported_trades ++ manual_trades; actions := actions s;
             positions := positions'; dividends := dividends';
             symbols := symbols s; imports := imports s;
             pairings := pairings s |}.

(** The entry the specification selects for a row dated [d] under the raw
    symbol [symbol]: an entry of that symbol whose change date is null or
    not before [d], with no such entry having a smaller change date (null
    dates count as the largest). *)
Definition canonical_entry (symbols : Symbols) (symbol : string) (d : Timestamp)
    (e : string * SymbolRename) : Prop :=
  e ∈ symbols ∧ e.1 = symbol ∧ covers (sym_Change_Date e.2) d ∧
  ∀ e' : string * SymbolRename,
    e' ∈ symbols → e'.1 = symbol → covers (sym_Change_Date e'.2) d →
    by_Change_Date e e' = true.

(** ** State.detect_and_apply_renames: the symbols table *)

(** A row of the rename history, [renames.csv]. *)
Record Rename := {
  Old : string;
  New : string;
  Change_Date : option Timestamp;
  New_Company_Name : string
}.

(** [kept_symbols.groupby('Symbol')['Currency'].first()] at [symbol]: the
    first currency that is not missing among the rows of the symbol; a
    missing value if all are missing; [KeyError] if the symbol has no row. *)
Definition currency_lookup (kept_symbols : Symbols) (symbol : string)
    : result (option string) :=
  match filter (λ e : string * SymbolRename, e.1 = symbol) kept_symbols with
  | [] => Raises KeyError
  | rows => Returns (head (omap (λ e, sym_Currency e.2) rows))
  end.

(** [sort_values(by=['Change Date', 'Symbol'], na_position='last')] *)
Definition by_Change_Date_Symbol (a b : string * SymbolRename) : bool :=
  match sym_Change_Date a.2, sym_Change_Date b.2 with
  | Some x, Some y =>
      bool_decide (x < y) || (bool_decide (x = y) && bool_decide (String.leb a.1 b.1))
  | Some _, None => true
  | None, Some _ => false
  | None, None => bool_decide (String.leb a.1 b.1)
  end.

(** The part of [detect_and_apply_renames] that rebuilds [self.symbols] from
    the symbols table and the rename history.  [drop_duplicates] compares the
    columns of the rows, not their index. *)
Definition kept_symbols (symbols : Symbols) : Symbols :=
  filter (λ e : string * SymbolRename,
            sym_Change_Date e.2 = None ∨ sym_Manual e.2 = Some true) symbols.

Definition detect_renames (symbols : Symbols) (history : list Rename) : result Symbols :=
  let renames :=
    (λ r, (Old r, {| sym_Ticker := New r; sym_Change_Date := Change_Date r;
                     sym_Currency := None; sym_Manual := Some false |})) <$> history in
  let kept_symbols := kept_symbols symbols in
  let active_renames :=
    filter (λ e : string * SymbolRename, e.1 ∈ symbols.*1) renames in
  active_renames ←
    mapM (λ e : string * SymbolRename,
            currency ← currency_lookup kept_symbols e.1;
            Returns (e.1, {| sym_Ticker := sym_Ticker e.2;
                             sym_Change_Date := sym_Change_Date e.2;
                             sym_Currency := currency;
                             sym_Manual := sym_Manual e.2 |}))
      active_renames;
  Returns (sort_values by_Change_Date_Symbol
             (keep_first snd (kept_symbols ++ active_renames))).

(** ** The lot-matching engine *)

Module LotMatching.
Import Pairing.

(** Modelled from the spec: the lot-matching engine ([matchmaker/pairing.py],
    [pair_buy_sell]) is missing.  An open lot is a trade reference with its
    remaining quantity (unsigned), its price and its timestamp. *)
Record Lot := {
  lot_trade : Hash;
  remainingQuantity : Q;
  lot_price : Q;
  lot_timestamp : Timestamp
}.

(** Modelled from the spec: the strategy selector, one of fifo, lifo,
    average-cost, max-loss and max-profit. *)
Inductive Strategy := FIFO | LIFO | AverageCost | MaxLoss | MaxProfit.

(** Modelled from the spec: the Close trade being matched.  Its signed
    quantity is negative for a sale that closes a long position and positive
    for a purchase that covers a short one. *)
Record CloseTrade := {
  close_trade : Hash;
  close_quantity : Q;
  close_price : Q;
  close_timestamp : Timestamp
}.

(** Modelled from the spec: a lot can be selected while its remaining
    quantity is positive. *)
Definition is_open (l : Lot) : Prop := (0 < remainingQuantity l)%Q.

(** Modelled from the spec: the tie-break among equal candidates, earliest
    timestamp first, then smaller remaining quantity first. *)
Definition tie_break (a b : Lot) : bool :=
  bool_decide (lot_timestamp a < lot_timestamp b)
  || (bool_decide (lot_timestamp a = lot_timestamp b)
      && bool_decide (remainingQuantity a < remainingQuantity b)%Q).

(** Modelled from the spec: [a] is selected rather than [b].  FIFO takes the
    earliest timestamp, LIFO the latest; max-loss takes the highest-cost lot
    on a sale and the lowest-cost lot on a purchase to cover, max-profit the
    inverse.  Under average cost there is one lot only. *)
Definition preferred (s : Strategy) (c : CloseTrade) (a b : Lot) : bool :=
  let sale := bool_decide (close_quantity c < 0)%Q in
  let dearer := bool_decide (lot_price b < lot_price a)%Q in
  let cheaper := bool_decide (lot_price a < lot_price b)%Q in
  let same_price := bool_decide (lot_price a == lot_price b)%Q in
  match s with
  | FIFO | AverageCost =>
      bool_decide (lot_timestamp a < lot_timestamp b)
      || (bool_decide (lot_timestamp a = lot_timestamp b) && tie_break a b)
  | LIFO =>
      bool_decide (lot_timestamp b < lot_timestamp a)
      || (bool_decide (lot_timestamp a = lot_timestamp b) && tie_break a b)
  | MaxLoss =>
      (if sale then dearer else cheaper) || (same_price && tie_break a b)
  | MaxProfit =>
      (if sale then cheaper else dearer) || (same_price && tie_break a b)
  end.

(** Modelled from the spec: the selected lot among those with a remaining
    quantity, and the other lots. *)
Fixpoint select (better : Lot → Lot → bool) (lots : list Lot) : option (Lot * list Lot) :=
  match lots with
  | [] => None
  | l :: lots' =>
      match select better lots' with
      | None => if decide (is_open l) then Some (l, lots') else None
      | Some (b, rest) =>
          if bool_decide (is_open l) && negb (better b l) then Some (l, lots')
          else Some (b, l :: rest)
      end
  end.

(** Modelled from the spec: the lot with its remaining quantity set. *)
Definition with_remaining (q : Q) (l : Lot) : Lot :=
  {| lot_trade := lot_trade l; remainingQuantity := q;
     lot_price := lot_price l; lot_timestamp := lot_timestamp l |}.

(** Modelled from the spec: the Pair of a match of [m] units between the
    lot and the Close trade. *)
Definition pair_of (c : CloseTrade) (l : Lot) (m : Q) : Pair :=
  let sale := bool_decide (close_quantity c < 0)%Q in
  {| openTradeRef := lot_trade l; closeTradeRef := close_trade c;
     matchedQuantity := m; openPrice := lot_price l; closePrice := close_price c;
     buyTime := if sale then lot_timestamp l else close_timestamp c;
     sellTime := if sale then close_timestamp c else lot_timestamp l |}.

(** Modelled from the spec: while [q] is not exhausted and a lot remains,
    select a lot, match [min(q, lot.remainingQuantity)], decrement both and
    emit one Pair.  Every round but the last exhausts a lot, so as many
    rounds as there are lots are enough; what is left of [q] is the
    uncovered quantity.  The result is the pairs, the lots and the uncovered
    quantity. *)
Fixpoint match_lots (rounds : nat) (better : Lot → Lot → bool) (c : CloseTrade)
    (q : Q) (lots : list Lot) : list Pair * list Lot * Q :=
  match rounds with
  | O => ([], lots, q)
  | S rounds =>
      if decide (0 < q)%Q then
        match select better lots with
        | Some (lot, rest) =>
            let m := Qmin q (remainingQuantity lot) in
            let '(pairs, rest, uncovered) :=
              match_lots rounds better c (q - m)%Q rest in
            (pair_of c lot m :: pairs,
             with_remaining (remainingQuantity lot - m)%Q lot :: rest, uncovered)
        | None => ([], lots, q)
        end
      else ([], lots, q)
  end.

(** Modelled from the spec: the quantity the lots still hold. *)
Definition total_remaining (lots : list Lot) : Q :=
  foldr (λ l s, (remainingQuantity l + s)%Q) 0%Q lots.

(** Modelled from the spec: under average cost all open lots are one
    synthetic lot, with their summed quantity and quantity-weighted mean
    price. *)
Definition average_lot (lots : list Lot) : list Lot :=
  let open := filter is_open lots in
  match open with
  | [] => []
  | first :: _ =>
      [{| lot_trade := lot_trade first;
          remainingQuantity := total_remaining open;
          lot_price :=
            (foldr (λ l s, remainingQuantity l * lot_price l + s) 0 open
             / total_remaining open)%Q;
          lot_timestamp := lot_timestamp first |}]
  end.

(** Modelled from the spec: the working set of open lots under a
    strategy. *)
Definition working_lots (s : Strategy) (lots : list Lot) : list Lot :=
  match s with
  | AverageCost => average_lot lots
  | _ => lots
  end.

(** Modelled from the spec: a Close trade of quantity [q] is matched for
    [abs q]; the result is its Pairs, the lots afterwards and its uncovered
    quantity. *)
Definition match_close (s : Strategy) (c : CloseTrade) (lots : list Lot)
    : list Pair * list Lot * Q :=
  let lots := working_lots s lots in
  match_lots (length lots) (preferred s c) c (Qabs (close_quantity c)) lots.

(** Modelled from the spec: the sum of [matchedQuantity] over the Pairs. *)
Definition sum_matched (pairs : list Pair) : Q :=
  foldr (λ p s, (matchedQuantity p + s)%Q) 0%Q pairs.

(** Three purchases of ten at times 1, 2 and 3, and a sale of fifteen; and a
    sale of forty, more than was bought. *)
Definition three_lots : list Lot :=
  [{| lot_trade := "b1"; remainingQuantity := 10; lot_price := 10; lot_timestamp := 1 |};
   {| lot_trade := "b2"; remainingQuantity := 10; lot_price := 20; lot_timestamp := 2 |};
   {| lot_trade := "b3"; remainingQuantity := 10; lot_price := 30; lot_timestamp := 3 |}].

Definition sale_of (q : Q) : CloseTrade :=
  {| close_trade := "s1"; close_quantity := - q; close_price := 25;
     close_timestamp := 4 |}.
End LotMatching.

(** ** Sample data *)

(** A trade as [normalize_trades] leaves it: the original quantity and
    price are copies of the imported ones, the derived columns are missing. *)
Definition imported_trade (sym : string) (t : Timestamp) (q p : Q)
    (act : string) (ty acc : option string) : Trade :=
  {| Category := Some "Trades"; Symbol := sym; Currency := "USD";
     Date_Time := t; Year := Some 2024; Quantity := Some q; T_Price := Some p; C_Price := Some p;
     Proceeds := Some (- (q * p))%Q; Comm_Fee := Some 0%Q; Basis := Some (q * p)%Q;
     Realized_PL := Some 0%Q; MTM_PL := Some 0%Q; Action := Some act; Type_ := ty;
     Display_Suffix := ""; Account := acc; Target := None;
     Orig_Quantity := Some q; Orig_T_Price := Some p; Split_Ratio := None;
     Ticker := None; Display_Name := None; Accumulated_Quantity := None;
     Account_Accumulated_Quantity := None; Manual := None |}.

Definition split_action (sym : string) (t : Timestamp) (r : Q) : CorporateAction :=
  {| ca_Symbol := Some sym; ca_Date_Time := t; ca_Action := "Split";
     ca_Ratio := Some r; ca_Target := None; ca_Quantity := None;
     ca_Proceeds := None; ca_Value := None |}.

Definition with_trades (t : Trades) (s : State) : State :=
  {| trades := t; actions := actions s; positions := positions s;
     dividends := dividends s; symbols := symbols s; imports := imports s;
     pairings := pairings s |}.

Definition with_actions (a : list CorporateAction) (s : State) : State :=
  {| trades := trades s; actions := a; positions := positions s;
     dividends := dividends s; symbols := symbols s; imports := imports s;
     pairings := pairings s |}.

Definition with_pairings (p : Pairing.Pairings) (s : State) : State :=
  {| trades := trades s; actions := actions s; positions := positions s;
     dividends := dividends s; symbols := symbols s; imports := imports s;
     pairings := p |}.

(** A ledger after its positions were recomputed: the trade under hash h1
    carries its ticker, its split ratio and its accumulated quantity.  And
    the statement it came from, imported once more: the same hash, the
    derived columns still missing. *)
Definition reconciled (t : Trade) : Trade :=
  set_Accumulated_Quantity (Quantity t)
    (set_Ticker (Some (Symbol t)) (set_Split_Ratio (Some 1%Q) t)).

Definition reconciled_ledger : State :=
  with_trades
    [("h1", reconciled (imported_trade "AAPL" 100 10 150 "Open" (Some "Long") (Some "U1")))]
    reset.

Definition statement_again : State :=
  with_trades
    [("h1", imported_trade "AAPL" 100 10 150 "Open" (Some "Long") (Some "U1"))]
    reset.

(** A statement that lists one fill twice (two rows, one hash) and one
    split. *)
Definition statement_with_repeated_fill : State :=
  with_actions [split_action "AAPL" 200 (1 # 2)]
    (with_trades [("h1", imported_trade "AAPL" 100 10 150 "Open" (Some "Long") (Some "U1"));
                  ("h1", imported_trade "AAPL" 100 10 150 "Open" (Some "Long") (Some "U1"))]
       reset).

Definition statement_with_new_trade : State :=
  with_trades [("h2", imported_trade "MSFT" 300 5 40 "Open" (Some "Long") (Some "U1"))] reset.

Definition sample_pair : Pairing.Pair :=
  {| Pairing.openTradeRef := "h1"; Pairing.closeTradeRef := "h9";
     Pairing.matchedQuantity := 10; Pairing.openPrice := 150;
     Pairing.closePrice := 170; Pairing.buyTime := 100;
     Pairing.sellTime := 400 |}.

(** The ledger an empty state becomes by merging
    [statement_with_repeated_fill], with one pair computed since. *)
Definition ledger_with_repeated_fill : State :=
  with_pairings [sample_pair] statement_with_repeated_fill.

(** Ten AAPL shares bought at 150 at time 100, as imported. *)
Definition aapl_buy : Trade :=
  imported_trade "AAPL" 100 10 150 "Open" (Some "Long") (Some "U1").

(** A statement row whose quantity cell cannot be read as a number. *)
Definition row_with_bad_quantity : RawTrade :=
  {| raw_Symbol := "CEZ"; raw_Currency := "CZK";
     raw_Date_Time := "2023-08-03, 08:44:03";
     raw_Quantity := Text "n/a"; raw_Proceeds := Text "-238500";
     raw_Comm_Fee := Text "-763.2"; raw_Basis := Text "239263.2";
     raw_Realized_PL := Text "0"; raw_MTM_PL := Text "1500";
     raw_T_Price := Text "954"; raw_C_Price := Text "960";
     raw_Display_Suffix := None; raw_Action := None; raw_Code := Some "O"%string;
     raw_Type := None; raw_Account := None; raw_Target := None |}.

Definition ibkr_trade_columns : Columns :=
  {| has_Display_Suffix := true; has_Action := false; has_Code := true;
     has_Type := false |}.

(** Stand-ins for the library parsers on this one row. *)
Definition sample_parse_float (s : string) : option Q :=
  if bool_decide (s = "954"%string) then Some 954%Q else None.

Definition sample_parse_datetime (s : string) : option Z :=
  if bool_decide (s = "2023-08-03, 08:44:03"%string) then Some 1691052243 else None.

(** Sample histories of one instrument on one account: a sale of fifteen
    after a purchase of ten, and a sale of ten after a purchase of ten. *)
Definition with_ticker (tk : string) (t : Trade) : Trade := set_Ticker (Some tk) t.

Definition oversold_history : Trades :=
  [("s1", with_ticker "AAPL" (imported_trade "AAPL" 200 (-15) 170 "Close" (Some "Long") (Some "U1")));
   ("b1", with_ticker "AAPL" (imported_trade "AAPL" 100 10 150 "Open" (Some "Long") (Some "U1")))].

Definition covered_history : Trades :=
  [("s1", with_ticker "AAPL" (imported_trade "AAPL" 200 (-10) 170 "Close" (Some "Long") (Some "U1")));
   ("b1", with_ticker "AAPL" (imported_trade "AAPL" 100 10 150 "Open" (Some "Long") (Some "U1")))].

(** A transfer row. *)
Definition transfer_row (name : string) (q : Q) (ty : string) (acc tgt : string) : Trade :=
  set_Display_Name (Some name)
    {| Category := Some "Trades"%string; Symbol := name; Currency := "USD";
       Date_Time := 100; Year := Some 2024; Quantity := Some q; T_Price := Some 0%Q;
       C_Price := Some 0%Q; Proceeds := Some 0%Q; Comm_Fee := Some 0%Q;
       Basis := Some 0%Q; Realized_PL := Some 0%Q; MTM_PL := Some 0%Q;
       Action := Some "Transfer"%string; Type_ := Some ty; Display_Suffix := "";
       Account := Some acc; Target := Some tgt;
       Orig_Quantity := Some q; Orig_T_Price := Some 0%Q; Split_Ratio := None;
       Ticker := Some name; Display_Name := None; Accumulated_Quantity := None;
       Account_Accumulated_Quantity := None; Manual := None |}.

(** Ten shares leave U1 for U2; only seven arrive. *)
Definition short_transfer : Trades :=
  [("o1", transfer_row "AAPL" (-10) "Out" "U1" "U2");
   ("i1", transfer_row "AAPL" 7 "In" "U2" "U1")].

(** Two raw symbols that the user grouped under the ticker META by hand,
    and a rename history that knows the second of them. *)
Definition manual_entry (symbol ticker : string) : string * SymbolRename :=
  (symbol, {| sym_Ticker := ticker; sym_Change_Date := None;
              sym_Currency := Some "USD"%string; sym_Manual := Some true |}).

Definition grouped_by_hand : Symbols :=
  [manual_entry "FB" "META"; manual_entry "FB.OLD" "META"].

Definition FB_OLD_history : list Rename :=
  [{| Old := "FB.OLD"; New := "FBOLD"; Change_Date := Some 500;
      New_Company_Name := "Facebook (old line)" |}].

(** A symbols table with a manual entry for FB, and a rename history that
    knows FB as well. *)
Definition manual_FB : string * SymbolRename :=
  ("FB"%string, {| sym_Ticker := "META"; sym_Change_Date := None;
                   sym_Currency := Some "USD"%string; sym_Manual := Some true |}).

Definition auto_FB : string * SymbolRename :=
  ("FB"%string, {| sym_Ticker := "FB"; sym_Change_Date := None;
                   sym_Currency := Some "USD"%string; sym_Manual := Some false |}).

Definition FB_history : list Rename :=
  [{| Old := "FB"; New := "META"; Change_Date := Some 500;
      New_Company_Name := "Meta Platforms" |}].

Definition set_symbols (y : Symbols) (s : State) : State :=
  {| trades := trades s; actions := actions s; positions := positions s;
     dividends := dividends s; symbols := y; imports := imports s;
     pairings := pairings s |}.

(** A ledger with one imported (not manual) FB trade at time 100 and the
    symbols table after the rename history was applied. *)
Definition FB_ledger : State :=
  set_symbols
    [("FB"%string, {| sym_Ticker := "META"; sym_Change_Date := Some 500;
                      sym_Currency := Some "USD"%string; sym_Manual := Some false |});
     auto_FB]
    (with_trades
       [("t1"%string, set_Manual (Some false)
                        (imported_trade "FB" 100 3 200 "Open" (Some "Long") (Some "U1")))]
       reset).

(** ** trade.per_account_transfers_with_missing_transactions *)




(** Rows that agree on the group key and on the quantity. *)
Definition same_group {K} (key : Trade → option K) (r r' : Hash * Trade) : Prop :=
  key r.2 = key r'.2 ∧ Quantity r.2 = Quantity r'.2.

(** The row with its two accumulated quantities written. *)
Definition with_accumulated (r : Hash * Trade) (ab : num * num) : Hash * Trade :=
  (r.1, set_Account_Accumulated_Quantity ab.2 (set_Accumulated_Quantity ab.1 r.2)).

(** [r'] is [r] up to the two accumulated quantities. *)
Definition accumulated_of (r r' : Hash * Trade) : Prop :=
  ∃ ab, r' = with_accumulated r ab.

(** ** Merging the statements of a directory

    The loop of [import_trades] in [import_trades.py] and in
    [pages/1_import_trades.py]: [merged = None], then
    [merged = merge_trades(merged, trades)] for every statement. *)
Definition merge_all_statements (statements : list Trades) : option Trades :=
  foldl (λ merged trades, Some (merge_trades merged trades)) None statements.

(** ** ibkr.parse_csv_into_prefixed_lines and
    ibkr.dataframe_from_prefixed_lines *)

(** [line.split(',', 1)[0]]: the line up to its first comma, the whole line
    if it has none. *)
Definition prefix_key (line : string) : string :=
  str (span (λ c, negb (bool_decide (c = ","%char))) (chars line)).1.

(** The argument is the list of the decoded lines of the file. *)
Definition parse_csv_into_prefixed_lines (lines : list string)
    : gmap string (list string) :=
  foldl (λ prefix_dict line,
           let key := prefix_key line in
           let prefix_dict :=
             if decide (is_Some (prefix_dict !! key)) then prefix_dict
             else <[key := []]> prefix_dict in
           alter (λ ls, ls ++ [line]) key prefix_dict)
    ∅ lines.

Section PrefixedLines.
(** Library code: [pd.DataFrame()] and [pd.read_csv] on a text; [F] is what
    the call gives, a frame or an exception. *)
Context {F : Type} (empty_frame : F) (read_csv : string → F).

Definition dataframe_from_prefixed_lines (line_dict : gmap string (list string))
    (prefix : string) : F :=
  match line_dict !! prefix with
  | None => empty_frame
  | Some lines => read_csv (String.concat "" lines)
  end.
End PrefixedLines.

(** ** Descriptions of splits *)

(** The description IBKR gives a split of [sym] (security id [id]) into [n]
    for [m], followed by [rest]. *)
Definition split_text (sym id n m rest : string) : string :=
  sym +:+ "(" +:+ id +:+ ") Split " +:+ n +:+ " for " +:+ m +:+ rest.

(** ** State.detect_and_apply_renames *)

(** The whole method, the rename history [renames.csv] being given.  After
    the renames are applied it calls
    [trade.compute_accumulated_positions(self.trades)]: one argument for a
    function of two positional parameters, which raises TypeError. *)
Definition detect_and_apply_renames (s : State) (history : list Rename)
    : result State :=
  symbols' ← detect_renames (symbols s) history;
  let s := set_symbols symbols' s in
  if decide (0 < length history)%nat then
    _ ← apply_renames s;
    Raises TypeError
  else Returns s.

(** A ledger whose one imported trade has no entry in the symbols table. *)
Definition FB_ledger_without_symbols : State := set_symbols [] FB_ledger.

(** The symbols table [detect_renames] makes of [grouped_by_hand] and
    [FB_OLD_history]: the manual entry of FB.OLD is gone. *)
Definition grouped_by_hand_detected : Symbols :=
  [("FB.OLD"%string,
    {| sym_Ticker := "FBOLD"; sym_Change_Date := Some 500;
       sym_Currency := Some "USD"%string; sym_Manual := Some false |});
   manual_entry "FB" "META"].

(** The rename of FB to META in [FB_ledger]. *)
Definition renamed_FB : string * SymbolRename :=
  ("FB"%string, {| sym_Ticker := "META"; sym_Change_Date := Some 500;
                   sym_Currency := Some "USD"%string; sym_Manual := Some false |}).

(** ** ibkr.convert_option_names *)

(** The columns of the trades frame that [convert_option_names] reads and
    writes. *)
Record OptionRow := {
  opt_Symbol : string;
  Option_Name : option string;
  Expiration : option string;
  Strike : option string;
  Option_Type : option string;
  opt_Display_Suffix : option string
}.

(** [str.split(sep)]: the pieces between the separators; a text without
    separator is one piece. *)
Fixpoint split_on (sep : ascii) (l : list ascii) : list (list ascii) :=
  match l with
  | [] => [[]]
  | c :: l' =>
      if bool_decide (c = sep) then [] :: split_on sep l'
      else match split_on sep l' with
           | p :: ps => (c :: p) :: ps
           | [] => [[c]]
           end
  end.

(** [.map({'P': 'Put', 'C': 'Call'})] *)
Definition put_or_call (s : string) : option string :=
  if bool_decide (s = "P"%string) then Some "Put"%string
  else if bool_decide (s = "C"%string) then Some "Call"%string
  else None.

(** [str.split(' ')] of the symbol of a row: one row of [option_parts]. *)
Definition option_parts_of (row : OptionRow) : list string :=
  str <$> split_on " "%char (chars (opt_Symbol row)).

(** What the assignments make of an option row.  A piece the row does not
    have is a missing cell, and so is a text joined from a missing cell. *)
Definition convert_option_row (row : OptionRow) : OptionRow :=
  let parts := option_parts_of row in
  let option_type := parts !! 3%nat ≫= put_or_call in
  {| opt_Symbol := default ""%string (parts !! 0%nat);
     Option_Name := Some (opt_Symbol row);
     Expiration := parts !! 1%nat;
     Strike := parts !! 2%nat;
     Option_Type := option_type;
     opt_Display_Suffix :=
       e ← parts !! 1%nat; s ← parts !! 2%nat; t ← option_type;
       Some (" " +:+ e +:+ " " +:+ s +:+ " " +:+ t) |}.

(** [option_name_column] is ['Option Name' in df.columns].  The frame
    [option_parts] has as many columns as the longest split has pieces, and
    [option_parts[3]] raises KeyError when these are fewer than four. *)
Definition convert_option_names (option_name_column : bool) (df : list OptionRow)
    : result (list OptionRow) :=
  if negb option_name_column then Returns df
  else
    let option_rows := filter (λ row, is_Some (Option_Name row)) df in
    match option_rows with
    | [] => Returns df
    | _ =>
        if decide (max_list (length ∘ option_parts_of <$> option_rows) < 4)%nat
        then Raises KeyError
        else Returns ((λ row, if decide (is_Some (Option_Name row))
                              then convert_option_row row else row) <$> df)
    end.

(** An option on CELH as IBKR names it, and a stock. *)
Definition celh_put : OptionRow :=
  {| opt_Symbol := "CELH 20SEP24 40 P"; Option_Name := Some "CELH 20SEP24 40 P"%string;
     Expiration := None; Strike := None; Option_Type := None;
     opt_Display_Suffix := Some ""%string |}.

Definition celh_stock : OptionRow :=
  {| opt_Symbol := "CELH"; Option_Name := None;
     Expiration := None; Strike := None; Option_Type := None;
     opt_Display_Suffix := Some ""%string |}.

(** A frame with neither an Action nor a Code column. *)
Definition no_action_columns : Columns :=
  {| has_Display_Suffix := false; has_Action := false; has_Code := false;
     has_Type := false |}.

(** * Properties *)

(** ** Facts about duplicates *)

Lemma filter_ext_elem {A} (P1 P2 : A → Prop)
    `{!∀ x, Decision (P1 x)} `{!∀ x, Decision (P2 x)} (l : list A) :
  (∀ x, x ∈ l → P1 x ↔ P2 x) → filter P1 l = filter P2 l.
Proof.
  induction l as [|y l IH]; intros HP; [done|].
  rewrite !filter_cons.
  destruct (decide (P1 y)) as [H1|H1], (decide (P2 y)) as [H2|H2].
  - f_equal. apply IH. intros; apply HP. by right.
  - exfalso. apply H2, HP; [by left | done].
  - exfalso. apply H1, HP; [by left | done].
  - apply IH. intros; apply HP. by right.
Qed.

Lemma filter_all {A} (P : A → Prop) `{!∀ x, Decision (P x)} (l : list A) :
  (∀ x, x ∈ l → P x) → filter P l = l.
Proof.
  induction l as [|y l IH]; intros HP; [done|].
  rewrite filter_cons_True; [|apply HP; by left].
  f_equal. apply IH. intros; apply HP. by right.
Qed.

Section DuplicatedFacts.
Context {A K : Type} `{EqDecision K} (key : A → K).

Lemma drop_duplicated_ext s1 s2 l :
  (∀ k, k ∈ s1 ↔ k ∈ s2) → drop_duplicated key s1 l = drop_duplicated key s2 l.
Proof.
  revert s1 s2. induction l as [|x l IH]; intros s1 s2 Hs; simpl; [done|].
  destruct (decide (key x ∈ s1)) as [H1|H1], (decide (key x ∈ s2)) as [H2|H2].
  - by apply IH.
  - by apply Hs in H1.
  - by apply Hs in H2.
  - f_equal. apply IH. intros k. rewrite !elem_of_cons. naive_solver.
Qed.

Lemma drop_duplicated_app s l1 l2 :
  drop_duplicated key s (l1 ++ l2) =
  drop_duplicated key s l1 ++ drop_duplicated key ((key <$> l1) ++ s) l2.
Proof.
  revert s. induction l1 as [|x l1 IH]; intros s; simpl; [done|].
  destruct (decide (key x ∈ s)) as [Hx|Hx].
  - rewrite IH. f_equal. apply drop_duplicated_ext. intros k.
    rewrite elem_of_cons, !elem_of_app. naive_solver.
  - simpl. rewrite IH. do 2 f_equal. apply drop_duplicated_ext. intros k.
    rewrite !elem_of_cons, !elem_of_app, elem_of_cons. naive_solver.
Qed.

Lemma drop_duplicated_elem s l x :
  x ∈ drop_duplicated key s l → x ∈ l ∧ key x ∉ s.
Proof.
  revert s. induction l as [|y l IH]; intros s; simpl; [by intros ?%elem_of_nil|].
  destruct (decide (key y ∈ s)) as [Hy|Hy].
  - intros [??]%IH. split; [by right | done].
  - intros [->|Hx]%elem_of_cons; [split; [by left | done]|].
    apply IH in Hx as [? Hn]. split; [by right|].
    intros ?. apply Hn. by right.
Qed.

Lemma drop_duplicated_covers s l x :
  x ∈ l → key x ∈ s ∨ key x ∈ key <$> drop_duplicated key s l.
Proof.
  revert s. induction l as [|y l IH]; intros s; [by intros ?%elem_of_nil|].
  simpl. intros [->|Hx]%elem_of_cons.
  - destruct (decide (key y ∈ s)); [by left|]. right. simpl. by left.
  - destruct (decide (key y ∈ s)); [by apply IH|].
    destruct (IH (key y :: s) Hx) as [[->|?]%elem_of_cons|?].
    + right. simpl. by left.
    + by left.
    + right. simpl. by right.
Qed.

Lemma drop_duplicated_NoDup s l : NoDup (key <$> drop_duplicated key s l).
Proof.
  revert s. induction l as [|y l IH]; intros s; simpl; [constructor|].
  destruct (decide (key y ∈ s)); [done|]. simpl. constructor; [|done].
  intros (x & Hk & Hx)%list_elem_of_fmap.
  apply drop_duplicated_elem in Hx as [_ Hn]. apply Hn. rewrite <- Hk. by left.
Qed.

Lemma drop_duplicated_filter s l :
  NoDup (key <$> l) →
  drop_duplicated key s l = filter (λ x, key x ∉ s) l.
Proof.
  revert s. induction l as [|y l IH]; intros s Hnd; simpl; [done|].
  apply NoDup_cons in Hnd as [Hy Hnd].
  destruct (decide (key y ∈ s)) as [Hs|Hs].
  - rewrite filter_cons_False by naive_solver. by apply IH.
  - rewrite filter_cons_True by done. f_equal. rewrite IH by done.
    apply filter_ext_elem. intros x Hx. rewrite elem_of_cons.
    assert (key x ≠ key y); [|naive_solver].
    intros Heq. apply Hy. rewrite <- Heq. by apply list_elem_of_fmap_2.
Qed.

Lemma drop_duplicated_id s l :
  NoDup (key <$> l) → (∀ x, x ∈ l → key x ∉ s) → drop_duplicated key s l = l.
Proof.
  intros Hnd Hs. rewrite drop_duplicated_filter by done.
  induction l as [|y l IH]; [done|].
  rewrite filter_cons_True by (apply Hs; by left). f_equal.
  apply IH; [by apply NoDup_cons in Hnd as [??]|]. intros; apply Hs. by right.
Qed.

Lemma drop_duplicated_seen s l :
  (∀ x, x ∈ l → key x ∈ s) → drop_duplicated key s l = [].
Proof.
  induction l as [|y l IH]; intros Hs; simpl; [done|].
  rewrite decide_True by (apply Hs; by left). apply IH. intros; apply Hs. by right.
Qed.

Lemma length_drop_duplicated s l : (length (drop_duplicated key s l) ≤ length l)%nat.
Proof.
  revert s. induction l as [|x l IH]; intros s; simpl; [lia|].
  destruct (decide (key x ∈ s)); simpl.
  - specialize (IH s). lia.
  - specialize (IH (key x :: s)). lia.
Qed.

Lemma keep_first_nil_inv l : keep_first key l = [] → l = [].
Proof.
  destruct l as [|x l]; [done|]. unfold keep_first. simpl.
  by destruct (decide (key x ∈ [])) as [?%elem_of_nil|].
Qed.

Lemma keep_first_id l : NoDup (key <$> l) → keep_first key l = l.
Proof. intros. apply drop_duplicated_id; [done|]. intros ? _. apply not_elem_of_nil. Qed.

(** Putting [b] in front of a frame that already absorbed [b] changes
    nothing. *)
Lemma keep_first_absorb_front b a :
  keep_first key (b ++ keep_first key (b ++ a)) = keep_first key (b ++ a).
Proof.
  unfold keep_first. rewrite (drop_duplicated_app [] b a).
  rewrite (drop_duplicated_app [] b (_ ++ _)), !app_nil_r.
  f_equal. rewrite drop_duplicated_app.
  rewrite (drop_duplicated_seen _ (drop_duplicated key [] b)); simpl.
  - apply drop_duplicated_id; [apply drop_duplicated_NoDup|].
    intros x [Hx Hn]%drop_duplicated_elem.
    rewrite elem_of_app.
    intros [(y & Hk & [Hy _]%drop_duplicated_elem)%list_elem_of_fmap|?]; [|done].
    apply Hn. rewrite Hk. by apply list_elem_of_fmap_2.
  - intros x [Hx _]%drop_duplicated_elem. by apply list_elem_of_fmap_2.
Qed.

(** Appending [b] to a frame that already absorbed [b] changes nothing. *)
Lemma keep_first_absorb_back a b :
  keep_first key (keep_first key (a ++ b) ++ b) = keep_first key (a ++ b).
Proof.
  unfold keep_first at 1. rewrite drop_duplicated_app, app_nil_r.
  rewrite (drop_duplicated_seen _ b).
  - rewrite app_nil_r. apply drop_duplicated_id; [apply drop_duplicated_NoDup|].
    intros ? _. apply not_elem_of_nil.
  - intros x Hx.
    destruct (drop_duplicated_covers [] (a ++ b) x) as [?%elem_of_nil|?]; [|done|done].
    apply elem_of_app. by right.
Qed.
End DuplicatedFacts.

(** ** Merging ledgers *)

Lemma foldr_min_le (l : list Z) (y x : Z) : x ∈ y :: l → foldr Z.min y l ≤ x.
Proof.
  induction l as [|z l IH]; simpl.
  - intros ->%list_elem_of_singleton. lia.
  - rewrite !elem_of_cons. intros [->|[->|Hx]].
    + assert (foldr Z.min y l ≤ y) by (apply IH; by left). lia.
    + lia.
    + assert (foldr Z.min y l ≤ x) by (apply IH; by right). lia.
Qed.

Lemma min_timestamp_le l m x : min_timestamp l = Some m → x ∈ l → m ≤ x.
Proof.
  destruct l as [|y l]; [done|]. simpl. intros [= <-]. apply foldr_min_le.
Qed.

Lemma merge_trades_nonempty (b a : Trades) :
  a ≠ [] → merge_trades (Some b) a = drop_duplicated_index (b ++ a).
Proof.
  intros Ha. unfold merge_trades. destruct a; [done|]. by rewrite decide_False.
Qed.

Lemma drop_duplicated_index_nonempty (t : Trades) :
  t ≠ [] → drop_duplicated_index t ≠ [].
Proof. intros Ht Hd. by apply keep_first_nil_inv in Hd. Qed.

(** Merging [b] a second time leaves the trades as they are, unless the
    ledger was empty and [b] repeats a hash. *)
Lemma merge_trades_again (a b : Trades) :
  a ≠ [] ∨ NoDup b.*1 →
  merge_trades (Some b) (merge_trades (Some b) a) = merge_trades (Some b) a.
Proof.
  intros H. destruct (decide (a = [])) as [->|Ha].
  - destruct H as [?|Hb]; [done|].
    change (merge_trades (Some b) []) with b.
    destruct (decide (b = [])) as [->|Hne]; [done|].
    rewrite merge_trades_nonempty by done.
    unfold drop_duplicated_index, keep_first.
    rewrite drop_duplicated_app, app_nil_r.
    rewrite (drop_duplicated_seen fst (b.*1) b).
    + rewrite app_nil_r.
      by apply drop_duplicated_id; [|intros ? _; apply not_elem_of_nil].
    + intros. by apply list_elem_of_fmap_2.
  - rewrite (merge_trades_nonempty b a) by done.
    rewrite merge_trades_nonempty.
    + apply keep_first_absorb_front.
    + apply drop_duplicated_index_nonempty. by destruct b, a.
Qed.

Lemma length_filter_complement {A} (P : A → Prop) `{!∀ x, Decision (P x)} (l : list A) :
  (length (filter P l) + length (filter (λ x, ¬ P x) l))%nat = length l.
Proof. rewrite <- length_app. apply Permutation_length, filter_app_complement. Qed.

Lemma filter_fmap_key {A K} (key : A → K) (P : K → Prop) `{!∀ k, Decision (P k)}
    (l : list A) :
  key <$> filter (λ x, P (key x)) l = filter P (key <$> l).
Proof.
  induction l as [|x l IH]; [done|]. rewrite fmap_cons, !filter_cons.
  destruct (decide (P (key x))); [rewrite fmap_cons; f_equal|]; apply IH.
Qed.

(** Two frames with unique keys share as many rows one way as the other. *)
Lemma common_keys_length {A K} `{EqDecision K} (key : A → K) (a b : list A) :
  NoDup (key <$> a) → NoDup (key <$> b) →
  length (filter (λ x, key x ∈ key <$> b) a) =
  length (filter (λ y, key y ∈ key <$> a) b).
Proof.
  intros Ha Hb.
  trans (length (filter (λ k, k ∈ key <$> b) (key <$> a))).
  { rewrite <- (filter_fmap_key key (λ k, k ∈ key <$> b)). by rewrite length_fmap. }
  trans (length (filter (λ k, k ∈ key <$> a) (key <$> b))).
  { apply Permutation_length, NoDup_Permutation; [by apply NoDup_filter..|].
    intros k. rewrite !list_elem_of_filter. naive_solver. }
  rewrite <- (filter_fmap_key key (λ k, k ∈ key <$> a)). by rewrite length_fmap.
Qed.

Lemma merge_trades_growth (a b : Trades) :
  NoDup a.*1 → NoDup b.*1 →
  Z.of_nat (length (merge_trades (Some b) a)) - Z.of_nat (length a) =
  Z.of_nat (length (filter (λ e, e.1 ∉ a.*1) b)).
Proof.
  intros Ha Hb. unfold merge_trades. destruct (decide (length a = 0%nat)) as [Hl|Hl].
  - destruct a; [|done]. simpl.
    rewrite filter_all; [lia|]. intros ? _. apply not_elem_of_nil.
  - unfold drop_duplicated_index, keep_first.
    rewrite drop_duplicated_app, app_nil_r.
    rewrite (drop_duplicated_id _ _ b) by (done || intros ? _; apply not_elem_of_nil).
    rewrite (drop_duplicated_filter _ _ a) by done.
    rewrite length_app.
    pose proof (length_filter_complement (λ e : Hash * Trade, e.1 ∈ b.*1) a) as H1.
    pose proof (length_filter_complement (λ e : Hash * Trade, e.1 ∈ a.*1) b) as H2.
    pose proof (common_keys_length fst a b Ha Hb) as H3.
    lia.
Qed.

Lemma merge_trades_positive_count (a b : Trades) :
  Z.of_nat (length (merge_trades (Some b) a)) - Z.of_nat (length a) > 0 → b ≠ [].
Proof.
  intros Hc ->. unfold merge_trades in Hc.
  destruct (decide (length a = 0%nat)) as [Hl|Hl]; simpl in Hc; [lia|].
  unfold drop_duplicated_index, keep_first in Hc.
  pose proof (length_drop_duplicated fst [] a). lia.
Qed.

Lemma merge_with_trades dated A B d :
  trades (merge_with dated A B d).1 = merge_trades (Some (trades B)) (trades A).
Proof. done. Qed.

Lemma merge_with_count dated A B d :
  (merge_with dated A B d).2 =
  Z.of_nat (length (merge_trades (Some (trades B)) (trades A))) - Z.of_nat (length (trades A)).
Proof. done. Qed.

Lemma merge_with_pairings dated A B d :
  pairings (merge_with dated A B d).1 =
  if bool_decide ((merge_with dated A B d).2 > 0) && d
  then Pairing.invalidate_pairs dated
         (min_timestamp (Date_Time ∘ snd <$> trades B)) (pairings A)
  else if negb d then pairings B else pairings A.
Proof. done. Qed.

Lemma merge_with_pairings_zero dated A B d :
  (merge_with dated A B d).2 = 0 →
  pairings (merge_with dated A B d).1 = if d then pairings A else pairings B.
Proof. intros H. rewrite merge_with_pairings, H. by destruct d. Qed.

Lemma merge_with_pairings_taken dated A B :
  pairings (merge_with dated A B false).1 = pairings B.
Proof. rewrite merge_with_pairings. by rewrite andb_false_r. Qed.

(** What a second merge of the same ledger [B] does.  It leaves the
    imports, the positions and the dividends of the merged ledger as they
    are and appends [B]'s symbols once more.  If the first ledger had a trade
    or [B] has no repeated hash, it also leaves the trades and the pairings
    as they are and reports an imported count of 0; if moreover [B] has no
    corporate actions and no symbols, the whole state is unchanged. *)
Theorem merge_with_twice dated (A B : State) (d : bool) :
  let S1 := (merge_with dated A B d).1 in
  let S2 := (merge_with dated S1 B d).1 in
  let c2 := (merge_with dated S1 B d).2 in
  imports S2 = imports S1 ∧
  positions S2 = positions S1 ∧
  dividends S2 = dividends S1 ∧
  symbols S2 = symbols S1 ++ symbols B ∧
  (trades A ≠ [] ∨ NoDup (trades B).*1 →
     trades S2 = trades S1 ∧ c2 = 0 ∧ pairings S2 = pairings S1 ∧
     (actions B = [] → symbols B = [] → S2 = S1)).
Proof.
  intros S1 S2 c2.
  assert (Hi : imports S2 = imports S1) by apply keep_first_absorb_back.
  assert (Hp : positions S2 = positions S1) by apply keep_first_absorb_front.
  assert (Hd : dividends S2 = dividends S1) by apply keep_first_absorb_back.
  do 4 (split; [done|]). intros H.
  assert (Ht : trades S2 = trades S1).
  { unfold S2. rewrite merge_with_trades. unfold S1. rewrite merge_with_trades.
    by apply merge_trades_again. }
  assert (Hc : c2 = 0).
  { unfold c2. rewrite merge_with_count. fold (trades S2) in Ht.
    unfold S2 in Ht. rewrite merge_with_trades in Ht. rewrite Ht. lia. }
  assert (Hq : pairings S2 = pairings S1).
  { unfold S2. rewrite merge_with_pairings_zero by done.
    destruct d; [done|]. unfold S1. by rewrite merge_with_pairings_taken. }
  do 3 (split; [done|]). intros Ha Hs.
  assert (Hact : actions S2 = actions S1).
  { unfold S2, merge_with. cbn [fst actions]. rewrite Ha. done. }
  assert (Hsym : symbols S2 = symbols S1).
  { unfold S2, merge_with. cbn [fst symbols]. rewrite Hs. by rewrite app_nil_r. }
  destruct S1, S2. simpl in *. by subst.
Qed.

Lemma merge_with_twice_witness :
  let S1 := (merge_with Pairing.sellTime reconciled_ledger statement_with_new_trade true).1 in
  let r := merge_with Pairing.sellTime S1 statement_with_new_trade true in
  r.1 = S1 ∧ r.2 = 0.
Proof.
  intros S1 r.
  destruct (merge_with_twice Pairing.sellTime reconciled_ledger statement_with_new_trade true)
    as (_ & _ & _ & _ & H).
  destruct H as (_ & Hc & _ & Hs).
  - left. discriminate.
  - split; [by apply Hs | exact Hc].
Defined.

(** C1.  Merging is not idempotent.  Into an empty ledger, a statement that
    lists one fill twice and holds one split is merged, and then merged
    again.  The second merge does not leave the merged ledger as it is and
    does not report 0: of the two trade rows of the merged ledger it keeps
    one, it reports an imported count of -1, and the one split is in the
    actions twice. *)
Lemma merge_with_not_idempotent :
  let S1 := (merge_with Pairing.sellTime reset statement_with_repeated_fill true).1 in
  let r := merge_with Pairing.sellTime S1 statement_with_repeated_fill true in
  r ≠ (S1, 0) ∧
  length (trades S1) = 2%nat ∧ length (trades r.1) = 1%nat ∧ r.2 = -1 ∧
  length (actions S1) = 1%nat ∧ length (actions r.1) = 2%nat.
Proof. split; [|done]. intros H. by apply (f_equal snd) in H. Qed.

Lemma NoDup_fst_agree {K V} (l : list (K * V)) k v1 v2 :
  NoDup l.*1 → (k, v1) ∈ l → (k, v2) ∈ l → v1 = v2.
Proof.
  induction l as [|[k' v'] l IH]; [by intros _ ?%elem_of_nil|].
  rewrite fmap_cons. intros [Hk Hnd]%NoDup_cons. simpl in Hk.
  rewrite !elem_of_cons.
  intros [H1|H1] [H2|H2].
  - congruence.
  - exfalso. apply Hk. injection H1 as <- _.
    by apply (list_elem_of_fmap_2 fst _ (k, v2)).
  - exfalso. apply Hk. injection H2 as <- _.
    by apply (list_elem_of_fmap_2 fst _ (k, v1)).
  - by apply IH.
Qed.

(** On a hash that both ledgers hold, the merged ledger has the copy of the
    ledger that is merged in, and only that one. *)
Lemma merge_with_collision dated (A B : State) d h ta tb :
  (h, ta) ∈ trades A → (h, tb) ∈ trades B → NoDup (trades B).*1 →
  (h, tb) ∈ trades (merge_with dated A B d).1 ∧
  ∀ t, (h, t) ∈ trades (merge_with dated A B d).1 → t = tb.
Proof.
  intros Ha Hb Hnd. rewrite merge_with_trades.
  rewrite merge_trades_nonempty by (intros Hn; rewrite Hn in Ha; by apply elem_of_nil in Ha).
  unfold drop_duplicated_index, keep_first.
  rewrite drop_duplicated_app, app_nil_r.
  rewrite (drop_duplicated_id fst [] (trades B)) by (done || intros ? _; apply not_elem_of_nil).
  split; [apply elem_of_app; by left|].
  intros t [Ht|Ht]%elem_of_app.
  - by eapply NoDup_fst_agree.
  - apply drop_duplicated_elem in Ht as [_ Hn]. exfalso. apply Hn.
    by apply (list_elem_of_fmap_2 fst _ (h, tb)).
Qed.

(** C2.  The ledger holds hash h1 with its derived columns filled in;
    merging the statement that holds the same hash as imported leaves the
    merged ledger with the statement's copy: the existing entry is
    overwritten, its ticker is gone. *)
Theorem merge_with_collision_overwrites :
  let r := merge_with Pairing.sellTime reconciled_ledger statement_again true in
  trades r.1 = trades statement_again ∧
  trades r.1 ≠ trades reconciled_ledger ∧
  Ticker ∘ snd <$> trades reconciled_ledger = [Some "AAPL"%string] ∧
  Ticker ∘ snd <$> trades r.1 = [None] ∧
  r.2 = 0.
Proof. done. Qed.

(** The imported count is the growth of the trades frame.
    When no hash is repeated within either ledger it is the number of trades
    of [B] whose hash [A] does not hold.  When it is positive and pairings
    are to be dropped, [B] has trades, the pairings become those that
    [invalidate_pairs] leaves at the earliest timestamp of [B]: pairs are
    only removed, never changed, and no pair dated at or after the timestamp
    of a newly added trade remains. *)
Theorem merge_with_imported_count dated (A B : State) (d : bool) :
  let S' := (merge_with dated A B d).1 in
  let c := (merge_with dated A B d).2 in
  c = Z.of_nat (length (trades S')) - Z.of_nat (length (trades A)) ∧
  (NoDup (trades A).*1 → NoDup (trades B).*1 →
     c = Z.of_nat (length (filter (λ e, e.1 ∉ (trades A).*1) (trades B)))) ∧
  (c > 0 → d = true →
     (∃ ts, min_timestamp (Date_Time ∘ snd <$> trades B) = Some ts ∧
            pairings S' = filter (λ p, dated p < ts) (pairings A)) ∧
     (∀ p, p ∈ pairings S' → p ∈ pairings A) ∧
     (∀ p h t, (h, t) ∈ trades B → h ∉ (trades A).*1 →
               Date_Time t ≤ dated p → p ∉ pairings S')).
Proof.
  intros S' c. split; [done|]. split.
  - intros Ha Hb. unfold c. rewrite merge_with_count. by apply merge_trades_growth.
  - intros Hc ->.
    assert (Hne : trades B ≠ []).
    { eapply merge_trades_positive_count. unfold c in Hc.
      rewrite merge_with_count in Hc. exact Hc. }
    destruct (min_timestamp (Date_Time ∘ snd <$> trades B)) as [ts|] eqn:Hmin;
      [|by destruct (trades B)].
    assert (Hp : pairings S' = filter (λ p, dated p < ts) (pairings A)).
    { unfold S'. rewrite merge_with_pairings. fold c.
      rewrite bool_decide_true by done. simpl. by rewrite Hmin. }
    split; [by exists ts|]. rewrite Hp. split.
    + by intros p [_ ?]%list_elem_of_filter.
    + intros p h t Ht _ Hle [Hlt _]%list_elem_of_filter.
      assert (ts ≤ Date_Time t); [|lia].
      eapply min_timestamp_le; [done|].
      by apply (list_elem_of_fmap_2 (Date_Time ∘ snd) _ (h, t)).
Qed.

Lemma merge_with_imported_count_witness :
  let r := merge_with Pairing.sellTime (with_pairings [sample_pair] reconciled_ledger)
             statement_with_new_trade true in
  r.2 = 1 ∧ sample_pair ∉ pairings r.1.
Proof.
  intros r.
  destruct (merge_with_imported_count Pairing.sellTime
              (with_pairings [sample_pair] reconciled_ledger) statement_with_new_trade true)
    as (_ & Hc & Hp).
  assert (Hr : r.2 = 1).
  { unfold r. rewrite Hc; [done| |]; simpl; apply NoDup_singleton. }
  split; [done|].
  destruct Hp as (_ & _ & Hp); [unfold r in Hr; rewrite Hr; lia|done|].
  eapply (Hp sample_pair "h2"%string); [by left| |].
  - simpl. rewrite list_elem_of_singleton. discriminate.
  - simpl. lia.
Defined.

(** C8.  The imported count is not the number of new trade hashes, and
    pairs dated after a new trade can stay.  The ledger, an empty state into
    which a statement with a repeated fill was merged, holds one hash in two
    rows; a statement with one trade of another hash is merged in.  The
    frame has two rows before and two after: the imported count is 0
    although one hash of the statement is not in the ledger, and the pair
    dated after the new trade is still there. *)
Lemma imported_count_misses_new_hash :
  let r := merge_with Pairing.sellTime ledger_with_repeated_fill
             statement_with_new_trade true in
  with_pairings [sample_pair]
    (merge_with Pairing.sellTime reset statement_with_repeated_fill true).1 =
    ledger_with_repeated_fill ∧
  r.2 = 0 ∧
  length (filter (λ e, e.1 ∉ (trades ledger_with_repeated_fill).*1)
            (trades statement_with_new_trade)) = 1%nat ∧
  pairings r.1 = [sample_pair].
Proof. done. Qed.

(** ** Sorting *)

Section SortValuesFacts.
Context {A : Type} (le : A → A → bool).

Lemma sort_insert_Permutation x l : sort_insert le x l ≡ₚ x :: l.
Proof.
  induction l as [|y l IH]; simpl; [done|].
  destruct (le x y); [done|]. rewrite IH. apply Permutation_swap.
Qed.

Lemma sort_values_Permutation l : sort_values le l ≡ₚ l.
Proof.
  induction l as [|x l IH]; simpl; [done|].
  by rewrite sort_insert_Permutation, IH.
Qed.

Hypothesis le_total : ∀ x y, le x y = false → le y x = true.
Hypothesis le_trans : ∀ x y z, le x y = true → le y z = true → le x z = true.

Lemma sort_insert_sorted x l :
  StronglySorted (λ a b, le a b = true) l →
  StronglySorted (λ a b, le a b = true) (sort_insert le x l).
Proof using le_total le_trans.
  induction l as [|y l IH]; simpl; intros Hs.
  - repeat constructor.
  - apply StronglySorted_inv in Hs as [Hs Hy].
    destruct (le x y) eqn:Hxy.
    + constructor; [by constructor|]. constructor; [done|].
      eapply Forall_impl; [exact Hy|]. intros z ?. by eapply le_trans.
    + constructor; [by apply IH|].
      rewrite sort_insert_Permutation. constructor; [by apply le_total|done].
Qed.

Lemma sort_values_sorted l : StronglySorted (λ a b, le a b = true) (sort_values le l).
Proof using le_total le_trans.
  induction l as [|x l IH]; simpl; [constructor|]. by apply sort_insert_sorted.
Qed.

Hypothesis le_refl : ∀ x, le x x = true.

(** The first row of the sorted frame is a row of the frame and is not
    above any other. *)
Lemma sort_values_head l h r :
  sort_values le l = h :: r → h ∈ l ∧ ∀ y, y ∈ l → le h y = true.
Proof using le_total le_trans le_refl.
  intros Hs. pose proof (sort_values_sorted l) as Hsorted.
  pose proof (sort_values_Permutation l) as Hperm. rewrite Hs in Hsorted, Hperm.
  split; [rewrite <- Hperm; by left|].
  intros y Hy. rewrite <- Hperm in Hy.
  apply StronglySorted_inv in Hsorted as [_ Hall].
  apply elem_of_cons in Hy as [->|Hy]; [apply le_refl|].
  by eapply Forall_forall in Hall.
Qed.

Lemma sort_values_nil_inv l : sort_values le l = [] → l = [].
Proof. intros Hs. apply Permutation_nil_r. by rewrite <- Hs, sort_values_Permutation. Qed.
End SortValuesFacts.

(** ** Split adjustment *)

Lemma assign_assign f g (t : Trades) : assign f (assign g t) = assign (f ∘ g) t.
Proof. unfold assign. rewrite <- list_fmap_compose. apply list_fmap_ext. by intros ? [??]. Qed.

Lemma assign_ext f g (t : Trades) :
  (∀ h row, (h, row) ∈ t → f row = g row) → assign f t = assign g t.
Proof.
  intros H. unfold assign. apply list_fmap_ext. intros i [h row] Hi. simpl.
  f_equal. eapply H. by eapply list_elem_of_lookup_2.
Qed.

Lemma assign_lookup f (t : Trades) i h row :
  t !! i = Some (h, row) → assign f t !! i = Some (h, f row).
Proof. intros H. unfold assign. by rewrite list_lookup_fmap, H. Qed.

(** The group-wise running product, restricted to one symbol, is the running
    product of that symbol's rows. *)
Lemma groupby_cumprod_symbol (s : string) (acc : gmap string Q) (l : list CorporateAction) :
  filter (λ ac : CorporateAction * num, ca_Symbol ac.1 = Some s)
    (zip l (groupby_cumprod acc l)) =
  zip (filter (λ a, ca_Symbol a = Some s) l)
    (running_product (acc !! s) (ca_Ratio <$> filter (λ a, ca_Symbol a = Some s) l)).
Proof.
  revert acc. induction l as [|a l IH]; intros acc; [done|]. simpl.
  destruct (ca_Symbol a) as [s'|] eqn:Hs, (ca_Ratio a) as [r|] eqn:Hr; simpl.
  - destruct (decide (s' = s)) as [->|Hne].
    + rewrite filter_cons_True by done. rewrite (filter_cons_True _ a) by done.
      rewrite fmap_cons, Hr. simpl. f_equal.
      rewrite IH, lookup_insert_eq. done.
    + rewrite filter_cons_False by (simpl; congruence).
      rewrite (filter_cons_False _ a) by congruence.
      rewrite IH, lookup_insert_ne; done.
  - destruct (decide (s' = s)) as [->|Hne].
    + rewrite filter_cons_True by done. rewrite (filter_cons_True _ a) by done.
      rewrite fmap_cons, Hr. simpl. f_equal. apply IH.
    + rewrite filter_cons_False by (simpl; congruence).
      rewrite (filter_cons_False _ a) by congruence. apply IH.
  - rewrite filter_cons_False by (simpl; congruence).
    rewrite (filter_cons_False _ a) by congruence. apply IH.
  - rewrite filter_cons_False by (simpl; congruence).
    rewrite (filter_cons_False _ a) by congruence. apply IH.
Qed.

Lemma later_cumulative_ratios_spec (actions : list CorporateAction) (row : Trade) :
  let splits := sort_values by_Date_Time (filter is_Split actions) in
  later_cumulative_ratios (zip splits (groupby_cumprod ∅ splits)) row =
  snd <$> filter (λ ac, Date_Time row < ca_Date_Time ac.1)
            (cumulativeRatio actions (Symbol row)).
Proof.
  intros splits. unfold later_cumulative_ratios, cumulativeRatio. fold splits.
  pose proof (groupby_cumprod_symbol (Symbol row) ∅ splits) as H.
  rewrite lookup_empty in H. rewrite <- H.
  rewrite list_filter_filter. f_equal.
  apply filter_ext_elem. intros [a c] _. simpl. naive_solver.
Qed.

Lemma add_split_data_spec (trades : Trades) (actions : list CorporateAction) :
  actions ≠ [] →
  add_split_data trades (Some actions) =
  assign (λ row, set_Split_Ratio
            (Some (splitRatio actions (Symbol row) (Date_Time row))) row) trades.
Proof.
  intros Hne. unfold add_split_data.
  rewrite bool_decide_false by done.
  destruct (bool_decide (filter is_Split actions ≠ [])) eqn:Hsplits.
  - rewrite !assign_assign. apply assign_ext. intros h row _. simpl.
    rewrite later_cumulative_ratios_spec. unfold splitRatio.
    destruct (series_min _); by destruct row.
  - apply bool_decide_eq_false in Hsplits.
    assert (Hnil : filter is_Split actions = []).
    { by destruct (filter is_Split actions); [|exfalso; apply Hsplits]. }
    apply assign_ext. intros h row _.
    unfold splitRatio, cumulativeRatio. by rewrite Hnil.
Qed.

Lemma adjust_for_splits_assign (trades : Trades) (actions : list CorporateAction) :
  actions ≠ [] →
  adjust_for_splits trades (Some actions) =
  assign (λ row, split_adjusted (splitRatio actions (Symbol row) (Date_Time row)) row) trades.
Proof.
  intros Hne. unfold adjust_for_splits. destruct actions as [|a actions]; [done|].
  rewrite add_split_data_spec by done. rewrite !assign_assign.
  apply assign_ext. intros h row _. by destruct row.
Qed.

Lemma adjust_for_splits_idempotent (trades : Trades) sa :
  adjust_for_splits (adjust_for_splits trades sa) sa = adjust_for_splits trades sa.
Proof.
  destruct sa as [[|a actions]|]; [done| |done].
  rewrite !adjust_for_splits_assign by done. rewrite assign_assign.
  apply assign_ext. intros h row _. by destruct row.
Qed.

(** C3 (amended).  With a non-empty frame of corporate actions,
    [adjust_for_splits] gives every trade the split ratio 1 over the minimum
    running product of the Split ratios of its symbol (cumulated in
    ascending time order) among the splits dated strictly after the trade,
    or 1 when there is none, and sets the quantity to the original quantity
    times that ratio and the price to the original price divided by it.
    With an empty frame or none, the trades are returned as they are (a
    split ratio that was missing stays missing).  In every case running it
    again with the same actions changes nothing. *)
Theorem adjust_for_splits_spec (trades : Trades) (actions : list CorporateAction) :
  (actions ≠ [] →
   ∀ i h row, trades !! i = Some (h, row) →
     ∃ row', adjust_for_splits trades (Some actions) !! i = Some (h, row') ∧
       let r := splitRatio actions (Symbol row) (Date_Time row) in
       Split_Ratio row' = Some r ∧
       Quantity row' = num_mul (Orig_Quantity row) (Some r) ∧
       T_Price row' = num_div (Orig_T_Price row) (Some r) ∧
       Orig_Quantity row' = Orig_Quantity row ∧
       Orig_T_Price row' = Orig_T_Price row) ∧
  length (adjust_for_splits trades (Some actions)) = length trades ∧
  adjust_for_splits trades (Some []) = trades ∧
  adjust_for_splits trades None = trades ∧
  (∀ sa, adjust_for_splits (adjust_for_splits trades sa) sa =
         adjust_for_splits trades sa).
Proof.
  split; [|split; [|split; [done|split; [done|]]]].
  - intros Hne i h row Hi. eexists. split.
    + rewrite adjust_for_splits_assign by done. by apply assign_lookup.
    + by destruct row.
  - destruct actions; [done|]. rewrite adjust_for_splits_assign by done.
    unfold assign. by rewrite length_fmap.
  - apply adjust_for_splits_idempotent.
Qed.

Lemma adjust_for_splits_spec_witness :
  ∃ row', adjust_for_splits [("h1"%string, aapl_buy)]
            (Some [split_action "AAPL" 200 (1 # 2)]) !! 0%nat = Some ("h1"%string, row') ∧
    Split_Ratio row' = Some (splitRatio [split_action "AAPL" 200 (1 # 2)] "AAPL" 100) ∧
    Quantity row' = Some (10 * splitRatio [split_action "AAPL" 200 (1 # 2)] "AAPL" 100)%Q.
Proof.
  destruct (adjust_for_splits_spec [("h1"%string, aapl_buy)]
              [split_action "AAPL" 200 (1 # 2)]) as (H & _).
  destruct (H ltac:(discriminate) 0%nat "h1"%string aapl_buy eq_refl)
    as (row' & Hrow & Hr & Hq & _).
  exists row'. split; [done|]. split; [done|]. exact Hq.
Defined.

(** C3 (counterexample).  A freshly imported trade and an empty frame of
    corporate actions: the split ratio stays missing, where the ratio for
    "no later split" would be 1. *)
Lemma adjust_for_splits_no_actions :
  Split_Ratio ∘ snd <$> adjust_for_splits [("h1"%string, aapl_buy)] (Some []) = [None] ∧
  splitRatio [] "AAPL" 100 = 1%Q.
Proof. done. Qed.

(** ** Coercion of imported cells and of corporate action descriptions *)

Lemma mapM_Returns {A B} (f : A → result B) (l : list A) :
  (∀ x, x ∈ l → ∃ y, f x = Returns y) →
  ∃ ys, mapM f l = Returns ys ∧ Forall2 (λ x y, f x = Returns y) l ys.
Proof.
  induction l as [|x l IH]; intros Hf; simpl.
  - exists []. by split; [|constructor].
  - destruct (Hf x) as [y Hy]; [by left|].
    destruct IH as (ys & Hys & Hall); [intros; apply Hf; by right|].
    exists (y :: ys). rewrite Hy. simpl. rewrite Hys. simpl.
    split; [done|]. by constructor.
Qed.

Lemma mapM_Raises {A B} (f : A → result B) (l : list A) e :
  mapM f l = Raises e → ∃ x, x ∈ l ∧ f x = Raises e.
Proof.
  induction l as [|x l IH]; simpl; [done|].
  destruct (f x) as [y|e'] eqn:Hx; simpl.
  - destruct (mapM f l) as [ys|e'] eqn:Hl; simpl; [done|].
    intros [= ->]. destruct IH as (z & ? & ?); [done|]. exists z. split; [by right|done].
  - intros [= ->]. exists x. split; [by left|done].
Qed.

Lemma get_type_Returns quantity action :
  ∃ ty, get_type true quantity action = Returns ty.
Proof. unfold get_type. simpl. repeat case_match; eauto. Qed.

Section NormalizeFacts.
Variable parse_float : string → option Q.
Variable parse_datetime : string → option Z.

(** When the timestamps can be read and the frame says what each trade did
    (an Action column, or a Code column filled in), the conversion returns
    one row per imported row, whatever the numeric cells hold; each numeric
    column is the coerced cell. *)
Lemma convert_trade_columns_Returns (cols : Columns) (df : list RawTrade) :
  has_Action cols || has_Code cols = true →
  (∀ r, r ∈ df → is_Some (parse_datetime (raw_Date_Time r))) →
  (has_Action cols = false → ∀ r, r ∈ df → is_Some (raw_Code r)) →
  ∃ rows, convert_trade_columns parse_float parse_datetime cols df = Returns rows ∧
    length rows = length df ∧
    ∀ i r, df !! i = Some r →
      ∃ row, rows !! i = Some row ∧
        Quantity row = to_numeric parse_float (raw_Quantity r) ∧
        T_Price row = to_numeric parse_float (raw_T_Price r) ∧
        C_Price row = to_numeric parse_float (raw_C_Price r) ∧
        Proceeds row = to_numeric parse_float (raw_Proceeds r) ∧
        Comm_Fee row = to_numeric parse_float (raw_Comm_Fee r) ∧
        Basis row = to_numeric parse_float (raw_Basis r) ∧
        Realized_PL row = to_numeric parse_float (raw_Realized_PL r) ∧
        MTM_PL row = to_numeric parse_float (raw_MTM_PL r).
Proof.
  intros Hcol Hdate Hcode. unfold convert_trade_columns.
  destruct (mapM_Returns (to_datetime parse_datetime ∘ raw_Date_Time) df)
    as (dates & -> & Hdates).
  { intros r [t Ht]%Hdate. exists t. unfold to_datetime. simpl. by rewrite Ht. }
  simpl.
  assert (∃ actions,
    (if negb (has_Action cols) && has_Code cols
     then mapM (λ r, match raw_Code r with
                     | Some x => Returns (Some (action_of_code x))
                     | None => Raises TypeError
                     end) df
     else Returns (raw_Action <$> df)) = Returns actions ∧
    length actions = length df) as (actions & -> & Hactions).
  { destruct (negb (has_Action cols) && has_Code cols) eqn:Hc.
    - apply andb_true_iff in Hc as [Ha%negb_true_iff _].
      edestruct (mapM_Returns (λ r, match raw_Code r with
                     | Some x => Returns (Some (action_of_code x))
                     | None => Raises TypeError
                     end) df) as (actions & Hm & Hall).
      { intros r [x Hx]%(Hcode Ha). rewrite Hx. eauto. }
      exists actions. split; [done|]. symmetry. by eapply Forall2_length.
    - eexists. split; [done|]. by rewrite length_fmap. }
  simpl. rewrite Hcol.
  edestruct (mapM_Returns
    (λ ra : RawTrade * option string,
       get_type true (to_numeric parse_float (raw_Quantity ra.1)) ra.2)
    (zip df actions)) as (types & -> & Htypes).
  { intros ra _. apply get_type_Returns. }
  simpl. eexists. split; [done|].
  apply Forall2_length in Hdates, Htypes. rewrite length_zip in Htypes.
  split.
  - rewrite length_zip_with, !length_zip. lia.
  - intros i r Hi.
    assert (i < length df)%nat as Hlt by (by eapply lookup_lt_Some).
    destruct (lookup_lt_is_Some_2 dates i) as [d Hd]; [lia|].
    destruct (lookup_lt_is_Some_2 actions i) as [a Ha]; [lia|].
    destruct (lookup_lt_is_Some_2 types i) as [ty Hty]; [lia|].
    eexists. split.
    + rewrite lookup_zip_with, Hi. simpl.
      rewrite !lookup_zip_with, Hd, Ha. simpl. rewrite Hty. simpl. done.
    + done.
Qed.

(** A call that raises does so because of a timestamp or a Code cell,
    or because the frame has neither an Action nor a Code column. *)
Lemma convert_trade_columns_Raises (cols : Columns) (df : list RawTrade) e :
  convert_trade_columns parse_float parse_datetime cols df = Raises e →
  (∃ r, r ∈ df ∧ parse_datetime (raw_Date_Time r) = None) ∨
  (has_Action cols = false ∧ has_Code cols = true ∧ ∃ r, r ∈ df ∧ raw_Code r = None) ∨
  (has_Action cols = false ∧ has_Code cols = false).
Proof.
  unfold convert_trade_columns. intros Hr.
  destruct (mapM (to_datetime parse_datetime ∘ raw_Date_Time) df) as [dates|e'] eqn:Hd.
  2: { left. apply mapM_Raises in Hd as (r & Hin & Hr').
       exists r. split; [done|]. unfold to_datetime in Hr'. simpl in Hr'.
       by destruct (parse_datetime (raw_Date_Time r)). }
  simpl in Hr. right.
  destruct (has_Action cols) eqn:Ha, (has_Code cols) eqn:Hc; simpl in Hr.
  - exfalso. destruct (mapM _ (zip df _)) as [types|e'] eqn:Ht; [done|].
    apply mapM_Raises in Ht as (ra & _ & Hra).
    destruct (get_type_Returns (to_numeric parse_float (raw_Quantity ra.1)) ra.2).
    congruence.
  - exfalso. destruct (mapM _ (zip df _)) as [types|e'] eqn:Ht; [done|].
    apply mapM_Raises in Ht as (ra & _ & Hra).
    destruct (get_type_Returns (to_numeric parse_float (raw_Quantity ra.1)) ra.2).
    congruence.
  - left. do 2 (split; [done|]).
    match type of Hr with
    | context [mapM ?f df] => destruct (mapM f df) as [actions|e'] eqn:Hm
    end.
    + exfalso. simpl in Hr.
      destruct (mapM _ (zip df _)) as [types|e''] eqn:Ht; [done|].
      apply mapM_Raises in Ht as (ra & _ & Hra).
      destruct (get_type_Returns (to_numeric parse_float (raw_Quantity ra.1)) ra.2).
      congruence.
    + apply mapM_Raises in Hm as (r & Hin & Hr').
      exists r. split; [done|]. by destruct (raw_Code r).
  - by right.
Qed.
End NormalizeFacts.

Lemma parse_action_text_no_match (t : string) :
  parse_split_text t = Returns no_match →
  parse_spinoff_text t = Returns no_match →
  parse_acquisition_text t = Returns no_match →
  parse_action_text t =
  Returns match header_pattern (String.list_ascii_of_string t) with
          | Some g1 => (Some "Unknown"%string, Some (str g1), Some 0%Q, None)
          | None =>
              if contains "Dividend" (String.list_ascii_of_string t)
              then (Some "Dividend"%string, None, None, None)
              else (Some "Unknown"%string, None, None, None)
          end.
Proof.
  intros Hs Hp Ha. unfold parse_action_text. rewrite Hs. simpl.
  rewrite Hp. simpl. rewrite Ha. simpl.
  destruct (header_pattern _); simpl; [done|]. by destruct (contains _ _).
Qed.

(** C9.  A numeric cell that cannot be read becomes the missing value, and
    the conversion of a frame whose timestamps can be read and which has an
    Action column (or a filled-in Code column) returns a row for every
    imported row whatever its numeric cells hold.  A description that
    matches none of the Split, Spinoff and Acquisition patterns and does not
    announce a dividend parses to the action Unknown; nothing is raised. *)
Theorem coercion_degrades (parse_float : string → option Q)
    (parse_datetime : string → option Z) (cols : Columns) (df : list RawTrade)
    (t : string) :
  (∀ s, parse_float s = None → to_numeric parse_float (Text s) = None) ∧
  (has_Action cols || has_Code cols = true →
   (∀ r, r ∈ df → is_Some (parse_datetime (raw_Date_Time r))) →
   (has_Action cols = false → ∀ r, r ∈ df → is_Some (raw_Code r)) →
   ∃ rows, convert_trade_columns parse_float parse_datetime cols df = Returns rows ∧
     length rows = length df ∧
     ∀ i r, df !! i = Some r →
       ∃ row, rows !! i = Some row ∧
         Quantity row = to_numeric parse_float (raw_Quantity r) ∧
         T_Price row = to_numeric parse_float (raw_T_Price r) ∧
         C_Price row = to_numeric parse_float (raw_C_Price r) ∧
         Proceeds row = to_numeric parse_float (raw_Proceeds r) ∧
         Comm_Fee row = to_numeric parse_float (raw_Comm_Fee r) ∧
         Basis row = to_numeric parse_float (raw_Basis r) ∧
         Realized_PL row = to_numeric parse_float (raw_Realized_PL r) ∧
         MTM_PL row = to_numeric parse_float (raw_MTM_PL r)) ∧
  (parse_split_text t = Returns no_match →
   parse_spinoff_text t = Returns no_match →
   parse_acquisition_text t = Returns no_match →
   contains "Dividend" (String.list_ascii_of_string t) = false →
   ∃ symbol ratio,
     parse_action_text t = Returns (Some "Unknown"%string, symbol, ratio, None)).
Proof.
  split; [done|]. split; [apply convert_trade_columns_Returns|].
  intros Hs Hp Ha Hd. rewrite parse_action_text_no_match by done.
  destruct (header_pattern _); [eauto|]. rewrite Hd. eauto.
Qed.

Lemma coercion_degrades_witness :
  (∃ row, convert_trade_columns sample_parse_float sample_parse_datetime
            ibkr_trade_columns [row_with_bad_quantity] = Returns [row] ∧
          Quantity row = None ∧ T_Price row = Some 954%Q) ∧
  parse_action_text "Tender Offer" = Returns (Some "Unknown"%string, None, None, None).
Proof.
  destruct (coercion_degrades sample_parse_float sample_parse_datetime
              ibkr_trade_columns [row_with_bad_quantity] "Tender Offer")
    as (Hnum & Hconv & Htext).
  split.
  - destruct Hconv as (rows & Hrows & Hlen & Hcells); [done| | |].
    + intros r ->%list_elem_of_singleton. by eexists.
    + intros _ r ->%list_elem_of_singleton. by eexists.
    + destruct (Hcells 0%nat row_with_bad_quantity eq_refl)
        as (row & Hrow & Hq & Hp & _).
      exists row. destruct rows as [|row' [|]]; [done| |done].
      injection Hrow as ->. split; [done|]. split; [|done].
      rewrite Hq. by apply Hnum.
  - destruct Htext as (symbol & ratio & Hparse); [done..|].
    rewrite Hparse. revert Hparse. vm_compute. by intros [= <- <-].
Defined.

(** ** A 2-for-1 split *)

Lemma chars_app (a b : string) : chars (a +:+ b) = chars a ++ chars b.
Proof. unfold chars. induction a as [|c a IH]; [done|]. simpl. by rewrite IH. Qed.

Lemma span_app (p : ascii → bool) (a r : list ascii) :
  Forall (λ c, p c = true) a →
  match r with c :: _ => p c = false | [] => True end →
  span p (a ++ r) = (a, r).
Proof.
  intros Ha Hr. induction Ha as [|c a Hc _ IH]; simpl.
  - destruct r as [|c r]; [done|]. simpl. by rewrite Hr.
  - by rewrite Hc, IH.
Qed.

Lemma many1_app (p : ascii → bool) (a r : list ascii) :
  a ≠ [] → Forall (λ c, p c = true) a →
  match r with c :: _ => p c = false | [] => True end →
  many1 p (a ++ r) = Some (a, r).
Proof. intros Hne Ha Hr. unfold many1. rewrite span_app by done. by destruct a. Qed.

Lemma chars_nonempty (s : string) : s ≠ ""%string → chars s ≠ [].
Proof. by destruct s. Qed.

Lemma split_pattern_2_for_1 (sym id rest : string) :
  sym ≠ ""%string → Forall (λ c, is_word_or_dot c = true) (chars sym) →
  id ≠ ""%string → Forall (λ c, is_word c = true) (chars id) →
  no_leading_digit rest →
  split_pattern (chars (split_2_for_1_text sym id rest)) =
  Some (chars sym, chars "2", chars "1").
Proof.
  intros Hs Hsw Hi Hiw Hr. unfold split_2_for_1_text, split_pattern.
  rewrite !chars_app.
  rewrite many1_app by (done || by apply chars_nonempty). simpl.
  rewrite many1_app by (done || by apply chars_nonempty). simpl.
  change ("1"%char :: chars rest) with (["1"%char] ++ chars rest).
  rewrite many1_app; [done|done|by repeat constructor|apply Hr].
Qed.

Lemma re_search_here {G} (pattern : list ascii → option G) (l : list ascii) g :
  pattern l = Some g → re_search pattern l = Some g.
Proof. intros H. destruct l; simpl; by rewrite H. Qed.

Lemma parse_split_text_2_for_1 (sym id rest : string) :
  sym ≠ ""%string → Forall (λ c, is_word_or_dot c = true) (chars sym) →
  id ≠ ""%string → Forall (λ c, is_word c = true) (chars id) →
  no_leading_digit rest →
  parse_split_text (split_2_for_1_text sym id rest) =
  Returns (Some "Split"%string, Some sym, Some (1 # 2)%Q, None).
Proof.
  intros Hs Hsw Hi Hiw Hr. unfold parse_split_text.
  pose proof (split_pattern_2_for_1 sym id rest Hs Hsw Hi Hiw Hr) as Hp.
  unfold chars in Hp at 1.
  rewrite (re_search_here _ _ _ Hp). simpl. unfold str, chars.
  by rewrite String.string_of_list_ascii_of_string.
Qed.

Lemma splitRatio_single_split (actions : list CorporateAction) a sym t r :
  filter (λ b, is_Split b ∧ ca_Symbol b = Some sym) actions = [a] →
  ca_Ratio a = Some r → t < ca_Date_Time a →
  splitRatio actions sym t = (1 / r)%Q.
Proof.
  intros Hone Hr Ht. unfold splitRatio, cumulativeRatio.
  assert (Hsplits : filter (λ b, ca_Symbol b = Some sym)
                      (sort_values by_Date_Time (filter is_Split actions)) = [a]).
  { apply Permutation_singleton_r.
    rewrite sort_values_Permutation, list_filter_filter, <- Hone.
    erewrite filter_ext_elem; [done|]. intros b _. simpl. naive_solver. }
  rewrite Hsplits. simpl. rewrite Hr. simpl.
  rewrite filter_cons_True by done. done.
Qed.

(** C4 (amended).  The description of a 2-for-1 split, "Split 2 for 1",
    parses to a Split action whose ratio is 1/2: the old-for-new quotient
    M/N of "Split N for M".  When it is the only split of the symbol and is
    dated after a trade of that symbol, the adjustment doubles the trade's
    quantity and halves its price, and quantity times price stays the
    same. *)
Theorem split_2_for_1_doubles (sym id rest : string) (t : Z)
    (quantity proceeds value : num) (actions : list CorporateAction)
    (trades : Trades) :
  sym ≠ ""%string → Forall (λ c, is_word_or_dot c = true) (chars sym) →
  id ≠ ""%string → Forall (λ c, is_word c = true) (chars id) →
  no_leading_digit rest →
  ∃ a, corporate_action_of t (split_2_for_1_text sym id rest)
         quantity proceeds value = Returns a ∧
    ca_Action a = "Split"%string ∧ ca_Symbol a = Some sym ∧
    ca_Ratio a = Some (1 # 2)%Q ∧ ca_Date_Time a = t ∧
    (filter (λ b, is_Split b ∧ ca_Symbol b = Some sym) actions = [a] →
     ∀ i h row q p,
       trades !! i = Some (h, row) → Symbol row = sym → Date_Time row < t →
       Orig_Quantity row = Some q → Orig_T_Price row = Some p →
       ∃ row' q' p',
         adjust_for_splits trades (Some actions) !! i = Some (h, row') ∧
         Quantity row' = Some q' ∧ T_Price row' = Some p' ∧
         (q' == 2 * q)%Q ∧ (p' == p / 2)%Q ∧ (q' * p' == q * p)%Q).
Proof.
  intros Hs Hsw Hi Hiw Hr. eexists. split.
  { unfold corporate_action_of, parse_action_text.
    rewrite parse_split_text_2_for_1 by done. done. }
  simpl. do 4 (split; [done|]).
  intros Hone i h row q p Hrow Hsym Hlt Hq Hp.
  assert (Hne : actions ≠ []) by (intros ->; done).
  pose proof (assign_lookup
    (λ row, split_adjusted (splitRatio actions (Symbol row) (Date_Time row)) row)
    trades i h row Hrow) as Hrow'.
  rewrite <- adjust_for_splits_assign in Hrow' by done.
  set (row' := split_adjusted (splitRatio actions (Symbol row) (Date_Time row)) row) in *.
  assert (Hq' : Quantity row' =
                num_mul (Orig_Quantity row)
                  (Some (splitRatio actions (Symbol row) (Date_Time row))))
    by (by destruct row).
  assert (Hp' : T_Price row' =
                num_div (Orig_T_Price row)
                  (Some (splitRatio actions (Symbol row) (Date_Time row))))
    by (by destruct row).
  clearbody row'. rewrite Hsym in Hq', Hp'.
  rewrite (splitRatio_single_split actions _ sym _ (1 # 2) Hone) in Hq', Hp';
    [|done..].
  rewrite Hq in Hq'. rewrite Hp in Hp'. simpl in Hq', Hp'.
  eexists row', _, _. do 3 (split; [done|]).
  split; [|split]; field.
Qed.

Lemma split_2_for_1_doubles_witness :
  ∃ row', adjust_for_splits [("h1"%string, aapl_buy)]
            (Some [split_action "AAPL" 200 (1 # 2)]) !! 0%nat = Some ("h1"%string, row') ∧
    ∃ q' p', Quantity row' = Some q' ∧ T_Price row' = Some p' ∧
      (q' == 20)%Q ∧ (p' == 75)%Q ∧ (q' * p' == 10 * 150)%Q.
Proof.
  destruct (split_2_for_1_doubles "AAPL" "US0378331005"
              " (AAPL, APPLE INC, US0378331005)" 200 None None None
              [split_action "AAPL" 200 (1 # 2)] [("h1"%string, aapl_buy)])
    as (a & Ha & _ & _ & _ & _ & Hadj);
    [done|by repeat constructor|done|by repeat constructor|done|].
  assert (a = split_action "AAPL" 200 (1 # 2)) as ->.
  { revert Ha. vm_compute. by intros [= <-]. }
  destruct (Hadj eq_refl 0%nat "h1"%string aapl_buy 10%Q 150%Q)
    as (row' & q' & p' & Hrow & Hq & Hp & Hq2 & Hp2 & Hinv); [done..|].
  exists row'. split; [done|]. exists q', p'. do 2 (split; [done|]).
  split; [by rewrite Hq2|]. split; [by rewrite Hp2|done].
Defined.

(** C4 (counterexample).  "Split 2 for 1" parses to the ratio 1/2, not to
    the new-for-old multiplier 2; and with a Split action whose ratio is
    the multiplier 2, the adjustment halves the quantity (10 becomes 5) and
    doubles the price (150 becomes 300). *)
Lemma split_ratio_is_old_for_new :
  parse_split_text "AAPL(US0378331005) Split 2 for 1 (AAPL, APPLE INC, US0378331005)" =
    Returns (Some "Split"%string, Some "AAPL"%string, Some (1 # 2)%Q, None) ∧
  ¬ (1 # 2 == 2)%Q ∧
  (λ r, (Quantity r.2, T_Price r.2)) <$>
    adjust_for_splits [("h1"%string, aapl_buy)] (Some [split_action "AAPL" 200 2]) =
  [(Some (10 * (1 / 2))%Q, Some (150 / (1 / 2))%Q)] ∧
  (10 * (1 / 2) == 5)%Q ∧ (150 / (1 / 2) == 300)%Q.
Proof. repeat split; done. Qed.

(** ** Impossible positions *)

Lemma num_lt0_spec a : num_lt0 a = true ↔ ∃ q, a = Some q ∧ (q < 0)%Q.
Proof.
  destruct a as [q|]; simpl; [rewrite bool_decide_eq_true|]; naive_solver.
Qed.

Lemma num_gt0_spec a : num_gt0 a = true ↔ ∃ q, a = Some q ∧ (0 < q)%Q.
Proof.
  destruct a as [q|]; simpl; [rewrite bool_decide_eq_true|]; naive_solver.
Qed.

Lemma missing_transactions_mask (t : Trade) :
  num_lt0 (Accumulated_Quantity t)
    && bool_decide (Type_ t = Some "Long"%string)
    && bool_decide (Action t = Some "Close"%string)
  || num_gt0 (Accumulated_Quantity t)
    && bool_decide (Type_ t = Some "Short"%string)
    && bool_decide (Action t = Some "Close"%string)
  ↔ impossible_close t.
Proof.
  unfold impossible_close.
  rewrite orb_True, !andb_True, !bool_decide_spec, !Is_true_true.
  rewrite num_lt0_spec, num_gt0_spec. naive_solver.
Qed.

(** C7.  The query returns exactly the trades that are an impossible
    close: a trade is in the result if and only if it is a row of the
    ledger with Action Close that has Type Long and a negative accumulated
    quantity, or Type Short and a positive one.  The rows come back as they
    are and in ledger order, and the result is empty when the ledger has no
    such trade. *)
Theorem positions_with_missing_transactions_spec (trades : Trades) :
  (∀ r, r ∈ positions_with_missing_transactions trades ↔
        r ∈ trades ∧ impossible_close r.2) ∧
  positions_with_missing_transactions trades `sublist_of` trades ∧
  ((∀ r, r ∈ trades → ¬ impossible_close r.2) ↔
   positions_with_missing_transactions trades = []).
Proof.
  unfold positions_with_missing_transactions.
  assert (Hin : ∀ r, r ∈ filter (λ r : Hash * Trade, Is_true
            (num_lt0 (Accumulated_Quantity r.2)
              && bool_decide (Type_ r.2 = Some "Long"%string)
              && bool_decide (Action r.2 = Some "Close"%string)
            || num_gt0 (Accumulated_Quantity r.2)
              && bool_decide (Type_ r.2 = Some "Short"%string)
              && bool_decide (Action r.2 = Some "Close"%string))) trades ↔
        r ∈ trades ∧ impossible_close r.2).
  { intros r. rewrite list_elem_of_filter, missing_transactions_mask. naive_solver. }
  split; [done|]. split; [apply sublist_filter|].
  split.
  - intros Hnone. destruct (filter _ trades) as [|r l] eqn:E; [done|].
    exfalso. destruct (Hin r) as [[Hr Himp] _]; [by left|]. by eapply Hnone.
  - intros Hnil r Hr Himp. rewrite Hnil in Hin.
    destruct (Hin r) as [_ Hback]. by apply elem_of_nil in Hback.
Qed.

Lemma positions_with_missing_transactions_witness :
  ∃ r, r.1 = "s1"%string ∧
       r ∈ positions_with_missing_transactions
             (compute_accumulated_positions oversold_history []).
Proof.
  destruct (positions_with_missing_transactions_spec
              (compute_accumulated_positions oversold_history [])) as (Hin & _).
  destruct (compute_accumulated_positions oversold_history []) as [|b [|r l]] eqn:E;
    [done..|].
  exists r. assert (Hr : r.1 = "s1"%string ∧ impossible_close r.2).
  { revert E. vm_compute. intros [= _ <- _]. simpl. split; [done|].
    split; [done|]. left. split; [done|]. eexists. split; [done|]. done. }
  split; [apply Hr|]. apply Hin. split; [|apply Hr]. right. by left.
Defined.

(** A sale of fifteen after a purchase of ten is reported; a sale of ten is
    not. *)
Lemma oversold_history_reported :
  fst <$> positions_with_missing_transactions
            (compute_accumulated_positions oversold_history []) = ["s1"%string] ∧
  positions_with_missing_transactions
    (compute_accumulated_positions covered_history []) = [].
Proof. done. Qed.

(** ** Unmatched transfers *)

Lemma filter_idemp_weaker {A} (P1 P2 : A → Prop)
    `{!∀ x, Decision (P1 x)} `{!∀ x, Decision (P2 x)} (l : list A) :
  (∀ x, P1 x → P2 x) → filter P1 (filter P2 l) = filter P1 l.
Proof.
  intros HP. rewrite list_filter_filter. apply filter_ext_elem. naive_solver.
Qed.

(** C10.  Without a Target column the query returns the one empty frame.
    With it, the query returns two series: every residual reported as
    unmatched outgoing is negative and every residual reported as unmatched
    incoming is positive.  Rows of Type Spinoff take no part: two ledgers
    that differ in such rows only give the same report. *)
Theorem transfers_with_missing_transactions_spec (trades : Trades) :
  transfers_with_missing_transactions false trades = EmptyFrame ∧
  (∃ unmatched_incoming unmatched_outgoing,
     transfers_with_missing_transactions true trades =
       Unmatched unmatched_incoming unmatched_outgoing ∧
     (∀ k v, unmatched_outgoing !! k = Some v → (v < 0)%Q) ∧
     (∀ k v, unmatched_incoming !! k = Some v → (0 < v)%Q)) ∧
  (∀ target_column trades',
     filter (λ r : Hash * Trade, Type_ r.2 ≠ Some "Spinoff"%string) trades' =
     filter (λ r : Hash * Trade, Type_ r.2 ≠ Some "Spinoff"%string) trades →
     transfers_with_missing_transactions target_column trades' =
     transfers_with_missing_transactions target_column trades).
Proof.
  split; [done|]. split.
  - eexists _, _. split; [done|].
    split; intros k v [_ Hv]%map_lookup_filter_Some; exact Hv.
  - intros target_column trades' Heq. unfold transfers_with_missing_transactions.
    assert (Ht : filter (λ r : Hash * Trade,
                   Action r.2 = Some "Transfer"%string ∧ Type_ r.2 ≠ Some "Spinoff"%string)
                   trades' =
                 filter (λ r : Hash * Trade,
                   Action r.2 = Some "Transfer"%string ∧ Type_ r.2 ≠ Some "Spinoff"%string)
                   trades).
    { rewrite <- (filter_idemp_weaker _
                   (λ r : Hash * Trade, Type_ r.2 ≠ Some "Spinoff"%string) trades')
        by naive_solver.
      rewrite <- (filter_idemp_weaker _
                   (λ r : Hash * Trade, Type_ r.2 ≠ Some "Spinoff"%string) trades)
        by naive_solver.
      by rewrite Heq. }
    by rewrite Ht.
Qed.

Lemma transfers_with_missing_transactions_witness :
  (∀ unmatched_incoming unmatched_outgoing,
     transfers_with_missing_transactions true short_transfer =
       Unmatched unmatched_incoming unmatched_outgoing →
     ∀ k v, unmatched_outgoing !! k = Some v → (v < 0)%Q) ∧
  transfers_with_missing_transactions true
    (("x1"%string, transfer_row "GEHC" 5 "Spinoff" "U1" "U1") :: short_transfer) =
  transfers_with_missing_transactions true short_transfer.
Proof.
  destruct (transfers_with_missing_transactions_spec short_transfer)
    as (_ & (inc & out & Hrun & Hout & _) & Hspin).
  split.
  - intros inc' out' Hrun'. rewrite Hrun in Hrun'. injection Hrun' as <- <-.
    exact Hout.
  - apply Hspin. done.
Defined.

(** Ten shares out and seven in leave a residual of -3 on the receiving
    account and nothing on the incoming side. *)
Lemma short_transfer_reported :
  ∃ unmatched_incoming unmatched_outgoing,
    transfers_with_missing_transactions true short_transfer =
      Unmatched unmatched_incoming unmatched_outgoing ∧
    (∃ v, unmatched_outgoing !! ("AAPL"%string, "U2"%string) = Some v ∧ (v == -3)%Q) ∧
    unmatched_incoming = ∅.
Proof.
  eexists _, _. split; [done|]. split.
  - eexists. split; [by vm_compute|]. done.
  - apply map_eq. intros k. by vm_compute.
Qed.

(** ** Renames *)

Lemma by_Change_Date_total a b : by_Change_Date a b = false → by_Change_Date b a = true.
Proof.
  unfold by_Change_Date. destruct (sym_Change_Date a.2), (sym_Change_Date b.2); try done.
  rewrite bool_decide_eq_false, bool_decide_eq_true. lia.
Qed.

Lemma by_Change_Date_trans a b c :
  by_Change_Date a b = true → by_Change_Date b c = true → by_Change_Date a c = true.
Proof.
  unfold by_Change_Date.
  destruct (sym_Change_Date a.2), (sym_Change_Date b.2), (sym_Change_Date c.2); try done.
  rewrite !bool_decide_eq_true. lia.
Qed.

Lemma by_Change_Date_refl a : by_Change_Date a a = true.
Proof.
  unfold by_Change_Date. destruct (sym_Change_Date a.2); [|done].
  by rewrite bool_decide_eq_true.
Qed.

Lemma elem_of_matching_renames symbols symbol d e :
  e ∈ matching_renames symbols symbol d ↔
  e ∈ symbols ∧ e.1 = symbol ∧ covers (sym_Change_Date e.2) d.
Proof. unfold matching_renames. rewrite list_elem_of_filter. naive_solver. Qed.

(** The ticker that is looked up is that of the canonical entry. *)
Lemma lookup_ticker_Returns symbols symbol d ticker :
  lookup_ticker symbols symbol d = Returns ticker →
  ∃ e, canonical_entry symbols symbol d e ∧ sym_Ticker e.2 = ticker.
Proof.
  unfold lookup_ticker.
  destruct (sort_values _ _) as [|e l] eqn:Hs; [done|]. intros [= <-].
  apply sort_values_head in Hs as [Hin Hmin];
    [|apply by_Change_Date_total|apply by_Change_Date_trans|apply by_Change_Date_refl].
  apply elem_of_matching_renames in Hin as (Hin & Hsym & Hcov).
  exists e. split; [|done]. repeat split; try done.
  intros e' ? ? ?. apply Hmin. by apply elem_of_matching_renames.
Qed.

(** The look-up returns as soon as one entry matches, and raises
    [IndexError] otherwise. *)
Lemma lookup_ticker_total symbols symbol d :
  (matching_renames symbols symbol d ≠ [] ∧
   ∃ ticker, lookup_ticker symbols symbol d = Returns ticker) ∨
  (matching_renames symbols symbol d = [] ∧
   lookup_ticker symbols symbol d = Raises IndexError).
Proof.
  unfold lookup_ticker.
  destruct (sort_values _ _) as [|e l] eqn:Hs.
  - right. by apply sort_values_nil_inv in Hs as ->.
  - left. split; [|by eexists]. intros Hnil. by rewrite Hnil in Hs.
Qed.

Section RenameSymbolsFacts.
Context {R : Type} (symbol_of : R → string) (date_of : R → Z)
  (set_ticker : option string → R → R).

Lemma rename_symbols_Returns symbols (df df' : list R) :
  rename_symbols symbol_of date_of set_ticker symbols df = Returns df' →
  Forall2 (λ row row', ∃ e,
             canonical_entry symbols (symbol_of row) (date_of row) e ∧
             row' = set_ticker (Some (sym_Ticker e.2)) row) df df'.
Proof.
  unfold rename_symbols. revert df'. induction df as [|row df IH]; intros df'; simpl.
  - intros [= <-]. constructor.
  - destruct (lookup_ticker _ _ _) as [ticker|] eqn:Hl; simpl; [|done].
    destruct (mapM _ df) as [rows|] eqn:Hm; simpl; [|done].
    intros [= <-]. constructor; [|by apply IH].
    apply lookup_ticker_Returns in Hl as (e & ? & <-). eauto.
Qed.

Lemma rename_symbols_total symbols (df : list R) :
  (∀ row, row ∈ df →
     matching_renames symbols (symbol_of row) (date_of row) ≠ []) →
  ∃ df', rename_symbols symbol_of date_of set_ticker symbols df = Returns df'.
Proof.
  intros Hall. unfold rename_symbols.
  edestruct (mapM_Returns (λ row,
      ticker ← lookup_ticker symbols (symbol_of row) (date_of row);
      Returns (set_ticker (Some ticker) row)) df) as (df' & Hdf & _); [|by eexists].
  intros row Hrow.
  destruct (lookup_ticker_total symbols (symbol_of row) (date_of row))
    as [[_ [ticker Ht]]|[Hnil _]]; [|by apply Hall in Hrow].
  rewrite Ht. simpl. by eexists.
Qed.
End RenameSymbolsFacts.

Lemma elem_of_kept_symbols symbols e :
  e ∈ kept_symbols symbols ↔
  e ∈ symbols ∧ (sym_Change_Date e.2 = None ∨ sym_Manual e.2 = Some true).
Proof. unfold kept_symbols. by rewrite list_elem_of_filter, (comm and). Qed.

(** What [detect_renames] returns is the kept entries, then the entries
    made from the history (none of them manual), without rows repeating
    columns, sorted. *)
Lemma detect_renames_Returns symbols history symbols' :
  detect_renames symbols history = Returns symbols' →
  ∃ active_renames,
    Forall (λ e : string * SymbolRename, sym_Manual e.2 = Some false) active_renames ∧
    symbols' ≡ₚ keep_first snd (kept_symbols symbols ++ active_renames).
Proof.
  unfold detect_renames.
  destruct (mapM _ _) as [active|] eqn:Hm; simpl; [|done]. intros [= <-].
  exists active. split; [|apply sort_values_Permutation].
  match type of Hm with
  | mapM _ ?l0 = _ =>
      assert (Hl : Forall (λ e : string * SymbolRename, sym_Manual e.2 = Some false) l0);
      [|revert active Hm; induction Hl as [|e l He _ IH]; intros active; simpl]
  end.
  - apply Forall_forall.
    by intros e [_ (r & -> & _)%list_elem_of_fmap]%list_elem_of_filter.
  - intros [= <-]. constructor.
  - destruct (currency_lookup _ _); simpl; [|done].
    destruct (mapM _ l) as [rows|]; simpl; [|done].
    intros [= <-]. constructor; [done|]. by apply IH.
Qed.

(** A manual entry is in the new table exactly when it is among the kept
    entries after their duplicates are dropped: the rename history has no
    part in it. *)
Lemma detect_renames_manual symbols history symbols' e :
  detect_renames symbols history = Returns symbols' →
  sym_Manual e.2 = Some true →
  (e ∈ symbols' ↔ e ∈ keep_first snd (kept_symbols symbols)).
Proof.
  intros (active & Hactive & Hperm)%detect_renames_Returns Hm.
  rewrite Hperm. unfold keep_first. rewrite drop_duplicated_app, elem_of_app.
  split; [|by left]. intros [?|[Hin _]%drop_duplicated_elem]; [done|].
  rewrite Forall_forall in Hactive. apply Hactive in Hin. congruence.
Qed.

(** X22.  Rename resolution.  On a trades frame where some Manual cell is
    filled in (so that the frame has the column), [apply_renames] returns
    when every imported trade, position and dividend has an entry of its
    symbol whose change date is null or not before the row's date.  When it
    returns, it has given each trade that is
    not manual, each position and each dividend the Ticker of such an entry
    with the smallest change date, null dates last (the canonical entry),
    and keeps the manual trades as they are.  When the symbols table is
    rebuilt from the rename history, whether a manual entry stays does not
    depend on the history: it stays unless an earlier kept entry has the
    very same columns. *)
Theorem apply_renames_spec (s : State) :
  (Exists (λ r : Hash * Trade, Manual r.2 ≠ None) (trades s) →
   (∀ r, r ∈ trades s → Manual r.2 = Some false →
      matching_renames (symbols s) (Symbol r.2) (Date_Time r.2) ≠ []) →
   (∀ p, p ∈ positions s →
      matching_renames (symbols s) (pos_Symbol p) (pos_Date p) ≠ []) →
   (∀ d, d ∈ dividends s →
      matching_renames (symbols s) (div_Symbol d) (div_Date d) ≠ []) →
   ∃ s', apply_renames s = Returns s') ∧
  (∀ s', apply_renames s = Returns s' →
     (∀ r, r ∈ trades s → Manual r.2 = Some false →
        ∃ e, canonical_entry (symbols s) (Symbol r.2) (Date_Time r.2) e ∧
             (r.1, set_Ticker (Some (sym_Ticker e.2)) r.2) ∈ trades s') ∧
     (∀ r, r ∈ trades s → Manual r.2 = Some true → r ∈ trades s') ∧
     (∀ p, p ∈ positions s →
        ∃ e, canonical_entry (symbols s) (pos_Symbol p) (pos_Date p) e ∧
             set_pos_Ticker (Some (sym_Ticker e.2)) p ∈ positions s') ∧
     (∀ d, d ∈ dividends s →
        ∃ e, canonical_entry (symbols s) (div_Symbol d) (div_Date d) e ∧
             set_div_Ticker (Some (sym_Ticker e.2)) d ∈ dividends s')) ∧
  (∀ history symbols' e,
     detect_renames (symbols s) history = Returns symbols' →
     e ∈ symbols s → sym_Manual e.2 = Some true →
     (e ∈ symbols' ↔ e ∈ keep_first snd (kept_symbols (symbols s))) ∧
     (∃ e', e' ∈ symbols' ∧ e'.2 = e.2) ∧
     (NoDup (snd <$> kept_symbols (symbols s)) → e ∈ symbols')).
Proof.
  split; [|split].
  - intros _ Ht Hp Hd. unfold apply_renames.
    edestruct (rename_symbols_total (λ r : Hash * Trade, Symbol r.2) (λ r, Date_Time r.2)
                 (λ v r, (r.1, set_Ticker v r.2)) (symbols s)) as [ts ->].
    { intros r [? ?]%list_elem_of_filter. by apply Ht. }
    simpl.
    edestruct (rename_symbols_total pos_Symbol pos_Date set_pos_Ticker (symbols s))
      as [ps ->]; [exact Hp|]. simpl.
    edestruct (rename_symbols_total div_Symbol div_Date set_div_Ticker (symbols s))
      as [ds ->]; [exact Hd|]. simpl. by eexists.
  - intros s'. unfold apply_renames.
    destruct (rename_symbols _ _ _ _ (filter _ (trades s))) as [ts|] eqn:Ets; [|done].
    simpl.
    destruct (rename_symbols _ _ _ _ (positions s)) as [ps|] eqn:Eps; [|done]. simpl.
    destruct (rename_symbols _ _ _ _ (dividends s)) as [ds|] eqn:Eds; [|done]. simpl.
    intros [= <-]. simpl.
    apply rename_symbols_Returns in Ets, Eps, Eds.
    split; [|split; [|split]].
    + intros r Hr Hm.
      assert (Hin : r ∈ filter (λ r : Hash * Trade, Manual r.2 = Some false) (trades s))
        by (by apply list_elem_of_filter).
      apply list_elem_of_lookup in Hin as [i Hi].
      destruct (Forall2_lookup_l _ _ _ _ _ Ets Hi) as (r' & Hr' & e & He & ->).
      exists e. split; [done|]. apply elem_of_app. left.
      by eapply list_elem_of_lookup_2.
    + intros r Hr Hm. apply elem_of_app. right. by apply list_elem_of_filter.
    + intros p [i Hi]%list_elem_of_lookup.
      destruct (Forall2_lookup_l _ _ _ _ _ Eps Hi) as (p' & Hp' & e & He & ->).
      exists e. split; [done|]. by eapply list_elem_of_lookup_2.
    + intros d [i Hi]%list_elem_of_lookup.
      destruct (Forall2_lookup_l _ _ _ _ _ Eds Hi) as (d' & Hd' & e & He & ->).
      exists e. split; [done|]. by eapply list_elem_of_lookup_2.
  - intros history symbols' e Hdet He Hm.
    assert (Hkept : e ∈ kept_symbols (symbols s)).
    { apply elem_of_kept_symbols. split; [done|by right]. }
    pose proof (detect_renames_manual _ _ _ e Hdet Hm) as Hiff.
    split; [done|]. split.
    + destruct (drop_duplicated_covers snd [] (kept_symbols (symbols s)) e Hkept)
        as [?%elem_of_nil|(e' & Heq & Hin)%list_elem_of_fmap]; [done|].
      exists e'. split; [|done].
      apply detect_renames_Returns in Hdet as (active & _ & Hperm).
      rewrite Hperm. unfold keep_first. rewrite drop_duplicated_app.
      apply elem_of_app. by left.
    + intros Hnd. apply Hiff. by rewrite keep_first_id.
Qed.

Lemma apply_renames_spec_witness :
  (∃ s', apply_renames FB_ledger = Returns s' ∧
         Ticker ∘ snd <$> trades s' = [Some "META"%string]) ∧
  (∀ symbols', detect_renames [manual_FB; auto_FB] FB_history = Returns symbols' →
               manual_FB ∈ symbols').
Proof.
  destruct (apply_renames_spec FB_ledger) as (Htotal & Hspec & _).
  destruct (apply_renames_spec (set_symbols [manual_FB; auto_FB] reset))
    as (_ & _ & Hsym).
  split.
  - destruct Htotal as [s' Hs'].
    + apply Exists_cons_hd. discriminate.
    + intros r ->%list_elem_of_singleton _. by vm_compute.
    + by intros p ?%elem_of_nil.
    + by intros d ?%elem_of_nil.
    + exists s'. split; [done|]. revert Hs'. vm_compute. by intros [= <-].
  - intros symbols' Hdet.
    destruct (Hsym FB_history symbols' manual_FB Hdet) as (_ & _ & Hin);
      [by left|done|].
    apply Hin. vm_compute. repeat constructor; set_solver.
Defined.

(** ** Lot matching *)

Module LotMatchingFacts.
Import Pairing LotMatching.

Lemma select_Some better lots lot rest :
  select better lots = Some (lot, rest) → lots ≡ₚ lot :: rest ∧ is_open lot.
Proof.
  revert lot rest. induction lots as [|l lots IH]; intros lot rest; simpl; [done|].
  destruct (select better lots) as [[b r]|].
  - destruct (bool_decide (is_open l) && negb (better b l)) eqn:Hc.
    + intros [= <- <-]. split; [done|].
      apply andb_true_iff in Hc as [Ho _]. by apply bool_decide_eq_true in Ho.
    + intros [= <- <-]. destruct (IH b r eq_refl) as [Hp Ho]. split; [|done].
      rewrite Hp. apply Permutation_swap.
  - destruct (decide (is_open l)); [|done]. by intros [= <- <-].
Qed.

Lemma select_None better lots :
  select better lots = None → Forall (λ l, ¬ is_open l) lots.
Proof.
  induction lots as [|l lots IH]; simpl; [constructor|].
  destruct (select better lots) as [[b r]|].
  - by destruct (bool_decide (is_open l) && negb (better b l)).
  - destruct (decide (is_open l)); [done|]. intros _. constructor; [done|]. by apply IH.
Qed.

Lemma total_remaining_Permutation l1 l2 :
  l1 ≡ₚ l2 → (total_remaining l1 == total_remaining l2)%Q.
Proof.
  induction 1 as [|x l1 l2 _ IH|x y l|l1 l2 l3 _ IH1 _ IH2]; simpl.
  - reflexivity.
  - by rewrite IH.
  - ring.
  - by rewrite IH1.
Qed.

Lemma sum_matched_nonneg pairs :
  Forall (λ p, (0 < matchedQuantity p)%Q) pairs → (0 <= sum_matched pairs)%Q.
Proof.
  induction 1 as [|p pairs Hp _ IH]; simpl; [apply Qle_refl|]. lra.
Qed.

(** The run that matches nothing. *)
Ltac empty_run closed :=
  simpl; split; [ring|]; split; [done|]; split; [constructor|];
  split; [closed|]; split; [ring|done].

(** What a run of the matching loop guarantees, given as many rounds as
    there are lots. *)
Lemma match_lots_spec rounds better c q lots pairs lots' uncovered :
  match_lots rounds better c q lots = (pairs, lots', uncovered) →
  (0 <= q)%Q → (length lots ≤ rounds)%nat →
  (sum_matched pairs + uncovered == q)%Q ∧
  (0 <= uncovered)%Q ∧
  Forall (λ p, (0 < matchedQuantity p)%Q ∧ closeTradeRef p = close_trade c ∧
               openTradeRef p ∈ lot_trade <$> lots) pairs ∧
  ((0 < uncovered)%Q → Forall (λ l, ¬ is_open l) lots') ∧
  (total_remaining lots' + sum_matched pairs == total_remaining lots)%Q ∧
  lot_trade <$> lots' ≡ₚ lot_trade <$> lots.
Proof.
  revert q lots pairs lots' uncovered.
  induction rounds as [|rounds IH]; intros q lots pairs lots' uncovered; simpl.
  - intros [= <- <- <-] Hq Hlen. destruct lots; [|simpl in Hlen; lia].
    empty_run ltac:(by constructor).
  - destruct (decide (0 < q)%Q) as [Hpos|Hnpos].
    2: { intros [= <- <- <-] Hq _. empty_run ltac:(intros ?; by destruct Hnpos). }
    destruct (select better lots) as [[lot rest]|] eqn:Hsel.
    2: { intros [= <- <- <-] Hq _.
         empty_run ltac:(intros _; by apply select_None in Hsel). }
    apply select_Some in Hsel as [Hperm Hopen]. unfold is_open in Hopen.
    destruct (match_lots rounds better c _ rest) as [[ps rest'] u] eqn:Hrec.
    intros [= <- <- <-] Hq Hlen.
    pose proof (Q.min_spec q (remainingQuantity lot)) as Hmin.
    set (m := Qmin q (remainingQuantity lot)) in *.
    assert (Hm : (0 < m ∧ m <= q ∧ m <= remainingQuantity lot)%Q).
    { destruct Hmin as [[? Hm]|[? Hm]]; rewrite Hm; repeat split; lra. }
    apply IH in Hrec as (Hsum & Hu & Hps & Hclosed & Htot & Hrefs);
      [|lra|apply Permutation_length in Hperm; simpl in Hperm; lia].
    assert (Hnn : (0 <= sum_matched ps)%Q).
    { apply sum_matched_nonneg. eapply Forall_impl; [exact Hps|]. naive_solver. }
    simpl. split; [lra|]. split; [done|]. split; [|split; [|split]].
    + constructor.
      * simpl. split; [apply Hm|]. split; [done|].
        rewrite Hperm. simpl. by left.
      * eapply Forall_impl; [exact Hps|]. intros p (? & ? & Hin).
        do 2 (split; [done|]). rewrite Hperm. simpl. by right.
    + intros Hupos. constructor; [|by apply Hclosed].
      unfold is_open. simpl.
      destruct Hmin as [[? Hm']|[? Hm']]; fold m in Hm'; lra.
    + rewrite (total_remaining_Permutation _ _ Hperm). simpl. lra.
    + rewrite Hperm. simpl. by rewrite Hrefs.
Qed.

Lemma working_lots_refs s lots l :
  l ∈ working_lots s lots → lot_trade l ∈ lot_trade <$> lots.
Proof.
  destruct s; simpl; try by apply list_elem_of_fmap_2.
  unfold average_lot. destruct (filter is_open lots) as [|first open] eqn:Hf.
  - by intros ?%elem_of_nil.
  - intros ->%list_elem_of_singleton. simpl.
    apply list_elem_of_fmap_2.
    assert (first ∈ filter is_open lots) as [_ ?]%list_elem_of_filter; [|done].
    rewrite Hf. by left.
Qed.

(** C6.  For a Close trade matched against the open lots under any
    strategy, the matched quantities of its Pairs and the uncovered
    quantity add up to the absolute quantity of the trade, and the uncovered
    quantity is not negative: the matched sum is at most the absolute
    quantity, with equality exactly when nothing is uncovered.  A positive
    uncovered quantity means that every lot is exhausted.  Each Pair matches
    a positive quantity of a lot that was there, and the lots lose what the
    Pairs match and nothing else. *)
Theorem match_close_conservation (s : Strategy) (c : CloseTrade) (lots : list Lot)
    pairs lots' uncovered :
  match_close s c lots = (pairs, lots', uncovered) →
  (sum_matched pairs <= Qabs (close_quantity c))%Q ∧
  (sum_matched pairs + uncovered == Qabs (close_quantity c))%Q ∧
  (0 <= uncovered)%Q ∧
  (sum_matched pairs == Qabs (close_quantity c) ↔ uncovered == 0)%Q ∧
  ((0 < uncovered)%Q → Forall (λ l, ¬ is_open l) lots') ∧
  Forall (λ p, (0 < matchedQuantity p)%Q ∧ closeTradeRef p = close_trade c ∧
               openTradeRef p ∈ lot_trade <$> lots) pairs ∧
  (total_remaining lots' + sum_matched pairs ==
   total_remaining (working_lots s lots))%Q ∧
  lot_trade <$> lots' ≡ₚ lot_trade <$> working_lots s lots.
Proof.
  unfold match_close. intros Hrun.
  apply match_lots_spec in Hrun as (Hsum & Hu & Hps & Hclosed & Htot & Hrefs);
    [|apply Qabs_nonneg|done].
  split; [lra|]. split; [done|]. split; [done|]. split; [split; lra|].
  split; [done|]. split; [|done].
  eapply Forall_impl; [exact Hps|]. intros p (? & ? & Hin).
  do 2 (split; [done|]).
  apply list_elem_of_fmap in Hin as (l & -> & Hl). by eapply working_lots_refs.
Qed.

Lemma match_close_conservation_witness :
  (sum_matched (match_close MaxProfit (sale_of 40) three_lots).1.1 <= 40)%Q ∧
  (0 < (match_close MaxProfit (sale_of 40) three_lots).2)%Q ∧
  Forall (λ l, ¬ is_open l) (match_close MaxProfit (sale_of 40) three_lots).1.2.
Proof.
  destruct (match_close MaxProfit (sale_of 40) three_lots) as [[pairs lots'] uncovered] eqn:E.
  destruct (match_close_conservation MaxProfit (sale_of 40) three_lots
              pairs lots' uncovered E) as (Hle & _ & _ & _ & Hclosed & _).
  assert (Hu : (0 < uncovered)%Q).
  { revert E. vm_compute. by intros [= _ _ <-]. }
  split; [exact Hle|]. split; [exact Hu|]. by apply Hclosed.
Defined.

(** FIFO takes ten from the first lot and five from the second; LIFO ten
    from the third and five from the second; average cost fifteen from one
    lot priced 20. *)
Lemma strategies_on_three_lots :
  (λ p, (openTradeRef p, matchedQuantity p)) <$>
    (match_close FIFO (sale_of 15) three_lots).1.1 =
    [("b1"%string, 10%Q); ("b2"%string, 5%Q)] ∧
  (λ p, (openTradeRef p, matchedQuantity p)) <$>
    (match_close LIFO (sale_of 15) three_lots).1.1 =
    [("b3"%string, 10%Q); ("b2"%string, 5%Q)] ∧
  (λ p, (matchedQuantity p, Qred (openPrice p))) <$>
    (match_close AverageCost (sale_of 15) three_lots).1.1 = [(15%Q, 20%Q)].
Proof. done. Qed.
End LotMatchingFacts.

(** C5.  The symbols table holds two manual entries that map FB and FB.OLD
    to META, and the rename history knows FB.OLD.  Rebuilding the table
    leaves FB.OLD with the entry made from the history only: its manual
    entry has the same columns as that of FB and is dropped as a
    duplicate. *)
Theorem detect_renames_loses_manual_entry :
  detect_renames grouped_by_hand FB_OLD_history =
    Returns [("FB.OLD"%string,
              {| sym_Ticker := "FBOLD"; sym_Change_Date := Some 500;
                 sym_Currency := Some "USD"%string; sym_Manual := Some false |});
             manual_entry "FB" "META"] ∧
  manual_entry "FB.OLD" "META" ∈ grouped_by_hand ∧
  manual_entry "FB.OLD" "META" ∉
    [("FB.OLD"%string,
      {| sym_Ticker := "FBOLD"; sym_Change_Date := Some 500;
         sym_Currency := Some "USD"%string; sym_Manual := Some false |});
     manual_entry "FB" "META"].
Proof.
  split; [done|]. split; [set_solver|].
  rewrite !elem_of_cons, elem_of_nil. by intros [|[|]].
Qed.
(** ** More about the merge of trade frames *)

Lemma filter_none {A} (P : A → Prop) `{!∀ x, Decision (P x)} (l : list A) :
  (∀ x, x ∈ l → ¬ P x) → filter P l = [].
Proof.
  induction l as [|x l IH]; intros Hl; [done|].
  rewrite filter_cons_False by (apply Hl; by left).
  apply IH. intros y Hy. apply Hl. by right.
Qed.

Section KeepFirstFacts.
Context {A K : Type} `{EqDecision K} (key : A → K).

Lemma keep_first_keys l k : k ∈ key <$> keep_first key l ↔ k ∈ key <$> l.
Proof.
  unfold keep_first. split.
  - intros (x & -> & Hx)%list_elem_of_fmap.
    apply drop_duplicated_elem in Hx as [Hx _]. by apply list_elem_of_fmap_2.
  - intros (x & -> & Hx)%list_elem_of_fmap.
    destruct (drop_duplicated_covers key [] l x Hx) as [H0|H0]; [|done].
    by apply elem_of_nil in H0.
Qed.

Lemma drop_duplicated_sublist s l : drop_duplicated key s l `sublist_of` l.
Proof.
  revert s. induction l as [|x l IH]; intros s; simpl; [constructor|].
  destruct (decide (key x ∈ s)).
  - by apply sublist_cons.
  - by apply sublist_skip.
Qed.

Lemma drop_duplicated_twice s s' l :
  drop_duplicated key s (drop_duplicated key s' l) = drop_duplicated key (s ++ s') l.
Proof.
  revert s s'. induction l as [|x l IH]; intros s s'; simpl; [done|].
  destruct (decide (key x ∈ s')) as [Hs'|Hs'].
  - rewrite decide_True by set_solver. apply IH.
  - simpl. destruct (decide (key x ∈ s)) as [Hs|Hs].
    + rewrite decide_True by set_solver. rewrite IH.
      apply drop_duplicated_ext. set_solver.
    + rewrite decide_False by set_solver. f_equal. rewrite IH.
      apply drop_duplicated_ext. set_solver.
Qed.

Lemma keep_first_app_l l1 l2 :
  keep_first key (keep_first key l1 ++ l2) = keep_first key (l1 ++ l2).
Proof.
  unfold keep_first. rewrite !drop_duplicated_app, !app_nil_r.
  rewrite drop_duplicated_twice. simpl. f_equal.
  apply drop_duplicated_ext. intros k. apply (keep_first_keys l1).
Qed.

Lemma keep_first_app_r l1 l2 :
  keep_first key (l1 ++ keep_first key l2) = keep_first key (l1 ++ l2).
Proof.
  unfold keep_first. rewrite !drop_duplicated_app, !app_nil_r.
  rewrite drop_duplicated_twice. by rewrite app_nil_r.
Qed.

Lemma keep_first_length_ge l1 l2 :
  NoDup (key <$> l2) → (length l2 ≤ length (keep_first key (l1 ++ l2)))%nat.
Proof.
  intros Hnd.
  rewrite <-(length_fmap key l2), <-(length_fmap key (keep_first key (l1 ++ l2))).
  apply submseteq_length, NoDup_submseteq; [done|].
  intros k Hk. apply keep_first_keys. rewrite fmap_app. set_solver.
Qed.
End KeepFirstFacts.

(** X1. [merge_trades] neither loses nor invents a trade: the hashes of the
    result are the hashes of the two frames together, and every row of the
    result is a row of one of them.  This holds in the edge cases as well
    (no existing frame, an empty new frame). *)
Theorem merge_trades_hashes (existing : option Trades) (new : Trades) :
  (∀ h, h ∈ (merge_trades existing new).*1 ↔
        h ∈ (default [] existing).*1 ∨ h ∈ new.*1) ∧
  (∀ r, r ∈ merge_trades existing new → r ∈ default [] existing ∨ r ∈ new).
Proof.
  destruct existing as [existing|]; simpl.
  2: { split; [set_solver|by right]. }
  destruct (decide (length new = 0%nat)) as [Hn|Hn].
  { apply length_zero_iff_nil in Hn as ->. split; [set_solver|by left]. }
  unfold drop_duplicated_index. split.
  - intros h. rewrite (keep_first_keys fst), fmap_app. set_solver.
  - intros r Hr. apply drop_duplicated_elem in Hr as [Hr _]. set_solver.
Qed.

Lemma merge_trades_append (existing new : Trades) :
  NoDup existing.*1 →
  ∃ added,
    merge_trades (Some existing) new = existing ++ added ∧
    added `sublist_of` new ∧
    NoDup (existing ++ added).*1 ∧
    (∀ h, h ∈ added.*1 ↔ h ∈ new.*1 ∧ h ∉ existing.*1).
Proof.
  intros Hnd. simpl.
  destruct (decide (length new = 0%nat)) as [Hn|Hn].
  { apply length_zero_iff_nil in Hn as ->. exists [].
    rewrite app_nil_r. split; [done|]. split; [done|]. split; [done|].
    set_solver. }
  exists (drop_duplicated fst existing.*1 new).
  assert (drop_duplicated_index (existing ++ new) =
          existing ++ drop_duplicated fst existing.*1 new) as Heq.
  { unfold drop_duplicated_index, keep_first.
    rewrite drop_duplicated_app, app_nil_r. f_equal.
    by apply (keep_first_id fst). }
  split; [done|]. split; [apply drop_duplicated_sublist|]. split.
  - rewrite <-Heq. apply drop_duplicated_NoDup.
  - intros h. split.
    + intros (x & -> & Hx)%list_elem_of_fmap.
      apply drop_duplicated_elem in Hx as [Hx Hs]. split; [|done].
      by apply list_elem_of_fmap_2.
    + intros [(x & -> & Hx)%list_elem_of_fmap Hs].
      destruct (drop_duplicated_covers fst existing.*1 new x Hx); done.
Qed.


(** X2. When the existing frame has no repeated hash, [merge_trades] keeps
    it as it is, rows and order, and appends rows of the new frame: those
    with a hash the existing frame does not have, once each.  So on a
    collision the row of the first argument stays, and the result has no
    repeated hash. *)
Theorem merge_trades_keeps_existing (existing new : Trades) :
  NoDup existing.*1 →
  ∃ added,
    merge_trades (Some existing) new = existing ++ added ∧
    added `sublist_of` new ∧
    NoDup (existing ++ added).*1 ∧
    (∀ h, h ∈ added.*1 ↔ h ∈ new.*1 ∧ h ∉ existing.*1).
Proof. apply merge_trades_append. Qed.

Lemma merge_trades_keeps_existing_witness :
  ∃ added,
    merge_trades (Some (trades reconciled_ledger)) (trades statement_again) =
      trades reconciled_ledger ++ added ∧
    added `sublist_of` trades statement_again ∧
    NoDup (trades reconciled_ledger ++ added).*1 ∧
    (∀ h, h ∈ added.*1 ↔
          h ∈ (trades statement_again).*1 ∧ h ∉ (trades reconciled_ledger).*1).
Proof.
  apply (merge_trades_keeps_existing (trades reconciled_ledger) (trades statement_again)).
  simpl. apply NoDup_singleton.
Defined.

(** X3. Merging is associative: three frames merged left to right give the
    frame that merging the last two first gives. *)
Theorem merge_trades_assoc (a b c : Trades) :
  merge_trades (Some (merge_trades (Some a) b)) c =
  merge_trades (Some a) (merge_trades (Some b) c).
Proof.
  destruct (decide (c = [])) as [->|Hc].
  { by destruct b. }
  rewrite (merge_trades_nonempty _ c Hc), (merge_trades_nonempty b c Hc).
  rewrite (merge_trades_nonempty a (drop_duplicated_index (b ++ c))).
  2: { apply drop_duplicated_index_nonempty. by destruct b. }
  unfold drop_duplicated_index. rewrite (keep_first_app_r fst).
  destruct (decide (b = [])) as [->|Hb]; [done|].
  rewrite (merge_trades_nonempty a b Hb). unfold drop_duplicated_index.
  by rewrite (keep_first_app_l fst), app_assoc.
Qed.

(** X4. The statements of a directory merged one after the other, each
    without a repeated hash: the result has no repeated hash, holds exactly
    the hashes of the statements, and for every hash the row of the first
    statement that has it. *)
Theorem merge_all_statements_spec (statements : list Trades) :
  Forall (λ t : Trades, NoDup t.*1) statements →
  match merge_all_statements statements with
  | None => statements = []
  | Some merged =>
      NoDup merged.*1 ∧
      (∀ h, h ∈ merged.*1 ↔ ∃ t, t ∈ statements ∧ h ∈ t.*1) ∧
      (∀ i t r, statements !! i = Some t → r ∈ t →
         (∀ j t', (j < i)%nat → statements !! j = Some t' → r.1 ∉ t'.*1) →
         r ∈ merged)
  end.
Proof.
  induction statements as [|t0 l IH] using rev_ind; [done|].
  intros [Hl Ht0]%Forall_app. rewrite Forall_singleton in Ht0.
  unfold merge_all_statements in *. rewrite foldl_app. simpl.
  specialize (IH Hl).
  destruct (foldl _ None l) as [m|] eqn:Hm.
  - destruct IH as (Hnd & Hh & Hfirst).
    destruct (merge_trades_append m t0 Hnd) as (added & -> & Hsub & Hnd' & Hadded).
    split; [done|]. split.
    + intros h. rewrite fmap_app, elem_of_app, Hh, Hadded. split.
      * intros [(t & Ht & Hht)|[Hht _]].
        -- exists t. split; [|done]. apply elem_of_app. by left.
        -- exists t0. split; [|done]. apply elem_of_app. right. by apply list_elem_of_singleton.
      * intros (t & [Ht|Ht%list_elem_of_singleton]%elem_of_app & Hht).
        -- left. by exists t.
        -- subst t. destruct (decide (h ∈ m.*1)) as [Hin|Hin].
           ++ left. by apply Hh.
           ++ by right.
    + intros i t r Hi Hr Hearlier. apply elem_of_app.
      destruct (decide (i < length l)%nat) as [Hlt|Hge].
      * left. rewrite lookup_app_l in Hi by done.
        apply (Hfirst i t r Hi Hr). intros j t' Hj Hj'.
        apply (Hearlier j t' Hj). rewrite lookup_app_l by lia. done.
      * right. rewrite lookup_app_r in Hi by lia.
        apply list_lookup_singleton_Some in Hi as [Hi <-].
        assert (r.1 ∉ m.*1) as Hnew.
        { intros (t' & Ht' & Hrt')%Hh.
          apply list_elem_of_lookup in Ht' as [j Hj].
          apply (Hearlier j t'); [|by rewrite lookup_app_l by (by eapply lookup_lt_Some)|done].
          apply lookup_lt_Some in Hj. lia. }
        assert (r.1 ∈ added.*1) as (r' & Heq & Hr')%list_elem_of_fmap.
        { apply Hadded. split; [by apply list_elem_of_fmap_2|done]. }
        assert (r' ∈ t0) as Hr't0 by (by eapply elem_of_sublist).
        destruct r as [h v], r' as [h' v']. simpl in *. subst h'.
        by rewrite (NoDup_fst_agree t0 h v v' Ht0 Hr Hr't0).
  - subst l. split; [done|]. split.
    + intros h. split.
      * intros Hh. exists t0. split; [by apply list_elem_of_singleton|done].
      * by intros (t & ->%list_elem_of_singleton & Hht).
    + intros i t r Hi Hr _. destruct i; simpl in Hi; [|done]. by simplify_eq.
Qed.

Lemma merge_all_statements_spec_witness :
  match merge_all_statements [trades reconciled_ledger; trades statement_with_new_trade] with
  | None => [trades reconciled_ledger; trades statement_with_new_trade] = []
  | Some merged =>
      NoDup merged.*1 ∧
      (∀ h, h ∈ merged.*1 ↔
            ∃ t, t ∈ [trades reconciled_ledger; trades statement_with_new_trade] ∧
                 h ∈ t.*1) ∧
      (∀ i t r,
         [trades reconciled_ledger; trades statement_with_new_trade] !! i = Some t →
         r ∈ t →
         (∀ j t', (j < i)%nat →
            [trades reconciled_ledger; trades statement_with_new_trade] !! j = Some t' →
            r.1 ∉ t'.*1) →
         r ∈ merged)
  end.
Proof.
  apply (merge_all_statements_spec
           [trades reconciled_ledger; trades statement_with_new_trade]).
  repeat constructor; simpl; set_solver.
Defined.

(** ** More about [State.merge_with] *)

(** X5. The count [merge_with] returns never exceeds the number of rows of
    the other state's trades; it is not negative when the trades of [self]
    have no repeated hash; and a merge of two ledgers without repeated
    hashes has no repeated hash. *)
Theorem merge_with_count_bounds dated (A B : State) (d : bool) :
  let S' := (merge_with dated A B d).1 in
  let c := (merge_with dated A B d).2 in
  c ≤ Z.of_nat (length (trades B)) ∧
  (NoDup (trades A).*1 → 0 ≤ c) ∧
  (NoDup (trades B).*1 → NoDup (trades S').*1).
Proof.
  intros S' c. subst S' c. rewrite merge_with_count, merge_with_trades.
  destruct (decide (trades A = [])) as [HA|HA].
  { rewrite HA. simpl. split; [lia|]. split; [lia|done]. }
  rewrite (merge_trades_nonempty _ _ HA). unfold drop_duplicated_index.
  split; [|split].
  - pose proof (length_drop_duplicated fst [] (trades B ++ trades A)) as Hle.
    rewrite length_app in Hle. unfold keep_first. lia.
  - intros Hnd. pose proof (keep_first_length_ge fst (trades B) (trades A) Hnd). lia.
  - intros _. apply drop_duplicated_NoDup.
Qed.

Lemma merge_with_count_bounds_witness :
  0 ≤ (merge_with Pairing.sellTime reconciled_ledger statement_with_new_trade true).2 ∧
  NoDup (trades (merge_with Pairing.sellTime reconciled_ledger
                   statement_with_new_trade true).1).*1.
Proof.
  destruct (merge_with_count_bounds Pairing.sellTime reconciled_ledger
              statement_with_new_trade true) as (_ & H1 & H2).
  split; [apply H1|apply H2]; simpl; apply NoDup_singleton.
Defined.

(** X6. After [merge_with], the open positions have pairwise different
    (Symbol, Date); a position of the result is a position of the other
    state, or one of [self] whose (Symbol, Date) the other state does not
    have; and every (Symbol, Date) of either state is still there.  The
    imports have no repeated row and are the imports of both states. *)
Theorem merge_with_positions dated (A B : State) (d : bool) :
  let S' := (merge_with dated A B d).1 in
  let key := λ p, (pos_Symbol p, pos_Date p) in
  NoDup (key <$> positions S') ∧
  (∀ p, p ∈ positions S' →
        p ∈ positions B ∨ (p ∈ positions A ∧ key p ∉ key <$> positions B)) ∧
  (∀ p, p ∈ positions A ∨ p ∈ positions B → key p ∈ key <$> positions S') ∧
  NoDup (imports S') ∧
  (∀ i, i ∈ imports S' ↔ i ∈ imports A ∨ i ∈ imports B).
Proof.
  intros S' key. subst S'. simpl. split; [apply drop_duplicated_NoDup|].
  split; [|split; [|split]].
  - intros p. unfold keep_first. rewrite drop_duplicated_app, app_nil_r.
    intros [Hp|Hp]%elem_of_app.
    + left. by apply drop_duplicated_elem in Hp as [Hp _].
    + right. by apply drop_duplicated_elem in Hp.
  - intros p Hp. apply keep_first_keys, list_elem_of_fmap_2.
    apply elem_of_app. tauto.
  - rewrite <-(list_fmap_id (keep_first id _)). apply drop_duplicated_NoDup.
  - intros i. rewrite <-elem_of_app.
    rewrite <-(list_fmap_id (keep_first id _)), (keep_first_keys id).
    by rewrite list_fmap_id.
Qed.

(** X7. The first and the empty import.  Merging into an empty state takes
    the trades, the actions and the symbols of the other state as they are
    and counts all its trades; the pairings stay empty, or are the other
    state's when pairings are not dropped.  Merging an empty state into a
    ledger without repeated hashes changes no trade, action or symbol and
    counts zero; when pairings are not dropped, the pairings are replaced by
    the empty ones. *)
Theorem merge_with_empty dated (S : State) (d : bool) :
  (let r := merge_with dated reset S d in
   trades r.1 = trades S ∧ r.2 = Z.of_nat (length (trades S)) ∧
   actions r.1 = actions S ∧ symbols r.1 = symbols S ∧
   pairings r.1 = if d then [] else pairings S) ∧
  (NoDup (trades S).*1 →
   let r := merge_with dated S reset d in
   trades r.1 = trades S ∧ r.2 = 0 ∧
   actions r.1 = actions S ∧ symbols r.1 = symbols S ∧
   pairings r.1 = if d then pairings S else []).
Proof.
  split.
  - simpl. split; [done|]. split; [lia|]. split.
    { destruct (decide _); [by rewrite app_nil_r|].
      destruct (actions S); [done|simpl in *; lia]. }
    split; [done|].
    destruct (bool_decide _), d; simpl; try done.
    by destruct (min_timestamp _).
  - intros Hnd r. subst r.
    assert (merge_trades (Some (trades reset)) (trades S) = trades S) as Heq.
    { destruct (decide (trades S = [])) as [->|Hne]; [done|].
      rewrite (merge_trades_nonempty _ _ Hne). by apply (keep_first_id fst). }
    assert ((merge_with dated S reset d).2 = 0) as Hc.
    { rewrite merge_with_count, Heq. lia. }
    split; [by rewrite merge_with_trades|]. split; [done|].
    split; [done|]. split; [simpl; by rewrite app_nil_r|].
    by rewrite merge_with_pairings_zero.
Qed.

Lemma merge_with_empty_witness :
  let r := merge_with Pairing.sellTime reconciled_ledger reset false in
  trades r.1 = trades reconciled_ledger ∧ r.2 = 0 ∧ pairings r.1 = [].
Proof.
  destruct (merge_with_empty Pairing.sellTime reconciled_ledger false) as [_ H].
  destruct H as (H1 & H2 & _ & _ & H3); [simpl; apply NoDup_singleton|].
  split; [exact H1|]. split; [exact H2|exact H3].
Defined.

(** ** More about sorting *)

Section SortFilterFacts.
Context {A : Type} (le : A → A → bool) (P : A → Prop) `{!∀ x, Decision (P x)}.

Lemma filter_sort_insert_False x l :
  ¬ P x → filter P (sort_insert le x l) = filter P l.
Proof.
  intros Hx. induction l as [|y l IH]; simpl.
  - by rewrite filter_cons_False.
  - destruct (le x y).
    + by rewrite filter_cons_False.
    + rewrite !filter_cons. by rewrite IH.
Qed.

Lemma sort_insert_front x l :
  Forall (λ y, le x y = true) l → sort_insert le x l = x :: l.
Proof. destruct 1 as [|y l Hy _]; simpl; [done|]. by rewrite Hy. Qed.

Lemma sort_values_sorted_id l :
  StronglySorted (λ a b, le a b = true) l → sort_values le l = l.
Proof.
  induction 1 as [|x l _ IH Hx]; simpl; [done|].
  rewrite IH. by apply sort_insert_front.
Qed.

Hypothesis le_total : ∀ x y, le x y = false → le y x = true.
Hypothesis le_trans : ∀ x y z, le x y = true → le y z = true → le x z = true.

Lemma filter_sort_insert_True x l :
  P x → StronglySorted (λ a b, le a b = true) l →
  filter P (sort_insert le x l) = sort_insert le x (filter P l).
Proof using le_trans.
  intros Hx. induction 1 as [|y l _ IH Hy]; simpl.
  - by rewrite filter_cons_True.
  - destruct (le x y) eqn:Hxy.
    + rewrite filter_cons_True by done.
      symmetry. apply sort_insert_front.
      apply Forall_forall. intros z Hz.
      apply list_elem_of_filter in Hz as [_ Hz].
      apply elem_of_cons in Hz as [->|Hz]; [done|].
      eapply le_trans; [exact Hxy|]. by eapply Forall_forall in Hy.
    + rewrite !(filter_cons _ y). destruct (decide (P y)); simpl.
      * by rewrite Hxy, IH.
      * done.
Qed.

(** Selecting rows commutes with sorting. *)
Lemma filter_sort_values l :
  filter P (sort_values le l) = sort_values le (filter P l).
Proof using le_total le_trans.
  induction l as [|x l IH]; simpl; [done|].
  rewrite (filter_cons _ x). destruct (decide (P x)); simpl.
  - rewrite filter_sort_insert_True, IH; [done|done|].
    by apply sort_values_sorted.
  - by rewrite filter_sort_insert_False.
Qed.
End SortFilterFacts.

Lemma by_Date_Time_total a b : by_Date_Time a b = false → by_Date_Time b a = true.
Proof.
  unfold by_Date_Time. intros H%bool_decide_eq_false. apply bool_decide_eq_true. lia.
Qed.

Lemma by_Date_Time_trans a b c :
  by_Date_Time a b = true → by_Date_Time b c = true → by_Date_Time a c = true.
Proof.
  unfold by_Date_Time. intros H1%bool_decide_eq_true H2%bool_decide_eq_true.
  apply bool_decide_eq_true. lia.
Qed.

(** ** More about the split ratio *)

(** The splits of one symbol, in time order. *)
Lemma splits_of_symbol (actions : list CorporateAction) (sym : string) :
  filter (λ a, ca_Symbol a = Some sym)
    (sort_values by_Date_Time (filter is_Split actions)) =
  sort_values by_Date_Time
    (filter (λ b, is_Split b ∧ ca_Symbol b = Some sym) actions).
Proof.
  rewrite filter_sort_values
    by (first [apply by_Date_Time_total | apply by_Date_Time_trans]).
  f_equal. rewrite list_filter_filter. apply filter_ext_elem. naive_solver.
Qed.

Lemma splitRatio_filter (actions : list CorporateAction) (sym : string) (t : Z) :
  splitRatio actions sym t =
  splitRatio (filter (λ b, is_Split b ∧ ca_Symbol b = Some sym) actions) sym t.
Proof.
  unfold splitRatio, cumulativeRatio. rewrite !splits_of_symbol.
  by rewrite filter_idemp_weaker by done.
Qed.

Lemma NoDup_fmap_agree {A B} (f : A → B) (l : list A) x y :
  NoDup (f <$> l) → x ∈ l → y ∈ l → f x = f y → x = y.
Proof.
  induction l as [|z l IH]; [by intros _ ?%elem_of_nil|].
  rewrite fmap_cons. intros [Hz Hnd]%NoDup_cons.
  rewrite !elem_of_cons. intros [->|Hx] [->|Hy] Hf; [done| | |by apply IH].
  - exfalso. apply Hz. rewrite Hf. by apply list_elem_of_fmap_2.
  - exfalso. apply Hz. rewrite <- Hf. by apply list_elem_of_fmap_2.
Qed.

(** Two sorted frames with the same rows are the same frame when no two
    different rows are level. *)
Lemma StronglySorted_Permutation_eq {A} (R : A → A → Prop) (l1 l2 : list A) :
  (∀ x y, x ∈ l1 → y ∈ l1 → R x y → R y x → x = y) →
  StronglySorted R l1 → StronglySorted R l2 → l1 ≡ₚ l2 → l1 = l2.
Proof.
  revert l2. induction l1 as [|x l1 IH]; intros l2 Hanti H1 H2 Hp.
  { by apply Permutation_nil_l in Hp. }
  destruct l2 as [|y l2]; [by apply Permutation_nil_r in Hp|].
  apply StronglySorted_inv in H1 as [H1 Hx].
  apply StronglySorted_inv in H2 as [H2 Hy].
  assert (x = y) as <-.
  { assert (x ∈ y :: l2) as Hxin by (rewrite <- Hp; left).
    assert (y ∈ x :: l1) as Hyin by (rewrite Hp; left).
    apply elem_of_cons in Hxin as [?|Hxin]; [done|].
    apply elem_of_cons in Hyin as [?|Hyin]; [done|].
    apply Hanti; [left|by right| |].
    - by eapply Forall_forall in Hx.
    - by eapply Forall_forall in Hy. }
  f_equal. apply IH; [|done|done|by apply Permutation_cons_inv in Hp].
  intros a b Ha Hb. apply Hanti; by right.
Qed.

(** Splits of different dates have one time order, whatever the order of
    the frame they come in. *)
Lemma sort_values_by_Date_Time_unique (l l' : list CorporateAction) :
  NoDup (ca_Date_Time <$> l) → l ≡ₚ l' →
  sort_values by_Date_Time l = sort_values by_Date_Time l'.
Proof.
  intros Hnd Hp.
  apply (StronglySorted_Permutation_eq (λ a b, by_Date_Time a b = true)).
  - intros x y Hx Hy Hxy Hyx. rewrite sort_values_Permutation in Hx, Hy.
    unfold by_Date_Time in Hxy, Hyx.
    apply bool_decide_eq_true in Hxy. apply bool_decide_eq_true in Hyx.
    apply (NoDup_fmap_agree ca_Date_Time l); [done..|lia].
  - apply sort_values_sorted; [apply by_Date_Time_total|apply by_Date_Time_trans].
  - apply sort_values_sorted; [apply by_Date_Time_total|apply by_Date_Time_trans].
  - by rewrite !sort_values_Permutation.
Qed.

Lemma splitRatio_Permutation (actions actions' : list CorporateAction)
    (sym : string) (t : Z) :
  NoDup (ca_Date_Time <$> filter (λ b, is_Split b ∧ ca_Symbol b = Some sym) actions) →
  filter (λ b, is_Split b ∧ ca_Symbol b = Some sym) actions ≡ₚ
  filter (λ b, is_Split b ∧ ca_Symbol b = Some sym) actions' →
  splitRatio actions sym t = splitRatio actions' sym t.
Proof.
  intros Hnd Hp. unfold splitRatio, cumulativeRatio. rewrite !splits_of_symbol.
  by rewrite (sort_values_by_Date_Time_unique _ _ Hnd Hp).
Qed.

(** X8. What [add_split_data] and [adjust_for_splits] make of a trade
    depends on the Split actions of the trade's own symbol only, and not on
    where they are in the frame: two non-empty frames of corporate actions
    that hold the same splits of that symbol, in any order and among any
    other actions, give the trade the same split ratio and the same
    adjusted row.  (The splits of the symbol have different dates: pandas
    promises no order among rows of one date.) *)
Theorem adjust_for_splits_own_splits (trades : Trades)
    (actions actions' : list CorporateAction) i h row :
  actions ≠ [] → actions' ≠ [] → trades !! i = Some (h, row) →
  NoDup (ca_Date_Time <$>
           filter (λ b, is_Split b ∧ ca_Symbol b = Some (Symbol row)) actions) →
  filter (λ b, is_Split b ∧ ca_Symbol b = Some (Symbol row)) actions ≡ₚ
  filter (λ b, is_Split b ∧ ca_Symbol b = Some (Symbol row)) actions' →
  add_split_data trades (Some actions) !! i =
    add_split_data trades (Some actions') !! i ∧
  adjust_for_splits trades (Some actions) !! i =
    adjust_for_splits trades (Some actions') !! i.
Proof.
  intros Hne Hne' Hrow Hnd Hp.
  pose proof (splitRatio_Permutation actions actions' (Symbol row) (Date_Time row)
                Hnd Hp) as Hr.
  rewrite !add_split_data_spec, !adjust_for_splits_assign by done.
  rewrite !(assign_lookup _ _ _ _ _ Hrow). by rewrite Hr.
Qed.

Lemma adjust_for_splits_own_splits_witness :
  adjust_for_splits [("h1"%string, aapl_buy)]
    (Some [split_action "MSFT" 50 3; split_action "AAPL" 200 (1 # 2);
           split_action "AAPL" 400 (1 # 4); split_action "MSFT" 300 (1 # 4)])
    !! 0%nat =
  adjust_for_splits [("h1"%string, aapl_buy)]
    (Some [split_action "AAPL" 400 (1 # 4); split_action "AAPL" 200 (1 # 2)])
    !! 0%nat.
Proof.
  refine (proj2 (adjust_for_splits_own_splits [("h1"%string, aapl_buy)] _ _
                   0 "h1" aapl_buy _ _ _ _ _));
    [discriminate|discriminate|reflexivity| |].
  - apply (bool_decide_unpack _). by vm_compute.
  - apply (Permutation_swap (split_action "AAPL" 400 (1 # 4))
             (split_action "AAPL" 200 (1 # 2)) []).
Defined.

Lemma cumulativeRatio_elem (actions : list CorporateAction) (sym : string) ac :
  ac ∈ cumulativeRatio actions sym →
  ac.1 ∈ actions ∧ is_Split ac.1 ∧ ca_Symbol ac.1 = Some sym.
Proof.
  unfold cumulativeRatio. destruct ac as [a c]. intros Ha%elem_of_zip_l. simpl.
  apply list_elem_of_filter in Ha as [Hsym Ha].
  rewrite sort_values_Permutation in Ha.
  apply list_elem_of_filter in Ha as [Hsplit Ha]. done.
Qed.

(** X9. With a non-empty frame of corporate actions, a trade that no split
    of its symbol is dated after gets the split ratio 1, and its quantity
    and price are, as numbers, the original ones. *)
Theorem adjust_for_splits_after_splits (trades : Trades)
    (actions : list CorporateAction) i h row :
  actions ≠ [] → trades !! i = Some (h, row) →
  (∀ a, a ∈ actions → is_Split a → ca_Symbol a = Some (Symbol row) →
        ca_Date_Time a ≤ Date_Time row) →
  ∃ row', adjust_for_splits trades (Some actions) !! i = Some (h, row') ∧
    Split_Ratio row' = Some 1%Q ∧
    (∀ q, Orig_Quantity row = Some q →
          ∃ q', Quantity row' = Some q' ∧ (q' == q)%Q) ∧
    (∀ p, Orig_T_Price row = Some p →
          ∃ p', T_Price row' = Some p' ∧ (p' == p)%Q).
Proof.
  intros Hne Hrow Hlate.
  assert (splitRatio actions (Symbol row) (Date_Time row) = 1%Q) as Hr.
  { unfold splitRatio. rewrite filter_none; [done|].
    intros ac Hac.
    apply cumulativeRatio_elem in Hac as (Ha & Hsplit & Hsym).
    specialize (Hlate _ Ha Hsplit Hsym). lia. }
  eexists. split.
  { rewrite adjust_for_splits_assign by done. by apply assign_lookup. }
  rewrite Hr. split; [by destruct row|]. split.
  - intros q Hq. exists (q * 1)%Q. split; [|ring].
    destruct row; simpl in *. by rewrite Hq.
  - intros p Hp. exists (p / 1)%Q. split; [|field].
    destruct row; simpl in *. by rewrite Hp.
Qed.

Lemma adjust_for_splits_after_splits_witness :
  ∃ row', adjust_for_splits [("h1"%string, aapl_buy)]
            (Some [split_action "AAPL" 50 (1 # 2)]) !! 0%nat = Some ("h1"%string, row') ∧
    Split_Ratio row' = Some 1%Q.
Proof.
  destruct (adjust_for_splits_after_splits [("h1"%string, aapl_buy)]
              [split_action "AAPL" 50 (1 # 2)] 0 "h1" aapl_buy)
    as (row' & H1 & H2 & _).
  - discriminate.
  - reflexivity.
  - intros a ->%list_elem_of_singleton _ _. simpl. lia.
  - exists row'. split; [exact H1|exact H2].
Defined.

Lemma Permutation_pair {A} (l : list A) (x y : A) :
  l ≡ₚ [x; y] → l = [x; y] ∨ l = [y; x].
Proof.
  intros Hp. pose proof (Permutation_length Hp) as Hlen.
  destruct l as [|a [|b [|c l]]]; try done. clear Hlen.
  assert (a ∈ [x; y]) as Ha by (rewrite <-Hp; set_solver).
  apply elem_of_cons in Ha as [->|Ha%list_elem_of_singleton].
  - apply Permutation_cons_inv, Permutation_singleton_r in Hp. left. congruence.
  - subst a. rewrite (Permutation_swap y x []) in Hp.
    apply Permutation_cons_inv, Permutation_singleton_r in Hp. right. congruence.
Qed.

Lemma splitRatio_of_two_splits (actions : list CorporateAction) s1 s2 sym r1 r2 t :
  filter (λ b, is_Split b ∧ ca_Symbol b = Some sym) actions ≡ₚ [s1; s2] →
  ca_Ratio s1 = Some r1 → ca_Ratio s2 = Some r2 →
  ca_Date_Time s1 < ca_Date_Time s2 →
  (ca_Date_Time s1 ≤ t < ca_Date_Time s2 →
   splitRatio actions sym t = (1 / (r1 * r2))%Q) ∧
  (t < ca_Date_Time s1 →
   splitRatio actions sym t = (1 / Qmin r1 (r1 * r2))%Q) ∧
  (ca_Date_Time s2 ≤ t → splitRatio actions sym t = 1%Q).
Proof.
  intros Hp Hr1 Hr2 Hlt.
  assert (sort_values by_Date_Time
            (filter (λ b, is_Split b ∧ ca_Symbol b = Some sym) actions) = [s1; s2])
    as Hsorted.
  { apply Permutation_pair in Hp as [-> | ->]; simpl; unfold by_Date_Time.
    - by rewrite bool_decide_eq_true_2 by lia.
    - by rewrite bool_decide_eq_false_2 by lia. }
  unfold splitRatio, cumulativeRatio. rewrite splits_of_symbol, Hsorted.
  simpl. rewrite Hr1, Hr2. simpl.
  split; [|split]; intros Ht.
  - rewrite filter_cons_False by (simpl; lia).
    rewrite filter_cons_True by (simpl; lia). done.
  - rewrite filter_cons_True by (simpl; lia).
    rewrite filter_cons_True by (simpl; lia). done.
  - rewrite filter_cons_False by (simpl; lia).
    rewrite filter_cons_False by (simpl; lia). done.
Qed.

(** X10. The frame of corporate actions holds exactly two splits of the
    symbol of a trade, of ratios [r1] and then [r2] (positive, as the ratio
    of a split is).  [adjust_for_splits] gives a trade dated between them
    (at or after the first, before the second) the split ratio
    1 / (r1 * r2): the earlier split enters the ratio too.  It gives a
    trade dated before both 1 over the smaller of [r1] and [r1 * r2], and a
    trade at or after the second 1.  The quantity of the row is the
    original quantity times that ratio and the price the original price
    divided by it. *)
Theorem adjust_for_splits_two_splits (trades : Trades)
    (actions : list CorporateAction) s1 s2 r1 r2 i h row :
  trades !! i = Some (h, row) →
  filter (λ b, is_Split b ∧ ca_Symbol b = Some (Symbol row)) actions ≡ₚ [s1; s2] →
  ca_Ratio s1 = Some r1 → ca_Ratio s2 = Some r2 →
  (0 < r1)%Q → (0 < r2)%Q →
  ca_Date_Time s1 < ca_Date_Time s2 →
  ∃ row', adjust_for_splits trades (Some actions) !! i = Some (h, row') ∧
    (ca_Date_Time s1 ≤ Date_Time row < ca_Date_Time s2 →
     Split_Ratio row' = Some (1 / (r1 * r2))%Q) ∧
    (Date_Time row < ca_Date_Time s1 →
     Split_Ratio row' = Some (1 / Qmin r1 (r1 * r2))%Q) ∧
    (ca_Date_Time s2 ≤ Date_Time row → Split_Ratio row' = Some 1%Q) ∧
    Quantity row' = num_mul (Orig_Quantity row) (Split_Ratio row') ∧
    T_Price row' = num_div (Orig_T_Price row) (Split_Ratio row').
Proof.
  intros Hrow Hp Hr1 Hr2 _ _ Hlt.
  assert (actions ≠ []) as Hne.
  { intros ->. by apply Permutation_nil_l in Hp. }
  destruct (splitRatio_of_two_splits actions s1 s2 (Symbol row) r1 r2 (Date_Time row)
              Hp Hr1 Hr2 Hlt) as (Hmid & Hbefore & Hafter).
  eexists. split.
  { rewrite adjust_for_splits_assign by done. by apply assign_lookup. }
  split; [|split; [|split; [|split]]].
  - intros Ht. rewrite <- (Hmid Ht). by destruct row.
  - intros Ht. rewrite <- (Hbefore Ht). by destruct row.
  - intros Ht. rewrite <- (Hafter Ht). by destruct row.
  - by destruct row.
  - by destruct row.
Qed.

Lemma adjust_for_splits_two_splits_witness :
  ∃ row', adjust_for_splits [("h1"%string, aapl_buy)]
            (Some [split_action "AAPL" 50 (1 # 4); split_action "MSFT" 250 (1 # 3);
                   split_action "AAPL" 200 (1 # 2)]) !! 0%nat =
          Some ("h1"%string, row') ∧
    Split_Ratio row' = Some (1 / ((1 # 4) * (1 # 2)))%Q.
Proof.
  destruct (adjust_for_splits_two_splits [("h1"%string, aapl_buy)]
              [split_action "AAPL" 50 (1 # 4); split_action "MSFT" 250 (1 # 3);
               split_action "AAPL" 200 (1 # 2)]
              (split_action "AAPL" 50 (1 # 4)) (split_action "AAPL" 200 (1 # 2))
              (1 # 4) (1 # 2) 0 "h1" aapl_buy)
    as (row' & H1 & H2 & _); [reflexivity|done|done|done|done|done|simpl; lia|].
  exists row'. split; [exact H1|]. apply H2. simpl. lia.
Defined.

(** ** Accumulated positions *)

Section CumsumFacts.
Context {K : Type} `{Countable K} (key : Trade → option K).

Lemma length_groupby_cumsum acc (l : Trades) :
  length (groupby_cumsum key acc l) = length l.
Proof.
  revert acc. induction l as [|r l IH]; intros acc; simpl; [done|].
  destruct (key r.2), (Quantity r.2); simpl; by rewrite IH.
Qed.

Lemma groupby_cumsum_ext acc (l l' : Trades) :
  Forall2 (same_group key) l l' → groupby_cumsum key acc l = groupby_cumsum key acc l'.
Proof.
  intros Hl. revert acc. induction Hl as [|r r' l l' [Hk Hq] _ IH]; intros acc; simpl; [done|].
  rewrite <-Hk, <-Hq. destruct (key r.2), (Quantity r.2); by rewrite IH.
Qed.


End CumsumFacts.

Lemma zip_with_zip_with {A B C D E} (f1 : A → B → D) (f2 : D → C → E)
    (l : list A) (a : list B) (b : list C) :
  zip_with f2 (zip_with f1 l a) b =
  zip_with (λ r ab, f2 (f1 r ab.1) ab.2) l (zip a b).
Proof.
  revert a b. induction l as [|x l IH]; intros [|y a] [|z b]; simpl; try done.
  by rewrite IH.
Qed.

Lemma zip_with_again {A B} (g : A → B → A) (l : list A) (k : list B) :
  (∀ x y, g (g x y) y = g x y) → zip_with g (zip_with g l k) k = zip_with g l k.
Proof.
  intros Hg. revert k. induction l as [|x l IH]; intros [|y k]; simpl; try done.
  by rewrite Hg, IH.
Qed.

Lemma StronglySorted_Forall2 {A} (R R' : A → A → Prop) (T : A → A → Prop)
    (l l' : list A) :
  (∀ x y x' y', T x x' → T y y' → R x y → R' x' y') →
  Forall2 T l l' → StronglySorted R l → StronglySorted R' l'.
Proof.
  intros HT Hl. induction Hl as [|x x' l l' Hx Hl IH]; intros Hs; [constructor|].
  apply StronglySorted_inv in Hs as [Hs Hall]. constructor; [by apply IH|].
  clear IH Hs. induction Hl as [|y y' l l' Hy _ IH]; [constructor|].
  apply Forall_cons in Hall as [Hxy Hall]. constructor; [by eapply HT|by apply IH].
Qed.

Lemma by_trade_time_total a b : by_trade_time a b = false → by_trade_time b a = true.
Proof.
  unfold by_trade_time. intros Hf%bool_decide_eq_false. apply bool_decide_eq_true. lia.
Qed.

Lemma by_trade_time_trans a b c :
  by_trade_time a b = true → by_trade_time b c = true → by_trade_time a c = true.
Proof.
  unfold by_trade_time. intros H1%bool_decide_eq_true H2%bool_decide_eq_true.
  apply bool_decide_eq_true. lia.
Qed.

Lemma accumulated_of_same_group {K} `{Countable K} (key : Trade → option K) r r' :
  (∀ a t, key (set_Accumulated_Quantity a t) = key t) →
  (∀ a t, key (set_Account_Accumulated_Quantity a t) = key t) →
  accumulated_of r r' → same_group key r r'.
Proof. intros H1 H2 [ab ->]. split; simpl; [|done]. by rewrite H2, H1. Qed.

Lemma zip_with_Forall2 {A B} (T : A → A → Prop) (g : A → B → A) (l : list A) (k : list B) :
  length l = length k → (∀ x y, T x (g x y)) → Forall2 T l (zip_with g l k).
Proof.
  intros Hlen Hg. revert k Hlen. induction l as [|x l IH]; intros [|y k] Hlen;
    simpl in *; try done; try constructor; [done|].
  apply IH. lia.
Qed.

(** The frame [compute_accumulated_positions] returns: the sorted rows, each
    with the cumulative sums of its two groups. *)
Lemma compute_accumulated_positions_rows (trades : Trades) (symbols : Symbols) :
  let sorted := sort_values by_trade_time trades in
  compute_accumulated_positions trades symbols =
  zip_with with_accumulated sorted
    (zip (groupby_cumsum instrument ∅ sorted)
         (groupby_cumsum account_instrument ∅ sorted)).
Proof.
  intros sorted. unfold compute_accumulated_positions. fold sorted.
  rewrite (groupby_cumsum_ext account_instrument ∅ _ sorted).
  - by rewrite zip_with_zip_with.
  - apply Forall2_flip.
    apply (zip_with_Forall2 (λ r' r, same_group account_instrument r r')).
    + by rewrite length_groupby_cumsum.
    + intros r a. done.
Qed.

Lemma compute_accumulated_positions_Forall2 (trades : Trades) (symbols : Symbols) :
  Forall2 accumulated_of (sort_values by_trade_time trades)
    (compute_accumulated_positions trades symbols).
Proof.
  rewrite compute_accumulated_positions_rows.
  apply (zip_with_Forall2 accumulated_of).
  - by rewrite length_zip, !length_groupby_cumsum, Nat.min_id.
  - intros r ab. by exists ab.
Qed.

Lemma compute_accumulated_positions_sorted (trades : Trades) (symbols : Symbols) :
  StronglySorted (λ a b, by_trade_time a b = true)
    (compute_accumulated_positions trades symbols).
Proof.
  eapply StronglySorted_Forall2;
    [|apply compute_accumulated_positions_Forall2|
      apply sort_values_sorted; [apply by_trade_time_total|apply by_trade_time_trans]].
  by intros x y x' y' [? ->] [? ->].
Qed.

(** X12. [compute_accumulated_positions] loses and adds no trade: the
    hashes of the result are those of the frame, rearranged; the result is
    in ascending time order; and every row of it is a row of the frame with
    its hash, changed in the two accumulated quantities at most.  The symbols
    table it is given plays no part. *)
Theorem compute_accumulated_positions_frame (trades : Trades) (symbols : Symbols) :
  let result := compute_accumulated_positions trades symbols in
  result.*1 ≡ₚ trades.*1 ∧
  StronglySorted (λ a b : Hash * Trade, Date_Time a.2 ≤ Date_Time b.2) result ∧
  (∀ r', r' ∈ result →
     ∃ row a b, (r'.1, row) ∈ trades ∧
       r'.2 = set_Account_Accumulated_Quantity b (set_Accumulated_Quantity a row)) ∧
  (∀ symbols', compute_accumulated_positions trades symbols' = result).
Proof.
  intros result. subst result.
  pose proof (compute_accumulated_positions_Forall2 trades symbols) as HF.
  split; [|split; [|split]].
  - assert ((compute_accumulated_positions trades symbols).*1 =
            (sort_values by_trade_time trades).*1) as ->.
    { symmetry. apply list_eq_Forall2, Forall2_fmap. eapply Forall2_impl; [exact HF|].
      by intros r r' [ab ->]. }
    by rewrite sort_values_Permutation.
  - pose proof (compute_accumulated_positions_sorted trades symbols) as Hs.
    eapply (StronglySorted_Forall2 _ _ eq); [|by apply list_eq_Forall2|exact Hs].
    simpl. intros x y _ _ <- <- Hxy. by apply bool_decide_eq_true in Hxy.
  - intros r' Hr'. apply list_elem_of_lookup in Hr' as [i Hi].
    destruct (Forall2_lookup_r _ _ _ _ _ HF Hi) as (r & Hr & ab & ->).
    exists r.2, ab.1, ab.2. split; [|done]. simpl.
    apply list_elem_of_lookup_2 in Hr.
    rewrite sort_values_Permutation in Hr. by destruct r.
  - done.
Qed.




(** X14. Computing the accumulated positions of a frame that has them
    already changes nothing.  (The trades have different timestamps: pandas
    promises no order among rows of one timestamp.) *)
Theorem compute_accumulated_positions_idempotent (trades : Trades)
    (symbols symbols' : Symbols) :
  NoDup (Date_Time ∘ snd <$> trades) →
  compute_accumulated_positions (compute_accumulated_positions trades symbols) symbols' =
  compute_accumulated_positions trades symbols.
Proof.
  intros _.
  rewrite (compute_accumulated_positions_rows (compute_accumulated_positions _ _)).
  simpl.
  rewrite (sort_values_sorted_id by_trade_time)
    by apply compute_accumulated_positions_sorted.
  pose proof (compute_accumulated_positions_Forall2 trades symbols) as HF.
  rewrite <-(groupby_cumsum_ext instrument ∅ _ _
               (Forall2_impl _ _ _ _ HF
                  (λ r r', accumulated_of_same_group instrument r r'
                             (λ _ _, eq_refl) (λ _ _, eq_refl)))).
  rewrite <-(groupby_cumsum_ext account_instrument ∅ _ _
               (Forall2_impl _ _ _ _ HF
                  (λ r r', accumulated_of_same_group account_instrument r r'
                             (λ _ _, eq_refl) (λ _ _, eq_refl)))).
  rewrite compute_accumulated_positions_rows. simpl.
  apply zip_with_again. by intros [h []] [a b].
Qed.

Lemma compute_accumulated_positions_idempotent_witness :
  compute_accumulated_positions
    (compute_accumulated_positions oversold_history []) [] =
  compute_accumulated_positions oversold_history [].
Proof.
  apply compute_accumulated_positions_idempotent.
  apply (bool_decide_unpack _). by vm_compute.
Defined.





(** ** Unmatched transfers *)






(** ** More about the corporate action descriptions *)

Lemma split_pattern_split_text (sym id n m rest : string) :
  sym ≠ ""%string → Forall (λ c, is_word_or_dot c = true) (chars sym) →
  id ≠ ""%string → Forall (λ c, is_word c = true) (chars id) →
  n ≠ ""%string → Forall (λ c, is_digit c = true) (chars n) →
  m ≠ ""%string → Forall (λ c, is_digit c = true) (chars m) →
  no_leading_digit rest →
  split_pattern (chars (split_text sym id n m rest)) =
  Some (chars sym, chars n, chars m).
Proof.
  intros Hs Hsw Hi Hiw Hn Hnd Hm Hmd Hr. unfold split_text, split_pattern.
  rewrite !chars_app.
  rewrite many1_app by (done || by apply chars_nonempty). simpl.
  rewrite many1_app by (done || by apply chars_nonempty). simpl.
  rewrite many1_app by (done || by apply chars_nonempty). simpl.
  rewrite many1_app; [done|by apply chars_nonempty|done|apply Hr].
Qed.

(** X18. The description "SYM(ID) Split N for M", with numbers N and M of
    at most 15 digits (which [float] reads exactly), parses to a Split
    action of the symbol whose ratio is the quotient of M by N, old for new;
    when N is zero the parser raises ZeroDivisionError. *)
Theorem parse_split_text_ratio (sym id n m rest : string) :
  sym ≠ ""%string → Forall (λ c, is_word_or_dot c = true) (chars sym) →
  id ≠ ""%string → Forall (λ c, is_word c = true) (chars id) →
  n ≠ ""%string → Forall (λ c, is_digit c = true) (chars n) →
  m ≠ ""%string → Forall (λ c, is_digit c = true) (chars m) →
  (length (chars n) ≤ 15)%nat → (length (chars m) ≤ 15)%nat →
  no_leading_digit rest →
  let outcome :=
    if decide (float_of_digits (chars n) == 0)%Q then Raises ZeroDivisionError
    else Returns (Some "Split"%string, Some sym,
                  Some (float_of_digits (chars m) / float_of_digits (chars n))%Q,
                  None) in
  parse_split_text (split_text sym id n m rest) = outcome ∧
  parse_action_text (split_text sym id n m rest) = outcome.
Proof.
  intros Hs Hsw Hi Hiw Hn Hnd Hm Hmd _ _ Hr outcome.
  assert (parse_split_text (split_text sym id n m rest) = outcome) as Hsplit.
  { unfold parse_split_text.
    pose proof (split_pattern_split_text sym id n m rest Hs Hsw Hi Hiw Hn Hnd Hm Hmd Hr)
      as Hp.
    unfold chars in Hp at 1.
    rewrite (re_search_here _ _ _ Hp). unfold outcome, float_div.
    destruct (decide (float_of_digits (chars n) == 0)%Q); [done|]. simpl.
    unfold str, chars. by rewrite String.string_of_list_ascii_of_string. }
  split; [done|]. unfold parse_action_text. rewrite Hsplit. unfold outcome.
  by destruct (decide (float_of_digits (chars n) == 0)%Q).
Qed.

Lemma parse_split_text_ratio_witness :
  parse_action_text
    (split_text "AAPL" "US0378331005" "4" "1" " (AAPL, APPLE INC, US0378331005)") =
  Returns (Some "Split"%string, Some "AAPL"%string,
           Some (float_of_digits (chars "1") / float_of_digits (chars "4"))%Q, None).
Proof.
  refine (proj2 (parse_split_text_ratio "AAPL" "US0378331005" "4" "1"
                   " (AAPL, APPLE INC, US0378331005)" _ _ _ _ _ _ _ _ _ _ _));
    first [discriminate | by repeat constructor | simpl; lia].
Defined.

Lemma digits_value_nonneg (l : list ascii) : 0 ≤ digits_value l.
Proof.
  unfold digits_value.
  assert (∀ n0, 0 ≤ n0 → 0 ≤ foldl (λ n c, 10 * n + Z.of_nat (code c - 48)) n0 l)
    as Hgen.
  { induction l as [|c l IH]; intros n0 Hn0; simpl; [done|]. apply IH. lia. }
  by apply Hgen.
Qed.

Lemma float_of_digits_nonneg (l : list ascii) : (0 <= float_of_digits l)%Q.
Proof.
  unfold float_of_digits, Qle. simpl. pose proof (digits_value_nonneg l). lia.
Qed.

Lemma parse_split_text_cases (t : string) :
  parse_split_text t = Raises ZeroDivisionError ∨
  (∃ s r, parse_split_text t = Returns (Some "Split"%string, Some s, Some r, None) ∧
          (0 <= r)%Q) ∨
  parse_split_text t = Returns no_match.
Proof.
  unfold parse_split_text.
  destruct (re_search split_pattern _) as [[[g1 g2] g3]|]; [|by right; right].
  unfold float_div. destruct (decide _) as [|Hne]; simpl; [by left|].
  right. left. eexists _, _. split; [done|].
  pose proof (float_of_digits_nonneg g2). pose proof (float_of_digits_nonneg g3).
  apply Qle_shift_div_l; lra.
Qed.

Lemma parse_spinoff_text_cases (t : string) :
  parse_spinoff_text t = Raises ZeroDivisionError ∨
  (∃ s r, parse_spinoff_text t =
          Returns (Some "Spinoff"%string, Some s, Some r, None)) ∨
  parse_spinoff_text t = Returns no_match.
Proof.
  unfold parse_spinoff_text.
  destruct (spinoff_pattern _) as [[[g2 g3] g4]|]; [|by right; right].
  unfold float_div. destruct (decide _); simpl; [by left|].
  right. left. by eexists _, _.
Qed.

Lemma parse_acquisition_text_cases (t : string) :
  parse_acquisition_text t = Raises ZeroDivisionError ∨
  (∃ s r tg, parse_acquisition_text t =
             Returns (Some "Acquisition"%string, Some s, Some r, tg)) ∨
  parse_acquisition_text t = Returns no_match.
Proof.
  unfold parse_acquisition_text.
  destruct (acquisition_for_pattern _) as [[[g1 int] frac]|].
  { right. left. by eexists _, _, _. }
  destruct (acquisition_with_pattern _) as [[[[g1 g3] g4] g5]|]; [|by right; right].
  unfold float_div. destruct (decide _); simpl; [by left|].
  right. left. by eexists _, _, _.
Qed.

(** X19. What [parse_action_text] can give.  The only exception it raises
    is ZeroDivisionError.  The action it returns is never missing: it is
    Split, Spinoff or Acquisition, each with a symbol and a ratio (that of a
    split is not negative); or Unknown, with the leading symbol and the ratio
    0 when the description starts with SYMBOL(ID), and with nothing
    otherwise; or Dividend, and then the description contains "Dividend" and
    does not start with SYMBOL(ID). *)
Theorem parse_action_text_outcome (t : string) :
  (∀ e, parse_action_text t = Raises e → e = ZeroDivisionError) ∧
  (∀ action symbol ratio target,
     parse_action_text t = Returns (action, symbol, ratio, target) →
     (action = Some "Split"%string ∧ is_Some symbol ∧
      (∃ r, ratio = Some r ∧ (0 <= r)%Q) ∧ target = None) ∨
     (action = Some "Spinoff"%string ∧ is_Some symbol ∧ is_Some ratio ∧
      target = None) ∨
     (action = Some "Acquisition"%string ∧ is_Some symbol ∧ is_Some ratio) ∨
     (action = Some "Unknown"%string ∧ target = None ∧
      ((∃ g, header_pattern (chars t) = Some g ∧
             symbol = Some (str g) ∧ ratio = Some 0%Q) ∨
       (header_pattern (chars t) = None ∧ contains "Dividend" (chars t) = false ∧
        symbol = None ∧ ratio = None))) ∨
     (action = Some "Dividend"%string ∧ symbol = None ∧ ratio = None ∧
      target = None ∧ header_pattern (chars t) = None ∧
      contains "Dividend" (chars t) = true)).
Proof.
  unfold parse_action_text, chars.
  destruct (parse_split_text_cases t) as [-> | [(s & r & -> & Hr) | ->]].
  { split; [by intros e [= <-]|done]. }
  { split; [done|]. intros a sy ra tg [= <- <- <- <-]. left.
    split; [done|]. split; [by eexists|]. split; [by eexists|done]. }
  change (no_action no_match) with true. cbv iota. simpl mbind at 1.
  destruct (parse_spinoff_text_cases t) as [-> | [(s & r & ->) | ->]].
  { split; [by intros e [= <-]|done]. }
  { split; [done|]. intros a sy ra tg [= <- <- <- <-]. right. left.
    split; [done|]. split; [by eexists|]. split; [by eexists|done]. }
  change (no_action no_match) with true. cbv iota.
  destruct (parse_acquisition_text_cases t) as [-> | [(s & r & tg' & ->) | ->]].
  { split; [by intros e [= <-]|done]. }
  { split; [done|]. intros a sy ra tg [= <- <- <- <-]. right. right. left.
    split; [done|]. split; by eexists. }
  change (no_action no_match) with true. cbv iota.
  split; [done|]. intros a sy ra tg.
  destruct (header_pattern _) as [g|] eqn:Hh.
  { intros [= <- <- <- <-]. do 3 right. left. split; [done|]. split; [done|].
    left. by exists g. }
  change (no_action no_match) with true. cbv iota.
  destruct (contains "Dividend" _) eqn:Hc.
  - intros [= <- <- <- <-]. do 4 right. done.
  - intros [= <- <- <- <-]. do 3 right. left. split; [done|]. split; [done|].
    by right.
Qed.

Lemma parse_action_text_outcome_witness :
  parse_action_text "Cash Dividend USD 1.19 per Share" =
    Returns (Some "Dividend"%string, None, None, None) ∧
  header_pattern (chars "Cash Dividend USD 1.19 per Share") = None.
Proof.
  split; [reflexivity|].
  destruct (proj2 (parse_action_text_outcome "Cash Dividend USD 1.19 per Share")
              _ _ _ _ eq_refl)
    as [(H & _)|[(H & _)|[(H & _)|[(H & _)|(_ & _ & _ & _ & H & _)]]]];
    [discriminate..|exact H].
Defined.

(** ** The sections of a statement file *)

Lemma prefix_key_comma (prefix rest : string) :
  ","%char ∉ chars prefix → prefix_key (prefix +:+ "," +:+ rest) = prefix.
Proof.
  intros Hc. unfold prefix_key. rewrite !chars_app. rewrite span_app.
  - simpl. unfold str, chars. apply String.string_of_list_ascii_of_string.
  - apply Forall_forall. intros c Hin. apply negb_true_iff, bool_decide_eq_false.
    by intros ->.
  - done.
Qed.

Lemma prefix_key_no_comma (line : string) :
  ","%char ∉ chars line → prefix_key line = line.
Proof.
  intros Hc. unfold prefix_key.
  rewrite <-(app_nil_r (chars line)). rewrite span_app.
  - simpl. unfold str, chars. apply String.string_of_list_ascii_of_string.
  - apply Forall_forall. intros c Hin. apply negb_true_iff, bool_decide_eq_false.
    by intros ->.
  - done.
Qed.

(** The dictionary holds, under every key, the lines with that key, in file
    order; a key no line has is absent. *)
Lemma parse_csv_into_prefixed_lines_lookup (lines : list string) (k : string) :
  parse_csv_into_prefixed_lines lines !! k =
  match filter (λ line, prefix_key line = k) lines with
  | [] => None
  | section => Some section
  end.
Proof.
  induction lines as [|line lines IH] using rev_ind; [done|].
  unfold parse_csv_into_prefixed_lines in *. rewrite foldl_app, filter_app. simpl.
  set (d := foldl _ ∅ lines) in *.
  destruct (decide (prefix_key line = k)) as [<-|Hne].
  - rewrite filter_cons_True by done. rewrite lookup_alter_eq.
    destruct (decide (is_Some (d !! prefix_key line))) as [[ls Hls]|Hnone].
    + rewrite Hls in *. simpl.
      destruct (filter _ lines) as [|x xs]; [done|]. by injection IH as ->.
    + rewrite lookup_insert_eq. simpl.
      destruct (filter _ lines) as [|x xs]; [done|].
      exfalso. apply Hnone. by rewrite IH.
  - rewrite filter_cons_False, app_nil_r by done. rewrite lookup_alter_ne by done.
    destruct (decide _); [done|]. by rewrite lookup_insert_ne.
Qed.

(** X20. A section of the statement file.  [dataframe_from_prefixed_lines]
    on the dictionary [parse_csv_into_prefixed_lines] builds gives the empty
    frame, without reading anything, when no line of the file has the
    prefix; otherwise it reads the lines with the prefix, all of them and in
    file order, joined.  The prefix of a line is its text before the first
    comma, and the whole line when there is no comma. *)
Theorem dataframe_from_prefixed_lines_spec {F} (empty_frame : F)
    (read_csv : string → F) (lines : list string) (prefix : string) :
  dataframe_from_prefixed_lines empty_frame read_csv
    (parse_csv_into_prefixed_lines lines) prefix =
  match filter (λ line, prefix_key line = prefix) lines with
  | [] => empty_frame
  | section => read_csv (String.concat "" section)
  end ∧
  (∀ rest, ","%char ∉ chars prefix → prefix_key (prefix +:+ "," +:+ rest) = prefix) ∧
  (","%char ∉ chars prefix → prefix_key prefix = prefix).
Proof.
  split; [|split; [intros rest; apply prefix_key_comma|apply prefix_key_no_comma]].
  unfold dataframe_from_prefixed_lines.
  rewrite parse_csv_into_prefixed_lines_lookup. by destruct (filter _ lines).
Qed.

Lemma dataframe_from_prefixed_lines_spec_witness :
  prefix_key ("Trades" +:+ "," +:+ "Data,Order,Stocks,CZK,CEZ") = "Trades"%string ∧
  prefix_key "Trades" = "Trades"%string.
Proof.
  destruct (dataframe_from_prefixed_lines_spec () (λ _, ()) [] "Trades") as (_ & H1 & H2).
  split; [apply H1|apply H2]; apply (bool_decide_unpack _); by vm_compute.
Defined.

(** ** More about the conversion of imported frames *)

Lemma mapM_Raises_intro {A B} (f : A → result B) (l : list A) x e :
  x ∈ l → f x = Raises e → ∃ e', mapM f l = Raises e'.
Proof.
  induction l as [|y l IH]; intros Hx Hfx; [by apply elem_of_nil in Hx|].
  simpl. destruct (f y) as [b|e'] eqn:Hy; simpl; [|by eexists].
  apply elem_of_cons in Hx as [->|Hx]; [congruence|].
  destruct (IH Hx Hfx) as [e' ->]. by eexists.
Qed.

(** A loop whose body can raise one exception only raises it exactly when
    the body raises it on some element. *)
Lemma mapM_Raises_iff {A B} (f : A → result B) (l : list A) e0 e :
  (∀ x e', f x = Raises e' → e' = e0) →
  mapM f l = Raises e ↔ e = e0 ∧ ∃ x, x ∈ l ∧ f x = Raises e0.
Proof.
  intros Hf. split.
  - intros (x & Hx & Hfx)%mapM_Raises. pose proof (Hf _ _ Hfx) as ->. eauto.
  - intros [-> (x & Hx & Hfx)].
    destruct (mapM_Raises_intro f l x e0 Hx Hfx) as [e' He'].
    pose proof He' as (y & _ & Hy)%mapM_Raises. by rewrite (Hf _ _ Hy) in He'.
Qed.

Lemma mapM_Returns_inv {A B} (f : A → result B) (l : list A) ys :
  mapM f l = Returns ys → ∀ x, x ∈ l → ∃ y, f x = Returns y.
Proof.
  intros Hm x Hx. destruct (f x) as [y|e] eqn:Hfx; [by eexists|].
  destruct (mapM_Raises_intro f l x e Hx Hfx) as [e' He']. congruence.
Qed.

Lemma zip_fmap_self {A B} (f : A → B) (l : list A) :
  zip l (f <$> l) = (λ x, (x, f x)) <$> l.
Proof. induction l as [|x l IH]; [done|]. simpl. f_equal. exact IH. Qed.

Section ConvertFacts.
Variable parse_float : string → option Q.
Variable parse_datetime : string → option Z.

Lemma to_datetime_Raises s e :
  to_datetime parse_datetime s = Raises e → e = ValueError ∧ parse_datetime s = None.
Proof. unfold to_datetime. destruct (parse_datetime s); [done|]. by intros [= <-]. Qed.

Lemma get_type_no_column quantity action :
  get_type false quantity action =
  if num_eq0 quantity then Returns None else Raises KeyError.
Proof. unfold get_type. by destruct (num_eq0 quantity). Qed.

(** In the model every cell of the timestamp column is read on its own,
    and an empty frame is converted like any other. *)
Lemma convert_trade_columns_Raises_iff (cols : Columns) (df : list RawTrade) e :
  convert_trade_columns parse_float parse_datetime cols df = Raises e ↔
  (e = ValueError ∧ ∃ r, r ∈ df ∧ parse_datetime (raw_Date_Time r) = None) ∨
  ((∀ r, r ∈ df → is_Some (parse_datetime (raw_Date_Time r))) ∧
   has_Action cols = false ∧
   ((e = TypeError ∧ has_Code cols = true ∧ ∃ r, r ∈ df ∧ raw_Code r = None) ∨
    (e = KeyError ∧ has_Code cols = false ∧
     ∃ r, r ∈ df ∧ num_eq0 (to_numeric parse_float (raw_Quantity r)) = false))).
Proof.
  unfold convert_trade_columns.
  destruct (mapM (to_datetime parse_datetime ∘ raw_Date_Time) df) as [dates|e'] eqn:Hd.
  2: { apply mapM_Raises in Hd as (r & Hin & [-> Hr]%to_datetime_Raises).
       simpl. split.
       - intros [= <-]. left. eauto.
       - intros [[-> _]|[Hall _]]; [done|].
         destruct (Hall r Hin) as [t Ht]. simpl in Hr. congruence. }
  assert (∀ r, r ∈ df → is_Some (parse_datetime (raw_Date_Time r))) as Hdates.
  { intros r Hin. destruct (mapM_Returns_inv _ _ _ Hd r Hin) as [t Ht].
    unfold to_datetime in Ht. simpl in Ht. destruct (parse_datetime _); [done|done]. }
  assert (¬ ∃ r, r ∈ df ∧ parse_datetime (raw_Date_Time r) = None) as Hnodate.
  { intros (r & Hin & Hr). destruct (Hdates r Hin) as [t Ht]. congruence. }
  simpl.
  destruct (has_Action cols) eqn:Ha; simpl.
  { (* an Action column: nothing raises *)
    destruct (mapM _ (zip df _)) as [types|e''] eqn:Ht; simpl.
    - split; [done|]. intros [[_ ?]|(_ & ? & _)]; done.
    - apply mapM_Raises in Ht as (ra & _ & Hra).
      destruct (get_type_Returns (to_numeric parse_float (raw_Quantity ra.1)) ra.2).
      congruence. }
  destruct (has_Code cols) eqn:Hc; simpl.
  - (* a Code column *)
    match goal with
    | |- context [mapM ?f df] => destruct (mapM f df) as [actions|e''] eqn:Hm
    end; simpl.
    + destruct (mapM _ (zip df _)) as [types|e''] eqn:Ht; simpl.
      * split; [done|]. intros [[_ ?]|(_ & _ & [(_ & _ & r & Hin & Hr)|(_ & ? & _)])];
          [done| |done].
        destruct (mapM_Returns_inv _ _ _ Hm r Hin) as [y Hy]. by rewrite Hr in Hy.
      * apply mapM_Raises in Ht as (ra & _ & Hra).
        destruct (get_type_Returns (to_numeric parse_float (raw_Quantity ra.1)) ra.2).
        congruence.
    + apply mapM_Raises in Hm as (r & Hin & Hr).
      assert (e'' = TypeError ∧ raw_Code r = None) as [-> Hcode].
      { destruct (raw_Code r); [done|]. by injection Hr as <-. }
      split.
      * intros [= <-]. right. split; [done|]. split; [done|]. left. eauto.
      * intros [[_ ?]|(_ & _ & [(-> & _)|(_ & ? & _)])]; done.
  - (* neither column *)
    rewrite zip_fmap_self.
    match goal with
    | |- context [mapM ?f ?l] => pose proof (mapM_Raises_iff f l KeyError e) as Hiff
    end.
    destruct (mapM _ (_ <$> df)) as [types|e''] eqn:Ht; simpl.
    + split; [done|].
      intros [[_ ?]|(_ & _ & [(_ & ? & _)|(-> & _ & r & Hin & Hr)])]; [done|done|].
      exfalso. assert (Returns types = Raises KeyError) as Habs; [|done].
      apply Hiff.
      { intros [x a] e'. simpl. rewrite get_type_no_column.
        destruct (num_eq0 (to_numeric parse_float (raw_Quantity x))); [done|].
        congruence. }
      split; [done|]. exists (r, raw_Action r). split.
      { by apply (list_elem_of_fmap_2 (λ x, (x, raw_Action x))). }
      simpl. by rewrite get_type_no_column, Hr.
    + pose proof Ht as (ra & Hra & Hraise)%mapM_Raises.
      apply list_elem_of_fmap in Hra as (r & -> & Hin). simpl in Hraise.
      rewrite get_type_no_column in Hraise.
      destruct (num_eq0 (to_numeric parse_float (raw_Quantity r))) eqn:Hq; [done|].
      injection Hraise as <-.
      split.
      * intros [= <-]. right. split; [done|]. split; [done|]. right. eauto.
      * intros [[_ ?]|(_ & _ & [(_ & ? & _)|(-> & _)])]; done.
Qed.

(** X21. The exceptions of [convert_trade_columns].  A timestamp that the
    parser of the column cannot read makes it raise ValueError, whatever the
    other columns hold.  On a frame that is not empty and whose timestamps
    are all read, it raises only on a frame without an Action column:
    TypeError exactly when there is a Code column with a missing cell, and
    KeyError exactly when there is no Code column either and some quantity
    is not zero (a quantity that cannot be read counts as not zero).  On
    such a frame with an Action column it raises nothing. *)
Theorem convert_trade_columns_exception (cols : Columns) (df : list RawTrade) :
  ((∃ r, r ∈ df ∧ parse_datetime (raw_Date_Time r) = None) →
   convert_trade_columns parse_float parse_datetime cols df = Raises ValueError) ∧
  (df ≠ [] → (∀ r, r ∈ df → is_Some (parse_datetime (raw_Date_Time r))) →
   ∀ e, convert_trade_columns parse_float parse_datetime cols df = Raises e ↔
        has_Action cols = false ∧
        ((e = TypeError ∧ has_Code cols = true ∧ ∃ r, r ∈ df ∧ raw_Code r = None) ∨
         (e = KeyError ∧ has_Code cols = false ∧
          ∃ r, r ∈ df ∧
               num_eq0 (to_numeric parse_float (raw_Quantity r)) = false))).
Proof.
  split.
  - intros Hbad. apply convert_trade_columns_Raises_iff. by left.
  - intros _ Hdates e. rewrite convert_trade_columns_Raises_iff. split.
    + intros [(_ & r & Hin & Hr)|(_ & H)]; [|done].
      destruct (Hdates r Hin) as [t Ht]. congruence.
    + intros H. by right.
Qed.
End ConvertFacts.

Lemma convert_trade_columns_exception_witness :
  convert_trade_columns sample_parse_float sample_parse_datetime no_action_columns
    [row_with_bad_quantity] = Raises KeyError.
Proof.
  refine (proj2 (proj2 (convert_trade_columns_exception sample_parse_float
                          sample_parse_datetime no_action_columns
                          [row_with_bad_quantity]) _ _ KeyError) _).
  - discriminate.
  - intros r ->%list_elem_of_singleton. by eexists.
  - split; [reflexivity|]. right. split; [reflexivity|]. split; [reflexivity|].
    eexists. split; [by left|reflexivity].
Defined.

(** ** More about the renames *)

Section RenameSymbolsMore.
Context {R : Type} (symbol_of : R → string) (date_of : R → Z)
  (set_ticker : option string → R → R).

Lemma rename_symbols_again symbols (df df' : list R) :
  (∀ v r, symbol_of (set_ticker v r) = symbol_of r) →
  (∀ v r, date_of (set_ticker v r) = date_of r) →
  (∀ v r, set_ticker v (set_ticker v r) = set_ticker v r) →
  rename_symbols symbol_of date_of set_ticker symbols df = Returns df' →
  rename_symbols symbol_of date_of set_ticker symbols df' = Returns df'.
Proof.
  intros Hsym Hdate Hset. unfold rename_symbols. revert df'.
  induction df as [|row df IH]; intros df'; simpl.
  - by intros [= <-].
  - destruct (lookup_ticker _ _ _) as [ticker|] eqn:Hl; simpl; [|done].
    destruct (mapM _ df) as [rows|] eqn:Hm; simpl; [|done].
    intros [= <-]. simpl. rewrite Hsym, Hdate, Hl. simpl.
    rewrite (IH rows eq_refl). simpl. by rewrite Hset.
Qed.

Lemma rename_symbols_Raises_iff symbols (df : list R) e :
  rename_symbols symbol_of date_of set_ticker symbols df = Raises e ↔
  e = IndexError ∧
  ∃ row, row ∈ df ∧ matching_renames symbols (symbol_of row) (date_of row) = [].
Proof.
  unfold rename_symbols. rewrite (mapM_Raises_iff _ _ IndexError).
  - split; intros [-> (row & Hin & Hrow)]; (split; [done|]); exists row;
      (split; [done|]);
      destruct (lookup_ticker_total symbols (symbol_of row) (date_of row))
        as [[Hne [ticker Ht]]|[Hnil Ht]]; rewrite Ht in *; done.
  - intros row e'.
    destruct (lookup_ticker_total symbols (symbol_of row) (date_of row))
      as [[_ [ticker ->]]|[_ ->]]; simpl; congruence.
Qed.

Lemma rename_symbols_keeps {P : R → Prop} symbols (df df' : list R) :
  (∀ v r, P r → P (set_ticker v r)) →
  rename_symbols symbol_of date_of set_ticker symbols df = Returns df' →
  Forall P df → Forall P df'.
Proof.
  intros HP Hr%rename_symbols_Returns Hdf.
  induction Hr as [|r r' df df' (e & _ & ->) _ IH]; [done|].
  apply Forall_cons in Hdf as [Hr Hdf]. constructor; [by apply HP|by apply IH].
Qed.

Lemma rename_symbols_fmap {B} (g : R → B) symbols (df df' : list R) :
  (∀ v r, g (set_ticker v r) = g r) →
  rename_symbols symbol_of date_of set_ticker symbols df = Returns df' →
  g <$> df' = g <$> df.
Proof.
  intros Hg Hr%rename_symbols_Returns.
  induction Hr as [|r r' df df' (e & _ & ->) _ IH]; [done|].
  rewrite !fmap_cons, Hg. f_equal. exact IH.
Qed.
End RenameSymbolsMore.

Lemma apply_renames_Returns_inv (s s' : State) :
  apply_renames s = Returns s' →
  ∃ ts ps ds,
    rename_symbols (λ r : Hash * Trade, Symbol r.2) (λ r, Date_Time r.2)
      (λ v r, (r.1, set_Ticker v r.2)) (symbols s)
      (filter (λ r : Hash * Trade, Manual r.2 = Some false) (trades s)) = Returns ts ∧
    rename_symbols pos_Symbol pos_Date set_pos_Ticker (symbols s) (positions s) =
      Returns ps ∧
    rename_symbols div_Symbol div_Date set_div_Ticker (symbols s) (dividends s) =
      Returns ds ∧
    s' = {| trades := ts ++ filter (λ r : Hash * Trade, Manual r.2 = Some true) (trades s);
            actions := actions s; positions := ps; dividends := ds;
            symbols := symbols s; imports := imports s; pairings := pairings s |}.
Proof.
  unfold apply_renames.
  destruct (rename_symbols _ _ _ _ (filter _ (trades s))) as [ts|]; [|done]. simpl.
  destruct (rename_symbols _ _ _ _ (positions s)) as [ps|]; [|done]. simpl.
  destruct (rename_symbols _ _ _ _ (dividends s)) as [ds|]; [|done]. simpl.
  intros [= <-]. by exists ts, ps, ds.
Qed.

(** X23. What [apply_renames] does to the trades frame.  When it returns,
    the frame holds the trades that are not manual, in their order and
    under their hashes, followed by the manual ones, unchanged; every row
    differs from the row it comes from in the Ticker at most.  A trade whose
    Manual cell is neither True nor False is dropped.  The corporate
    actions, the symbols table, the imports and the pairings stay as they
    are. *)
Theorem apply_renames_trades (s s' : State) :
  apply_renames s = Returns s' →
  (trades s').*1 =
    (filter (λ r : Hash * Trade, Manual r.2 = Some false) (trades s)).*1 ++
    (filter (λ r : Hash * Trade, Manual r.2 = Some true) (trades s)).*1 ∧
  (∀ r', r' ∈ trades s' →
     ∃ r, r ∈ trades s ∧ r'.1 = r.1 ∧ Manual r.2 ≠ None ∧
          (r' = r ∨ ∃ ticker, r'.2 = set_Ticker (Some ticker) r.2)) ∧
  (∀ r', r' ∈ trades s' → Manual r'.2 ≠ None) ∧
  actions s' = actions s ∧ symbols s' = symbols s ∧
  imports s' = imports s ∧ pairings s' = pairings s.
Proof.
  intros (ts & ps & ds & Hts & Hps & Hds & ->)%apply_renames_Returns_inv. simpl.
  assert (∀ r', r' ∈ ts →
            ∃ r, r ∈ trades s ∧ r'.1 = r.1 ∧ Manual r.2 = Some false ∧
                 ∃ ticker, r'.2 = set_Ticker (Some ticker) r.2) as Hrows.
  { intros r' [i Hi]%list_elem_of_lookup.
    apply rename_symbols_Returns in Hts.
    destruct (Forall2_lookup_r _ _ _ _ _ Hts Hi) as (r & Hr & e & _ & ->).
    apply list_elem_of_lookup_2, list_elem_of_filter in Hr as [Hm Hr].
    exists r. split; [done|]. split; [done|]. split; [done|]. by eexists. }
  split; [|split; [|split]]; [| | |done].
  - rewrite fmap_app. f_equal.
    eapply rename_symbols_fmap; [|exact Hts]; done.
  - intros r' [Hr'|Hr']%elem_of_app.
    + destruct (Hrows r' Hr') as (r & Hr & H1 & Hm & Ht).
      exists r. split; [done|]. split; [done|]. split; [congruence|by right].
    + apply list_elem_of_filter in Hr' as [Hm Hr'].
      exists r'. split; [done|]. split; [done|]. split; [congruence|by left].
  - intros r' [Hr'|Hr']%elem_of_app.
    + destruct (Hrows r' Hr') as (r & _ & _ & Hm & ticker & Ht).
      rewrite Ht. simpl. by rewrite Hm.
    + apply list_elem_of_filter in Hr' as [Hm _]. congruence.
Qed.

Lemma apply_renames_trades_witness :
  ∃ s', apply_renames FB_ledger = Returns s' ∧
    (trades s').*1 = ["t1"%string] ∧ symbols s' = symbols FB_ledger.
Proof.
  eexists. split; [reflexivity|].
  match goal with
  | |- (trades ?s').*1 = _ ∧ _ =>
      destruct (apply_renames_trades FB_ledger s' eq_refl) as (H1 & _ & _ & _ & H2 & _)
  end.
  split; [exact H1|exact H2].
Defined.

(** X24. Applying the renames a second time changes nothing: on the state
    [apply_renames] returns, it returns that state. *)
Theorem apply_renames_idempotent (s s' : State) :
  apply_renames s = Returns s' → apply_renames s' = Returns s'.
Proof.
  intros (ts & ps & ds & Hts & Hps & Hds & ->)%apply_renames_Returns_inv.
  unfold apply_renames. simpl.
  assert (Forall (λ r : Hash * Trade, Manual r.2 = Some false) ts) as Hfalse.
  { eapply rename_symbols_keeps; [|exact Hts|].
    - by intros v r.
    - apply Forall_forall. by intros r [? _]%list_elem_of_filter. }
  rewrite Forall_forall in Hfalse.
  rewrite !filter_app.
  rewrite (filter_all (λ r : Hash * Trade, Manual r.2 = Some false) ts) by done.
  rewrite (filter_none (λ r : Hash * Trade, Manual r.2 = Some true) ts).
  2: { intros r Hr. rewrite (Hfalse r Hr). done. }
  rewrite (filter_none (λ r : Hash * Trade, Manual r.2 = Some false) (filter _ _)).
  2: { intros r [Hm _]%list_elem_of_filter. by rewrite Hm. }
  rewrite (filter_all (λ r : Hash * Trade, Manual r.2 = Some true) (filter _ _)).
  2: { by intros r [Hm _]%list_elem_of_filter. }
  rewrite app_nil_r. simpl.
  assert (rename_symbols (λ r : Hash * Trade, Symbol r.2) (λ r, Date_Time r.2)
            (λ v r, (r.1, set_Ticker v r.2)) (symbols s) ts = Returns ts) as ->.
  { eapply rename_symbols_again; [done|done|done|exact Hts]. }
  assert (rename_symbols pos_Symbol pos_Date set_pos_Ticker (symbols s) ps =
          Returns ps) as ->.
  { eapply rename_symbols_again; [done|done|done|exact Hps]. }
  assert (rename_symbols div_Symbol div_Date set_div_Ticker (symbols s) ds =
          Returns ds) as ->.
  { eapply rename_symbols_again; [done|done|done|exact Hds]. }
  done.
Qed.

Lemma apply_renames_idempotent_witness :
  ∃ s', apply_renames FB_ledger = Returns s' ∧ apply_renames s' = Returns s'.
Proof.
  eexists. split; [reflexivity|]. by apply (apply_renames_idempotent FB_ledger).
Defined.

(** X25. The exception of [apply_renames], on a trades frame where some
    Manual cell is filled in.  The only exception is IndexError, and it is
    raised exactly when a trade that is not manual, an open position or a
    dividend has no entry of its symbol in the symbols table whose change
    date is missing or not before the row's date. *)
Theorem apply_renames_exception (s : State) e :
  Exists (λ r : Hash * Trade, Manual r.2 ≠ None) (trades s) →
  apply_renames s = Raises e ↔
  e = IndexError ∧
  ((∃ r, r ∈ trades s ∧ Manual r.2 = Some false ∧
         matching_renames (symbols s) (Symbol r.2) (Date_Time r.2) = []) ∨
   (∃ p, p ∈ positions s ∧
         matching_renames (symbols s) (pos_Symbol p) (pos_Date p) = []) ∨
   (∃ d, d ∈ dividends s ∧
         matching_renames (symbols s) (div_Symbol d) (div_Date d) = [])).
Proof.
  intros _. unfold apply_renames.
  pose proof (rename_symbols_Raises_iff (λ r : Hash * Trade, Symbol r.2)
                (λ r, Date_Time r.2) (λ v r, (r.1, set_Ticker v r.2)) (symbols s)
                (filter (λ r : Hash * Trade, Manual r.2 = Some false) (trades s)))
    as Ht.
  pose proof (rename_symbols_Raises_iff pos_Symbol pos_Date set_pos_Ticker
                (symbols s) (positions s)) as Hp.
  pose proof (rename_symbols_Raises_iff div_Symbol div_Date set_div_Ticker
                (symbols s) (dividends s)) as Hd.
  destruct (rename_symbols _ _ _ _ (filter _ (trades s))) as [ts|et]; simpl.
  2: { destruct (proj1 (Ht et) eq_refl) as [-> (r & [Hm Hr]%list_elem_of_filter & Hnil)].
       split; [intros [= <-]|by intros [-> _]].
       split; [done|]. left. by exists r. }
  assert (¬ ∃ r, r ∈ trades s ∧ Manual r.2 = Some false ∧
                 matching_renames (symbols s) (Symbol r.2) (Date_Time r.2) = [])
    as Hnt.
  { intros (r & Hr & Hm & Hnil).
    assert (Returns ts = Raises IndexError) as Habs; [|done].
    apply Ht. split; [done|]. exists r. split; [|done]. by apply list_elem_of_filter. }
  destruct (rename_symbols _ _ _ _ (positions s)) as [ps|ep]; simpl.
  2: { destruct (proj1 (Hp ep) eq_refl) as [-> Hex].
       split; [intros [= <-]|by intros [-> _]]. split; [done|]. right. by left. }
  assert (¬ ∃ p, p ∈ positions s ∧
                 matching_renames (symbols s) (pos_Symbol p) (pos_Date p) = [])
    as Hnp.
  { intros Hex. assert (Returns ps = Raises IndexError) as Habs; [|done].
    by apply Hp. }
  destruct (rename_symbols _ _ _ _ (dividends s)) as [ds|ed]; simpl.
  2: { destruct (proj1 (Hd ed) eq_refl) as [-> Hex].
       split; [intros [= <-]|by intros [-> _]]. split; [done|]. right. by right. }
  split; [done|]. intros [_ [?|[?|Hex]]]; [done|done|].
  assert (Returns ds = Raises IndexError) as Habs; [|done]. by apply Hd.
Qed.

Lemma apply_renames_exception_witness :
  apply_renames FB_ledger_without_symbols = Raises IndexError.
Proof.
  apply (apply_renames_exception FB_ledger_without_symbols IndexError).
  - apply Exists_cons_hd. discriminate.
  - split; [reflexivity|]. left. eexists. split; [by left|]. split; reflexivity.
Defined.

(** X26. A symbol with two entries in the symbols table, a rename with a
    change date and the entry without one.  A row dated at or before the
    change date gets the ticker of the rename; a row dated after it gets the
    ticker of the entry without a date. *)
Theorem lookup_ticker_rename (symbols : Symbols) (symbol : string) (d c : Z)
    (rename original : string * SymbolRename) :
  filter (λ e : string * SymbolRename, e.1 = symbol) symbols ≡ₚ [rename; original] →
  sym_Change_Date rename.2 = Some c → sym_Change_Date original.2 = None →
  lookup_ticker symbols symbol d =
  Returns (if decide (d ≤ c) then sym_Ticker rename.2 else sym_Ticker original.2).
Proof.
  intros Hp Hc Hn. unfold lookup_ticker, matching_renames.
  assert (filter (λ e : string * SymbolRename,
                    e.1 = symbol ∧ covers (sym_Change_Date e.2) d) symbols =
          filter (λ e : string * SymbolRename, covers (sym_Change_Date e.2) d)
            (filter (λ e : string * SymbolRename, e.1 = symbol) symbols)) as ->.
  { rewrite list_filter_filter. apply filter_ext_elem. tauto. }
  apply Permutation_pair in Hp as [-> | ->].
  - rewrite (filter_cons _ rename), (filter_cons _ original), Hc, Hn. simpl.
    destruct (decide (d ≤ c)); simpl.
    + unfold by_Change_Date. by rewrite Hc, Hn.
    + done.
  - rewrite (filter_cons _ original), (filter_cons _ rename), Hc, Hn. simpl.
    destruct (decide (d ≤ c)); simpl.
    + unfold by_Change_Date. by rewrite Hc, Hn.
    + done.
Qed.

Lemma lookup_ticker_rename_witness :
  lookup_ticker (symbols FB_ledger) "FB" 100 = Returns "META"%string ∧
  lookup_ticker (symbols FB_ledger) "FB" 501 = Returns "FB"%string.
Proof.
  split.
  - refine (lookup_ticker_rename (symbols FB_ledger) "FB" 100 500 renamed_FB auto_FB
              _ _ _); reflexivity.
  - refine (lookup_ticker_rename (symbols FB_ledger) "FB" 501 500 renamed_FB auto_FB
              _ _ _); reflexivity.
Defined.

Lemma currency_lookup_Raises kept symbol e :
  currency_lookup kept symbol = Raises e ↔
  e = KeyError ∧ filter (λ e : string * SymbolRename, e.1 = symbol) kept = [].
Proof.
  unfold currency_lookup. destruct (filter _ kept); [|by split; [|intros [_ ?]]].
  split; [by intros [= <-]|by intros [-> _]].
Qed.

(** X27. The exception of the rebuild of the symbols table,
    [detect_renames].  The only exception is KeyError, raised exactly when
    the rename history has a symbol that is in the index of the symbols
    table while every entry of that symbol has a change date and is not
    manual.  When the rebuild returns, every entry of the new table is
    filed under a symbol the old table had. *)
Theorem detect_renames_outcome (symbols : Symbols) (history : list Rename) :
  (∀ e, detect_renames symbols history = Raises e ↔
        e = KeyError ∧
        ∃ r, r ∈ history ∧ Old r ∈ symbols.*1 ∧
             ∀ e' : string * SymbolRename, e' ∈ symbols → e'.1 = Old r →
               sym_Change_Date e'.2 ≠ None ∧ sym_Manual e'.2 ≠ Some true) ∧
  (∀ symbols', detect_renames symbols history = Returns symbols' →
     ∀ e : string * SymbolRename, e ∈ symbols' → e.1 ∈ symbols.*1).
Proof.
  assert (∀ s, filter (λ e : string * SymbolRename, e.1 = s) (kept_symbols symbols) = [] ↔
               ∀ e' : string * SymbolRename, e' ∈ symbols → e'.1 = s →
                 sym_Change_Date e'.2 ≠ None ∧ sym_Manual e'.2 ≠ Some true) as Hkept.
  { intros s. split.
    - intros Hnil e' He' Hs.
      destruct (decide (sym_Change_Date e'.2 = None ∨ sym_Manual e'.2 = Some true))
        as [Hk|Hk]; [|tauto].
      exfalso. eapply (filter_nil_not_elem_of _ _ e' Hnil Hs).
      by apply elem_of_kept_symbols.
    - intros Hall. apply filter_none.
      intros e' [He' Hk]%elem_of_kept_symbols Hs.
      destruct (Hall e' He' Hs). tauto. }
  unfold detect_renames. split.
  - intros e.
    match goal with
    | |- context [mapM ?f ?l] =>
        pose proof (mapM_Raises_iff f l KeyError e) as Hiff;
        destruct (mapM f l) as [active|e'] eqn:Hm
    end; simpl.
    + split; [done|]. intros [-> (r & Hr & Hold & Hall)].
      assert (Returns active = Raises KeyError) as Habs; [|done].
      apply Hiff.
      { intros x e'. destruct (currency_lookup _ _) eqn:Hc; simpl; [done|].
        apply currency_lookup_Raises in Hc as [-> _]. congruence. }
      split; [done|]. eexists. split.
      { apply list_elem_of_filter. split; [|by apply list_elem_of_fmap_2].
        exact Hold. }
      simpl. by rewrite (proj2 (currency_lookup_Raises _ _ KeyError)
                            (conj eq_refl (proj2 (Hkept _) Hall))).
    + pose proof Hm as (x & Hx & Hraise)%mapM_Raises.
      apply list_elem_of_filter in Hx as [Hold (r & -> & Hr)%list_elem_of_fmap].
      simpl in Hold, Hraise.
      destruct (currency_lookup _ _) eqn:Hc; simpl in Hraise; [done|].
      injection Hraise as <-.
      apply currency_lookup_Raises in Hc as [-> Hnil].
      split; [|by intros [-> _]]. intros [= <-]. split; [done|].
      exists r. split; [done|]. split; [done|]. by apply Hkept.
  - intros symbols'.
    destruct (mapM _ _) as [active|] eqn:Hm; simpl; [|done]. intros [= <-].
    intros e. rewrite sort_values_Permutation.
    intros [He _]%drop_duplicated_elem.
    apply elem_of_app in He as [He|He].
    + apply elem_of_kept_symbols in He as [He _]. by apply list_elem_of_fmap_2.
    + assert (Forall (λ e : string * SymbolRename, e.1 ∈ symbols.*1) active) as Hall;
        [|by eapply Forall_forall in Hall].
      clear He.
      match type of Hm with
      | mapM _ ?l0 = _ =>
          assert (Forall (λ e : string * SymbolRename, e.1 ∈ symbols.*1) l0) as Hl;
          [apply Forall_forall; by intros x [? _]%list_elem_of_filter|];
          revert active Hm; induction Hl as [|x l Hx _ IH]; intros active; simpl
      end.
      * intros [= <-]. constructor.
      * destruct (currency_lookup _ _); simpl; [|done].
        destruct (mapM _ l) as [rows|]; simpl; [|done].
        intros [= <-]. constructor; [done|]. by apply IH.
Qed.

Lemma detect_renames_outcome_witness :
  detect_renames grouped_by_hand_detected FB_OLD_history = Raises KeyError.
Proof.
  apply (proj1 (detect_renames_outcome grouped_by_hand_detected FB_OLD_history)).
  split; [reflexivity|]. eexists. split; [by left|]. split.
  - simpl. set_solver.
  - intros e' [->|[->|[]%elem_of_nil]%elem_of_cons]%elem_of_cons; simpl; [|done].
    intros _. split; discriminate.
Defined.

(** X28. [detect_and_apply_renames] as a whole.  With an empty rename
    history it returns, and the symbols table it leaves holds the entries
    without a change date and the manual ones, rows repeating the columns
    of an earlier one dropped; nothing else of the state changes.  With a
    rename history that is not empty it never returns: it raises. *)
Theorem detect_and_apply_renames_outcome (s : State) (history : list Rename) :
  (∃ symbols',
     detect_and_apply_renames s [] = Returns (set_symbols symbols' s) ∧
     symbols' ≡ₚ keep_first snd (kept_symbols (symbols s))) ∧
  (history ≠ [] → ∃ e, detect_and_apply_renames s history = Raises e).
Proof.
  split.
  - eexists. split.
    + unfold detect_and_apply_renames, detect_renames. simpl. by rewrite app_nil_r.
    + apply sort_values_Permutation.
  - intros Hne. unfold detect_and_apply_renames.
    destruct (detect_renames _ _) as [symbols'|e]; simpl; [|by eexists].
    destruct (decide _) as [_|Hlen].
    + destruct (apply_renames _); simpl; by eexists.
    + destruct history; [done|]. simpl in Hlen. lia.
Qed.

Lemma detect_and_apply_renames_outcome_witness :
  ∃ e, detect_and_apply_renames FB_ledger FB_history = Raises e.
Proof.
  apply (proj2 (detect_and_apply_renames_outcome FB_ledger FB_history)). discriminate.
Defined.

(** ** Normalized frames *)

Lemma mapM_length {A B} (f : A → result B) (l : list A) ys :
  mapM f l = Returns ys → length ys = length l.
Proof.
  revert ys. induction l as [|x l IH]; intros ys; simpl; [by intros [= <-]|].
  destruct (f x); simpl; [|done]. destruct (mapM f l); simpl; [|done].
  intros [= <-]. simpl. by rewrite (IH _ eq_refl).
Qed.

Lemma Forall_zip_with {A B C} (P : C → Prop) (g : A → B → C) (l : list A) (k : list B) :
  (∀ x y, P (g x y)) → Forall P (zip_with g l k).
Proof.
  intros Hg. revert k. induction l as [|x l IH]; intros [|y k]; simpl; try constructor.
  - apply Hg.
  - apply IH.
Qed.

(** The rows [convert_trade_columns] returns: one per imported row, the
    columns that later steps fill in still missing. *)
Lemma convert_trade_columns_Returns_inv (parse_float : string → option Q)
    (parse_datetime : string → option Z) (cols : Columns) (df : list RawTrade) rows :
  convert_trade_columns parse_float parse_datetime cols df = Returns rows →
  length rows = length df ∧
  Forall (λ t, Split_Ratio t = None ∧ Ticker t = None ∧ Manual t = None) rows.
Proof.
  unfold convert_trade_columns.
  destruct (mapM (to_datetime parse_datetime ∘ raw_Date_Time) df) as [dates|] eqn:Hd;
    simpl; [|done].
  match goal with
  | |- context [if ?c then ?a else ?b] =>
      destruct (if c then a else b) as [actions|] eqn:Ha
  end; simpl; [|done].
  destruct (mapM _ (zip df actions)) as [types|] eqn:Ht; simpl; [|done].
  intros [= <-]. split.
  - apply mapM_length in Hd, Ht.
    assert (length actions = length df) as Hla.
    { destruct (negb _ && _).
      - by apply mapM_length in Ha.
      - injection Ha as <-. by rewrite length_fmap. }
    rewrite length_zip in Ht. rewrite length_zip_with, !length_zip. lia.
  - apply Forall_zip_with. by intros r [[d a] ty].
Qed.

(** X29. What [normalize_trades] returns.  An empty frame comes back
    empty, whatever columns it has.  Otherwise it raises what
    [convert_trade_columns] raises, and when it returns there is one trade
    per imported row: each is filed under the hash of its own final row,
    its category is Trades, its year is the year of its timestamp, its
    original quantity and price are its quantity and price, and it has no
    split ratio, no ticker and no Manual flag yet. *)
Theorem normalize_trades_rows (parse_float : string → option Q)
    (parse_datetime : string → option Z) (year : Z → Z) (hash_row : Trade → string)
    (cols : Columns) (df : list RawTrade) :
  normalize_trades parse_float parse_datetime year hash_row cols [] = Returns [] ∧
  (df ≠ [] → ∀ e,
     normalize_trades parse_float parse_datetime year hash_row cols df = Raises e ↔
     convert_trade_columns parse_float parse_datetime cols df = Raises e) ∧
  (∀ trades,
     normalize_trades parse_float parse_datetime year hash_row cols df =
       Returns trades →
     length trades = length df ∧
     ∀ h row, (h, row) ∈ trades →
       h = hash_row row ∧ Category row = Some "Trades"%string ∧
       Year row = Some (year (Date_Time row)) ∧
       Orig_Quantity row = Quantity row ∧ Orig_T_Price row = T_Price row ∧
       Split_Ratio row = None ∧ Ticker row = None ∧ Manual row = None).
Proof.
  split; [done|]. split.
  - intros Hne e. unfold normalize_trades. destruct df as [|r df]; [done|].
    destruct (convert_trade_columns _ _ _ _); simpl; [split; done|].
    split; by intros [= ->].
  - intros trades. unfold normalize_trades. destruct df as [|r df].
    { intros [= <-]. split; [done|]. by intros h row ?%elem_of_nil. }
    destruct (convert_trade_columns _ _ _ _) as [rows|] eqn:Hc; simpl; [|done].
    intros [= <-].
    apply convert_trade_columns_Returns_inv in Hc as [Hlen Hall].
    split; [by rewrite length_fmap|].
    intros h row (t & [= -> ->] & Ht)%list_elem_of_fmap.
    rewrite Forall_forall in Hall. destruct (Hall t Ht) as (? & ? & ?).
    by destruct t.
Qed.

Lemma normalize_trades_rows_witness :
  ∃ trades,
    normalize_trades sample_parse_float sample_parse_datetime (λ _, 2023) Symbol
      ibkr_trade_columns [row_with_bad_quantity] = Returns trades ∧
    length trades = 1%nat.
Proof.
  eexists. split; [reflexivity|].
  exact (proj1 (proj2 (proj2 (normalize_trades_rows sample_parse_float
                                sample_parse_datetime (λ _, 2023) Symbol
                                ibkr_trade_columns [row_with_bad_quantity]))
                  _ eq_refl)).
Defined.

(** ** Option names *)

Lemma split_on_no_sep (sep : ascii) (l : list ascii) :
  sep ∉ l → split_on sep l = [l].
Proof.
  induction l as [|c l IH]; intros Hl; [done|]. simpl.
  rewrite bool_decide_eq_false_2 by (intros ->; apply Hl; by left).
  rewrite IH; [done|]. intros ?. apply Hl. by right.
Qed.

Lemma split_on_app (sep : ascii) (a r : list ascii) :
  sep ∉ a → split_on sep (a ++ sep :: r) = a :: split_on sep r.
Proof.
  induction a as [|c a IH]; intros Ha; simpl.
  - by rewrite bool_decide_eq_true_2.
  - rewrite bool_decide_eq_false_2 by (intros ->; apply Ha; by left).
    rewrite IH; [done|]. intros ?. apply Ha. by right.
Qed.

Lemma str_chars (s : string) : str (chars s) = s.
Proof. apply String.string_of_list_ascii_of_string. Qed.

Lemma put_or_call_inv pc name :
  put_or_call pc = Some name →
  (pc = "P"%string ∧ name = "Put"%string) ∨ (pc = "C"%string ∧ name = "Call"%string).
Proof.
  unfold put_or_call. repeat case_bool_decide; intros [= <-]; subst; auto.
Qed.

Lemma option_parts_of_option (row : OptionRow) (sym exp strike pc name : string) :
  opt_Symbol row = sym +:+ " " +:+ exp +:+ " " +:+ strike +:+ " " +:+ pc →
  " "%char ∉ chars sym → " "%char ∉ chars exp → " "%char ∉ chars strike →
  put_or_call pc = Some name →
  option_parts_of row = [sym; exp; strike; pc].
Proof.
  intros Hs H1 H2 H3 Hpc. unfold option_parts_of. rewrite Hs, !chars_app.
  change (chars " ") with [" "%char]. simpl.
  rewrite !split_on_app by done.
  rewrite split_on_no_sep.
  - simpl. by rewrite !str_chars.
  - apply put_or_call_inv in Hpc as [[-> _]|[-> _]]; set_solver.
Qed.

Lemma max_list_lt (n : nat) (l : list nat) :
  (0 < n)%nat → (max_list l < n)%nat ↔ Forall (λ x, (x < n)%nat) l.
Proof.
  intros Hn. induction l as [|x l IH]; simpl.
  - split; [constructor|done].
  - rewrite Forall_cons, <-IH. lia.
Qed.

(** X30. [convert_option_names].  An option row whose symbol reads
    "SYM EXP STRIKE P" (or C) comes back with the symbol SYM, the expiration
    EXP, the strike STRIKE, the type Put (or Call) and the display suffix
    " EXP STRIKE Put"; its option name is the symbol as it was.  Rows that
    are not options come back as they are, and the frame keeps its length.
    The call raises only KeyError, exactly when there are option rows and
    none of their symbols has four pieces.  A frame without an Option Name
    column is returned as it is. *)
Theorem convert_option_names_spec (df : list OptionRow) :
  (∀ i row sym exp strike pc name,
     df !! i = Some row → is_Some (Option_Name row) →
     opt_Symbol row = sym +:+ " " +:+ exp +:+ " " +:+ strike +:+ " " +:+ pc →
     " "%char ∉ chars sym → " "%char ∉ chars exp → " "%char ∉ chars strike →
     put_or_call pc = Some name →
     ∃ rows', convert_option_names true df = Returns rows' ∧
       rows' !! i =
       Some {| opt_Symbol := sym; Option_Name := Some (opt_Symbol row);
               Expiration := Some exp; Strike := Some strike;
               Option_Type := Some name;
               opt_Display_Suffix :=
                 Some (" " +:+ exp +:+ " " +:+ strike +:+ " " +:+ name) |}) ∧
  (∀ rows', convert_option_names true df = Returns rows' →
     length rows' = length df ∧
     ∀ i row, df !! i = Some row → Option_Name row = None → rows' !! i = Some row) ∧
  (∀ e, convert_option_names true df = Raises e ↔
        e = KeyError ∧ (∃ row, row ∈ df ∧ is_Some (Option_Name row)) ∧
        ∀ row, row ∈ df → is_Some (Option_Name row) →
               (length (option_parts_of row) < 4)%nat) ∧
  convert_option_names false df = Returns df.
Proof.
  unfold convert_option_names. simpl.
  assert ((max_list (length ∘ option_parts_of <$>
                       filter (λ row, is_Some (Option_Name row)) df) < 4)%nat ↔
          ∀ row, row ∈ df → is_Some (Option_Name row) →
                 (length (option_parts_of row) < 4)%nat) as Hmax.
  { rewrite max_list_lt by lia. rewrite Forall_fmap, Forall_forall.
    setoid_rewrite list_elem_of_filter. naive_solver. }
  split; [|split; [|split; [|done]]].
  - intros i row sym exp strike pc name Hi Hopt Hs H1 H2 H3 Hpc.
    pose proof (option_parts_of_option row sym exp strike pc name Hs H1 H2 H3 Hpc)
      as Hparts.
    assert (row ∈ filter (λ row, is_Some (Option_Name row)) df) as Hin.
    { apply list_elem_of_filter. split; [done|]. by eapply list_elem_of_lookup_2. }
    destruct (filter _ df) as [|r0 rs] eqn:Hf; [by apply elem_of_nil in Hin|].
    rewrite <-Hf in *. clear Hf r0 rs.
    destruct (decide _) as [Hlt|_].
    { exfalso. apply list_elem_of_filter in Hin as [_ Hin].
      pose proof (proj1 Hmax Hlt row Hin Hopt) as Hlt'.
      rewrite Hparts in Hlt'. simpl in Hlt'. lia. }
    eexists. split; [done|].
    rewrite list_lookup_fmap, Hi. simpl. rewrite decide_True by done.
    unfold convert_option_row. rewrite Hparts. simpl. by rewrite Hpc.
  - intros rows'.
    assert (∀ i row, df !! i = Some row → Option_Name row = None →
              ((λ row, if decide (is_Some (Option_Name row))
                       then convert_option_row row else row) <$> df) !! i = Some row)
      as Hstock.
    { intros i row Hi Hnone. rewrite list_lookup_fmap, Hi. simpl.
      rewrite decide_False; [done|]. rewrite Hnone. by intros [? ?]. }
    destruct (filter _ df) as [|r0 rs]; [by intros [= <-]|].
    destruct (decide _); [done|]. intros [= <-].
    split; [by rewrite length_fmap|done].
  - intros e. destruct (filter _ df) as [|r0 rs] eqn:Hf.
    { split; [done|]. intros (_ & (row & Hin & Hopt) & _).
      exfalso. eapply (filter_nil_not_elem_of _ _ row Hf); done. }
    assert (∃ row, row ∈ df ∧ is_Some (Option_Name row)) as Hex.
    { exists r0. assert (r0 ∈ filter (λ row, is_Some (Option_Name row)) df) as Hin
        by (rewrite Hf; by left).
      apply list_elem_of_filter in Hin. tauto. }
    destruct (decide _) as [Hlt|Hge].
    + split; [intros [= <-]|by intros [-> _]]. split; [done|]. split; [done|].
      exact (proj1 Hmax Hlt).
    + split; [done|]. intros (_ & _ & Hall). destruct (Hge (proj2 Hmax Hall)).
Qed.

Lemma convert_option_names_spec_witness :
  ∃ rows', convert_option_names true [celh_stock; celh_put] = Returns rows' ∧
    rows' !! 1%nat =
    Some {| opt_Symbol := "CELH"; Option_Name := Some "CELH 20SEP24 40 P"%string;
            Expiration := Some "20SEP24"%string; Strike := Some "40"%string;
            Option_Type := Some "Put"%string;
            opt_Display_Suffix := Some " 20SEP24 40 Put"%string |}.
Proof.
  refine (proj1 (convert_option_names_spec [celh_stock; celh_put]) 1%nat celh_put
            "CELH" "20SEP24" "40" "P" "Put" eq_refl _ eq_refl _ _ _ eq_refl).
  - by eexists.
  - apply (bool_decide_unpack _). by vm_compute.
  - apply (bool_decide_unpack _). by vm_compute.
  - apply (bool_decide_unpack _). by vm_compute.
Defined.
